(** * adalanche: the load, pre-processing and analyzer evaluation passes of [main]

    A shallow embedding of [src/main.go].  Go pointers to [Object] values are
    indices into an explicit heap, the package-level registries
    ([AllObjects], [PwnAnalyzers], [AllRights], ...) are the fields of a
    [World] record that every pass threads through, and [log.Fatal] as well
    as a nil dereference end a computation in [Fatal]. *)

From Stdlib Require Import ZArith.
From stdpp Require Import gmap strings list fin_maps.

Set Warnings "-clear-no-such-hyp".

Open Scope string_scope.
Open Scope list_scope.

(** ** Outcomes: a pass either completes or the process is terminated *)

Inductive result (A : Type) : Type :=
  | Ok (a : A)
  | Fatal (msg : string).
Arguments Ok {A} a.
Arguments Fatal {A} msg.

#[global] Instance result_ret : MRet result := λ A a, Ok a.
#[global] Instance result_bind : MBind result := λ A B f m,
  match m with
  | Ok a => f a
  | Fatal msg => Fatal msg
  end.

(** [for _, x := range l { body }] over a state that every iteration updates. *)
Fixpoint forM_ {A S : Type} (l : list A) (body : A → S → result S) (s : S) : result S :=
  match l with
  | [] => Ok s
  | x :: l' => s' ← body x s; forM_ l' body s'
  end.

(** ** Data model *)

(** A [*Object]: the index of the object in the heap. *)
Abbreviation ptr := nat (only parsing).
(** [type SID string]: the binary form of a security identifier. *)
Abbreviation SID := string (only parsing).
(** [uuid.UUID]: sixteen bytes, compared with [==]. *)
Abbreviation UUID := string (only parsing).

(** The attribute identifiers [main] names, and [A(name)] for the ones it
    interns on the spot. *)
Inductive Attribute : Set :=
  | Name | ObjectSid | ObjectClass | ObjectCategory | SAMAccountType
  | LastLogonTimestamp | PwdLastSet | OperatingSystem | UserAccountControl
  | TrustDirection | TrustAttributes | TrustPartner
  | MSmcsAdmPwdExpirationTime
  | MetaType | MetaLastLoginAge | MetaPasswordAge | MetaLinux | MetaWindows
  | MetaUnconstrainedDelegation | MetaConstrainedDelegation
  | MetaWorkstation | MetaServer | MetaAccountDisabled
  | MetaPasswordCantChange | MetaPasswordNoExpire | MetaPasswordNotRequired
  | A (name : string).

#[global] Instance Attribute_eq_dec : EqDecision Attribute.
Proof. solve_decision. Defined.

Definition Attribute_code (a : Attribute) : nat + string :=
  match a with
  | Name => inl 0 | ObjectSid => inl 1 | ObjectClass => inl 2
  | ObjectCategory => inl 3 | SAMAccountType => inl 4
  | LastLogonTimestamp => inl 5 | PwdLastSet => inl 6
  | OperatingSystem => inl 7 | UserAccountControl => inl 8
  | TrustDirection => inl 9 | TrustAttributes => inl 10
  | TrustPartner => inl 11 | MSmcsAdmPwdExpirationTime => inl 12
  | MetaType => inl 13 | MetaLastLoginAge => inl 14
  | MetaPasswordAge => inl 15 | MetaLinux => inl 16 | MetaWindows => inl 17
  | MetaUnconstrainedDelegation => inl 18
  | MetaConstrainedDelegation => inl 19
  | MetaWorkstation => inl 20 | MetaServer => inl 21
  | MetaAccountDisabled => inl 22 | MetaPasswordCantChange => inl 23
  | MetaPasswordNoExpire => inl 24 | MetaPasswordNotRequired => inl 25
  | A s => inr s
  end.

Definition Attribute_decode (c : nat + string) : Attribute :=
  match c with
  | inl 0 => Name | inl 1 => ObjectSid | inl 2 => ObjectClass
  | inl 3 => ObjectCategory | inl 4 => SAMAccountType
  | inl 5 => LastLogonTimestamp | inl 6 => PwdLastSet
  | inl 7 => OperatingSystem | inl 8 => UserAccountControl
  | inl 9 => TrustDirection | inl 10 => TrustAttributes
  | inl 11 => TrustPartner | inl 12 => MSmcsAdmPwdExpirationTime
  | inl 13 => MetaType | inl 14 => MetaLastLoginAge
  | inl 15 => MetaPasswordAge | inl 16 => MetaLinux | inl 17 => MetaWindows
  | inl 18 => MetaUnconstrainedDelegation
  | inl 19 => MetaConstrainedDelegation
  | inl 20 => MetaWorkstation | inl 21 => MetaServer
  | inl 22 => MetaAccountDisabled | inl 23 => MetaPasswordCantChange
  | inl 24 => MetaPasswordNoExpire | inl _ => MetaPasswordNotRequired
  | inr s => A s
  end.

#[global] Instance Attribute_countable : Countable Attribute.
Proof.
  refine (inj_countable' Attribute_code Attribute_decode _).
  intros []; reflexivity.
Defined.

(** The method tag of an edge.  [main] names only [PwnReadLAPSPassword]; the
    tags of the analyzers registered elsewhere are numbered. *)
Inductive PwnMethod : Set :=
  | PwnReadLAPSPassword
  | PwnMethodOther (n : nat).

#[global] Instance PwnMethod_eq_dec : EqDecision PwnMethod.
Proof. solve_decision. Defined.

(** [PwnInfo{Method, Target}]. *)
Record PwnInfo : Set := mkPwnInfo { Method : PwnMethod; Target : ptr }.

#[global] Instance PwnInfo_eq_dec : EqDecision PwnInfo.
Proof. solve_decision. Defined.

(** The classification [Type()] returns. *)
Inductive ObjectType : Set :=
  | ObjectTypeOther
  | ObjectTypeUser
  | ObjectTypeGroup
  | ObjectTypeComputer
  | ObjectTypeManagedServiceAccount
  | ObjectTypeTrust.

#[global] Instance ObjectType_eq_dec : EqDecision ObjectType.
Proof. solve_decision. Defined.

(** An [Object].  [members] is the reverse-membership list that
    [imamemberofyou] appends to. *)
Record Object : Type := mkObject {
  DistinguishedName : string;
  Attributes : gmap Attribute (list string);
  memberof : list ptr;
  members : list ptr;
  CanPwn : list PwnInfo;
  PwnableBy : list PwnInfo
}.

Definition set_Attributes (f : gmap Attribute (list string) → gmap Attribute (list string))
    (o : Object) : Object :=
  mkObject (DistinguishedName o) (f (Attributes o)) (memberof o) (members o)
           (CanPwn o) (PwnableBy o).
Definition set_memberof (f : list ptr → list ptr) (o : Object) : Object :=
  mkObject (DistinguishedName o) (Attributes o) (f (memberof o)) (members o)
           (CanPwn o) (PwnableBy o).
Definition set_members (f : list ptr → list ptr) (o : Object) : Object :=
  mkObject (DistinguishedName o) (Attributes o) (memberof o) (f (members o))
           (CanPwn o) (PwnableBy o).
Definition set_CanPwn (f : list PwnInfo → list PwnInfo) (o : Object) : Object :=
  mkObject (DistinguishedName o) (Attributes o) (memberof o) (members o)
           (f (CanPwn o)) (PwnableBy o).
Definition set_PwnableBy (f : list PwnInfo → list PwnInfo) (o : Object) : Object :=
  mkObject (DistinguishedName o) (Attributes o) (memberof o) (members o)
           (CanPwn o) (f (PwnableBy o)).

(** An object literal [&Object{DistinguishedName: dn, Attributes: attrs}]:
    every other field has its zero value. *)
Definition newObject (dn : string) (attrs : gmap Attribute (list string)) : Object :=
  mkObject dn attrs [] [] [] [].

(** One access-control entry of a decoded security descriptor, with the
    fields the LAPS analyzer reads. *)
Record ACE : Set := mkACE {
  ace_Type : Z;
  ace_Mask : Z;
  ace_SID : SID;
  ace_ObjectType : UUID
}.
Record ACL : Set := mkACL { Entries : list ACE }.
Record SecurityDescriptor : Set := mkSD { DACL : ACL }.

(** A raw directory record of the cache file. *)
Record RawObject : Type := mkRawObject {
  raw_DistinguishedName : string;
  raw_Attributes : gmap string (list string)
}.

(** The object store: its two indexes. *)
Record Objects : Type := mkObjects {
  dnmap : gmap string ptr;
  sidmap : gmap string ptr
}.

(** An analyzer function value.  The closure [main] builds for LAPS is its
    code together with the [objectGUID] it captures; the analyzers registered
    outside [main] are referred to by number. *)
Inductive AnalyzerFunc : Set :=
  | BuiltinAnalyzer (id : nat)
  | LAPSAnalyzer (objectGUID : UUID).

(** [PwnAnalyzer{Method, ObjectAnalyzer}]. *)
Record PwnAnalyzer : Set := mkPwnAnalyzer {
  AnalyzerMethod : PwnMethod;
  ObjectAnalyzer : AnalyzerFunc
}.

(** The heap and the package-level variables. *)
Record World : Type := mkWorld {
  heap : list Object;
  AllObjects : Objects;
  PwnAnalyzers : list PwnAnalyzer;
  AllRights : gmap string ptr;
  AllSchemaAttributes : gmap string ptr;
  AllSchemaClasses : gmap string ptr
}.

Definition set_heap (f : list Object → list Object) (w : World) : World :=
  mkWorld (f (heap w)) (AllObjects w) (PwnAnalyzers w) (AllRights w)
          (AllSchemaAttributes w) (AllSchemaClasses w).
Definition set_AllObjects (f : Objects → Objects) (w : World) : World :=
  mkWorld (heap w) (f (AllObjects w)) (PwnAnalyzers w) (AllRights w)
          (AllSchemaAttributes w) (AllSchemaClasses w).
Definition set_PwnAnalyzers (f : list PwnAnalyzer → list PwnAnalyzer) (w : World) : World :=
  mkWorld (heap w) (AllObjects w) (f (PwnAnalyzers w)) (AllRights w)
          (AllSchemaAttributes w) (AllSchemaClasses w).
Definition set_AllRights (f : gmap string ptr → gmap string ptr) (w : World) : World :=
  mkWorld (heap w) (AllObjects w) (PwnAnalyzers w) (f (AllRights w))
          (AllSchemaAttributes w) (AllSchemaClasses w).
Definition set_AllSchemaAttributes (f : gmap string ptr → gmap string ptr) (w : World) : World :=
  mkWorld (heap w) (AllObjects w) (PwnAnalyzers w) (AllRights w)
          (f (AllSchemaAttributes w)) (AllSchemaClasses w).
Definition set_AllSchemaClasses (f : gmap string ptr → gmap string ptr) (w : World) : World :=
  mkWorld (heap w) (AllObjects w) (PwnAnalyzers w) (AllRights w)
          (AllSchemaAttributes w) (f (AllSchemaClasses w)).

(** Dereferencing a pointer; a pointer outside the heap is nil. *)
Definition deref (w : World) (p : ptr) : result Object :=
  match heap w !! p with
  | Some o => Ok o
  | None => Fatal "nil pointer dereference"
  end.

(** An in-place update of the object behind a pointer. *)
Definition modify (p : ptr) (f : Object → Object) (w : World) : result World :=
  o ← deref w p;
  Ok (set_heap (λ h, <[p := f o]> h) w).

(** ** Declarations of the repository that [main.go] uses and does not contain

    Constants, tables and methods declared in the other files of the
    package.  Every definition below is generic in them. *)

Class Externals : Type := {
  (** The well-known principals the evaluation pass exempts. *)
  SelfSID : SID;
  CreatorOwnerSID : SID;
  SystemSID : SID;
  (** ACE type and access-mask constants. *)
  ACETYPE_ACCESS_ALLOWED_OBJECT : Z;
  RIGHT_DS_READ_PROPERTY : Z;
  (** [userAccountControl] flag constants. *)
  UAC_TRUSTED_FOR_DELEGATION : Z;
  UAC_TRUSTED_TO_AUTH_FOR_DELEGATION : Z;
  UAC_WORKSTATION_TRUST_ACCOUNT : Z;
  UAC_SERVER_TRUST_ACCOUNT : Z;
  UAC_ACCOUNTDISABLE : Z;
  UAC_PASSWD_CANT_CHANGE : Z;
  UAC_DONT_EXPIRE_PASSWORD : Z;
  UAC_PASSWD_NOTREQD : Z;
  (** The table of well-known SIDs, [sid] string to display name, in the
      order one [range] over it happens to visit its entries. *)
  knownsids : list (string * string);
  (** [SIDFromString]: the binary SID and whether [err != nil]. *)
  SIDFromString : string → SID * bool;
  (** [RawObject.ToObject(importall)]. *)
  ToObject : RawObject → bool → Object;
  (** The classification behind [Type()], a function of the values of
      [objectClass], [objectCategory] and [sAMAccountType]. *)
  classify : list string → list string → list string → ObjectType;
  (** [ObjectType.String()]. *)
  ObjectTypeString : ObjectType → string;
  (** [Object.SecurityDescriptor()]: the decoded descriptor, or the decode
      error. *)
  o_SecurityDescriptor : Object → SecurityDescriptor + string;
  (** [Object.MemberOf()], run for its effect on the heap. *)
  o_MemberOf : ptr → World → World;
  (** [Object.AttrTimestamp], [Object.AttrInt]: [None] when [ok] is false. *)
  o_AttrTimestamp : Object → Attribute → option Z;
  o_AttrInt : Object → Attribute → option Z;
  (** [Object.OneAttr], [Object.HasAttrValue]. *)
  o_OneAttr : Object → Attribute → string;
  o_HasAttrValue : Object → Attribute → string → bool;
  (** [int(time.Since(t)/time.Hour)] and [strconv.Itoa]. *)
  hoursSince : Z → Z;
  Itoa : Z → string;
  (** [strings.ToLower]. *)
  strings_ToLower : string → string;
  (** [uuid.FromString], [uuid.FromBytes]: the UUID and whether
      [err != nil]; [SwapUUIDEndianess]. *)
  uuid_FromString : string → UUID * bool;
  uuid_FromBytes : string → UUID * bool;
  SwapUUIDEndianess : UUID → UUID;
  (** The distinguished name [FindOrAddSID] gives the placeholder it
      creates for a SID. *)
  syntheticDN : SID → string;
  (** The analyzers registered outside [main], by number. *)
  builtin : nat → ptr → World → result (list ptr * World)
}.

(** [strings.Contains]. *)
Fixpoint strings_Contains (s sub : string) : bool :=
  String.prefix sub s ||
  match s with
  | EmptyString => false
  | String _ s' => strings_Contains s' sub
  end.

Section Program.
Context `{Externals}.

(** ** Object accessors *)

(** Modelled from the spec: [Object.Attr] is declared outside [main.go];
    "attribute(id) returns the sequence (empty if absent, never an error)". *)
Definition o_Attr (o : Object) (a : Attribute) : list string :=
  default [] (Attributes o !! a).

(** Modelled from the spec: [Object.SID] is declared outside [main.go]; the
    identifier is "derived ... from the objectSid attribute; may be absent".
    An absent SID is the zero value of [SID], the empty string. *)
Definition o_SID (o : Object) : SID :=
  match o_Attr o ObjectSid with
  | s :: _ => s
  | [] => ""
  end.

(** Modelled from the spec: [Object.Type] is declared outside [main.go];
    the classification is "computed from objectClass / objectCategory /
    sAMAccountType attributes, pure function, not stored". *)
Definition o_Type (o : Object) : ObjectType :=
  classify (o_Attr o ObjectClass) (o_Attr o ObjectCategory) (o_Attr o SAMAccountType).

(** Modelled from the spec: [Object.SetAttr] is declared outside [main.go];
    "setAttribute(id, values) replaces the value sequence". *)
Definition o_SetAttr (p : ptr) (a : Attribute) (v : string) : World → result World :=
  modify p (set_Attributes (λ m, <[a := [v]]> m)).

(** Modelled from the spec: [Object.imamemberofyou] is declared outside
    [main.go]; it "registers the reverse edge" on a group, which "learns it
    has this object as a ... member". *)
Definition o_imamemberofyou (group member : ptr) : World → result World :=
  modify group (set_members (λ l, l ++ [member])).

(** ** The object store *)

(** Modelled from the spec: [Objects.FindSID] is declared outside [main.go];
    "findBySID", a lookup in the index by SID whose miss is "an explicit
    absent result". *)
Definition FindSID (w : World) (s : SID) : option ptr :=
  sidmap (AllObjects w) !! s.

(** Modelled from the spec: [Objects.Add] is declared outside [main.go];
    "add(object) (fails if distinguishedName already present)", a failure
    that is "fatal to the load operation".  The object is indexed by its
    distinguished name and, when it has one, by its SID. *)
Definition Add (o : Object) (w : World) : result (ptr * World) :=
  match dnmap (AllObjects w) !! DistinguishedName o with
  | Some _ => Fatal "duplicate distinguished name"
  | None =>
      let p := length (heap w) in
      Ok (p, set_AllObjects (λ os,
                mkObjects (<[DistinguishedName o := p]> (dnmap os))
                          (if decide (o_SID o = "") then sidmap os
                           else <[o_SID o := p]> (sidmap os)))
               (set_heap (λ h, h ++ [o]) w))
  end.

(** Modelled from the spec: [Objects.FindOrAddSID] is declared outside
    [main.go]; "findOrAddBySID(sid) (creates a minimal placeholder object
    ... and registers it)". *)
Definition FindOrAddSID (s : SID) (w : World) : ptr * World :=
  match FindSID w s with
  | Some p => (p, w)
  | None =>
      let p := length (heap w) in
      (p, set_AllObjects (λ os,
             mkObjects (<[syntheticDN s := p]> (dnmap os)) (<[s := p]> (sidmap os)))
            (set_heap (λ h, h ++ [newObject (syntheticDN s) {[ObjectSid := [s]]}]) w))
  end.

(** Modelled from the spec: [Objects.AsArray] is declared outside [main.go];
    "all() (stable, order-irrelevant enumeration)" of the stored objects. *)
Definition AsArray (w : World) : list ptr :=
  (map_to_list (dnmap (AllObjects w))).*2.

(** ** Loading the cache files (main.go, lines 295-335) *)

(** The causes [msgp.Cause] can report. *)
Inductive IoError : Set :=
  | io_EOF
  | io_ErrUnexpectedEOF
  | io_ErrOther (msg : string).

#[global] Instance IoError_eq_dec : EqDecision IoError.
Proof. solve_decision. Defined.

(** A decode error: an I/O error, possibly wrapped with the context of the
    field it occurred in. *)
Inductive MsgpError : Set :=
  | PlainError (e : IoError)
  | WrappedError (ctx : string) (inner : MsgpError).

(** [msgp.Cause]: the error under the wrapping. *)
Fixpoint Cause (e : MsgpError) : IoError :=
  match e with
  | PlainError c => c
  | WrappedError _ inner => Cause inner
  end.

(** A reader over one cache file, as the outcomes of the successive calls of
    [DecodeMsg] on it; once they are used up the stream is at its end. *)
Definition Reader : Type := list (RawObject + MsgpError).

(** [rawObject.DecodeMsg(d)]. *)
Definition DecodeMsg (d : Reader) : (RawObject + MsgpError) * Reader :=
  match d with
  | [] => (inr (PlainError io_EOF), [])
  | r :: d' => (r, d')
  end.

(** The loop [for { ... }] over one reader.  It recurses on the reader, which
    every successful [DecodeMsg] shortens. *)
Fixpoint LoadObjects (importall : bool) (d : Reader) (w : World) : result World :=
  match d with
  | [] =>
      (* DecodeMsg reports io.EOF: break *)
      Ok w
  | inl rawObject :: d' =>
      '(_, w') ← Add (ToObject rawObject importall) w;
      LoadObjects importall d' w'
  | inr err :: _ =>
      if decide (Cause err = io_EOF) then Ok w
      else Fatal "Problem decoding object"
  end.

(** The loop over the domains named on the command line, one reader for the
    cache file of each. *)
Definition LoadDomains (importall : bool) (files : list Reader) : World → result World :=
  forM_ files (LoadObjects importall).

(** ** Adding the known SIDs (main.go, lines 339-356) *)

Definition knownObject (name : string) (binsid : SID) : Object :=
  newObject ("CN=" +:+ name +:+ ",DN=microsoft-builtin")
    (<[Name := [name]]>
       (<[ObjectSid := [binsid]]>
          (<[ObjectClass := ["person"; "user"; "top"]]>
             (<[ObjectCategory := ["Group"]]> ∅)))).

(** The body of the loop, for the entry [(sid, name)]. *)
Definition addKnownSID (entry : string * string) (w : World) : result World :=
  let '(sid, name) := entry in
  let '(binsid, err) := SIDFromString sid in
  if err then Fatal "Problem parsing SID"
  else match FindSID w binsid with
       | Some _ => Ok w
       | None => '(_, w') ← Add (knownObject name binsid) w; Ok w'
       end.

Definition AddKnownSIDs : World → result World :=
  forM_ knownsids addKnownSID.

(** ** The LAPS analyzer (main.go, lines 470-491) *)

(** The condition on one DACL entry. *)
Definition laps_entry_matches (objectGUID : UUID) (acl : ACE) : bool :=
  bool_decide (ace_Type acl = ACETYPE_ACCESS_ALLOWED_OBJECT)
  && negb (Z.land (ace_Mask acl) RIGHT_DS_READ_PROPERTY =? 0)%Z
  && bool_decide (ace_ObjectType acl = objectGUID).

(** [for _, acl := range sd.DACL.Entries], with [results] and the store. *)
Fixpoint laps_scan (objectGUID : UUID) (entries : list ACE)
    (results : list ptr) (w : World) : list ptr * World :=
  match entries with
  | [] => (results, w)
  | acl :: rest =>
      if laps_entry_matches objectGUID acl then
        let '(p, w') := FindOrAddSID (ace_SID acl) w in
        laps_scan objectGUID rest (results ++ [p]) w'
      else laps_scan objectGUID rest results w
  end.

Definition LAPS_ObjectAnalyzer (objectGUID : UUID) (o : ptr) (w : World)
    : result (list ptr * World) :=
  obj ← deref w o;
  if negb (bool_decide (o_Type obj = ObjectTypeComputer)) then Ok ([], w)
  else if bool_decide (length (o_Attr obj MSmcsAdmPwdExpirationTime) = 0) then Ok ([], w)
  else match o_SecurityDescriptor obj with
       | inr err => Ok ([], w)
       | inl sd => Ok (laps_scan objectGUID (Entries (DACL sd)) [] w)
       end.

(** Calling [analyzer.ObjectAnalyzer(object)]. *)
Definition callAnalyzer (f : AnalyzerFunc) (object : ptr) (w : World)
    : result (list ptr * World) :=
  match f with
  | BuiltinAnalyzer id => builtin id object w
  | LAPSAnalyzer objectGUID => LAPS_ObjectAnalyzer objectGUID object w
  end.

(** ** The pre-processing pass (main.go, lines 370-503) *)

Definition when_ (b : bool) (f : World → result World) (w : World) : result World :=
  if b then f w else Ok w.

(** Run a step that reads the current value of [*p]. *)
Definition reading (p : ptr) (f : Object → World → result World) (w : World) : result World :=
  o ← deref w p; f o w.

(** [if uac&flag != 0 { object.SetAttr(attr, "1") }]. *)
Definition uacFlag (object : ptr) (uac flag : Z) (attr : Attribute) : World → result World :=
  when_ (negb (Z.land uac flag =? 0)%Z) (o_SetAttr object attr "1").

Definition isPrincipalType (t : ObjectType) : bool :=
  bool_decide (t = ObjectTypeUser) || bool_decide (t = ObjectTypeComputer)
  || bool_decide (t = ObjectTypeManagedServiceAccount).

(** Lines 380-385. *)
Definition specialGroups (everyone authenticatedusers object : ptr) : World → result World :=
  reading object (λ o,
    when_ (isPrincipalType (o_Type o)) (λ w,
      w ← o_imamemberofyou everyone object w;
      w ← o_imamemberofyou authenticatedusers object w;
      modify object (set_memberof (λ l, l ++ [everyone; authenticatedusers])) w)).

(** Lines 387-428: the derived attributes. *)
Definition metaAttributes (object : ptr) : list (World → result World) :=
  [ reading object (λ o, o_SetAttr object MetaType (ObjectTypeString (o_Type o)));
    reading object (λ o,
      match o_AttrTimestamp o LastLogonTimestamp with
      | Some lastlogon => o_SetAttr object MetaLastLoginAge (Itoa (hoursSince lastlogon))
      | None => Ok
      end);
    reading object (λ o,
      match o_AttrTimestamp o PwdLastSet with
      | Some passwordlastset =>
          o_SetAttr object MetaPasswordAge (Itoa (hoursSince passwordlastset))
      | None => Ok
      end);
    reading object (λ o,
      when_ (strings_Contains (strings_ToLower (o_OneAttr o OperatingSystem)) "linux")
            (o_SetAttr object MetaLinux "1"));
    reading object (λ o,
      when_ (strings_Contains (strings_ToLower (o_OneAttr o OperatingSystem)) "windows")
            (o_SetAttr object MetaWindows "1"));
    reading object (λ o,
      match o_AttrInt o UserAccountControl with
      | Some uac =>
          forM_ [ (UAC_TRUSTED_FOR_DELEGATION, MetaUnconstrainedDelegation);
                  (UAC_TRUSTED_TO_AUTH_FOR_DELEGATION, MetaConstrainedDelegation);
                  (UAC_WORKSTATION_TRUST_ACCOUNT, MetaWorkstation);
                  (UAC_SERVER_TRUST_ACCOUNT, MetaServer);
                  (UAC_ACCOUNTDISABLE, MetaAccountDisabled);
                  (UAC_PASSWD_CANT_CHANGE, MetaPasswordCantChange);
                  (UAC_DONT_EXPIRE_PASSWORD, MetaPasswordNoExpire);
                  (UAC_PASSWD_NOTREQD, MetaPasswordNotRequired) ]
                (λ '(flag, attr), uacFlag object uac flag attr)
      | None => Ok
      end) ].

(** Lines 466-493: the analyzer registered for the LAPS schema attribute. *)
Definition registerLAPS (objectGUID : UUID) (w : World) : World :=
  set_PwnAnalyzers
    (λ l, l ++ [mkPwnAnalyzer PwnReadLAPSPassword (LAPSAnalyzer objectGUID)]) w.

(** Lines 452-502: rights, schema attributes and schema classes. *)
Definition specialObjects (object : ptr) : World → result World :=
  reading object (λ o w,
    if o_HasAttrValue o ObjectClass "controlAccessRight" then
      let '(u, err) := uuid_FromString (o_OneAttr o (A "rightsGuid")) in
      if err then Ok w else Ok (set_AllRights (λ m, <[u := object]> m) w)
    else if o_HasAttrValue o ObjectClass "attributeSchema" then
      let '(objectGUID, err) := uuid_FromBytes (o_OneAttr o (A "schemaIDGUID")) in
      let objectGUID := SwapUUIDEndianess objectGUID in
      if err then Ok w
      else
        let w := set_AllSchemaAttributes (λ m, <[objectGUID := object]> m) w in
        if decide (o_OneAttr o Name = "ms-Mcs-AdmPwd") then Ok (registerLAPS objectGUID w)
        else Ok w
    else if o_HasAttrValue o ObjectClass "classSchema" then
      let '(u, err) := uuid_FromBytes (o_OneAttr o (A "schemaIDGUID")) in
      let u := SwapUUIDEndianess u in
      if err then Ok w else Ok (set_AllSchemaClasses (λ m, <[u := object]> m) w)
    else Ok w).

(** The body of the loop over the objects.  The trust branch (lines 430-450)
    only writes to the log. *)
Definition preprocessObject (everyone authenticatedusers object : ptr) (w : World)
    : result World :=
  forM_ ([ (λ w, Ok (o_MemberOf object w));
           specialGroups everyone authenticatedusers object ]
         ++ metaAttributes object
         ++ [ specialObjects object ])
        (λ step, step) w.

(** Lines 370-503.  The error of the two [SIDFromString] calls is dropped. *)
Definition Preprocess (w : World) : result World :=
  let everyonesid := (SIDFromString "S-1-1-0").1 in
  let authenticateduserssid := (SIDFromString "S-1-5-11").1 in
  let '(everyone, w) := FindOrAddSID everyonesid w in
  let '(authenticatedusers, w) := FindOrAddSID authenticateduserssid w in
  forM_ (AsArray w) (preprocessObject everyone authenticatedusers) w.

(** ** The analyzer evaluation pass (main.go, lines 517-538) *)

(** The SIDs of lines 528-531. *)
Definition exemptSID (s : SID) : bool :=
  bool_decide (s = SelfSID) || bool_decide (s = CreatorOwnerSID)
  || bool_decide (s = SystemSID).

(** The body of the innermost loop, for one [pwnobject] that the analyzer of
    method [m] returned for [object]. *)
Definition recordPwn (m : PwnMethod) (object pwnobject : ptr) (w : World) : result World :=
  o ← deref w object;
  if bool_decide (pwnobject = object) then Ok w
  else
    po ← deref w pwnobject;
    if bool_decide (o_SID po = o_SID o) then Ok w
    else if exemptSID (o_SID po) then Ok w
    else
      w ← modify pwnobject (set_CanPwn (λ l, l ++ [mkPwnInfo m object])) w;
      modify object (set_PwnableBy (λ l, l ++ [mkPwnInfo m pwnobject])) w.

(** [for _, pwnobject := range analyzer.ObjectAnalyzer(object)]. *)
Definition runAnalyzer (object : ptr) (analyzer : PwnAnalyzer) (w : World) : result World :=
  '(pwnobjects, w') ← callAnalyzer (ObjectAnalyzer analyzer) object w;
  forM_ pwnobjects (recordPwn (AnalyzerMethod analyzer) object) w'.

(** [for _, analyzer := range PwnAnalyzers]. *)
Definition analyzeObject (object : ptr) (w : World) : result World :=
  forM_ (PwnAnalyzers w) (runAnalyzer object) w.

(** The pass over a given enumeration of the objects. *)
Definition analyzeObjects (objects : list ptr) : World → result World :=
  forM_ objects analyzeObject.

(** [for _, object := range AllObjects.AsArray()]. *)
Definition Analyze (w : World) : result World :=
  analyzeObjects (AsArray w) w.

End Program.

(** ** Vocabulary of the properties *)

Section Vocabulary.
Context `{Externals}.

(** [s.CanPwn] holds the entry [(m, t)]. *)
Definition canPwn_edge (h : list Object) (s : ptr) (m : PwnMethod) (t : ptr) : Prop :=
  ∃ o, h !! s = Some o ∧ mkPwnInfo m t ∈ CanPwn o.

(** [t.PwnableBy] holds the entry [(m, s)]. *)
Definition pwnableBy_edge (h : list Object) (t : ptr) (m : PwnMethod) (s : ptr) : Prop :=
  ∃ o, h !! t = Some o ∧ mkPwnInfo m s ∈ PwnableBy o.

Definition sid_at (h : list Object) (p : ptr) : option SID := o_SID <$> h !! p.

(** No object of the list carries an edge. *)
Definition no_edges (h : list Object) : Prop :=
  Forall (λ o, CanPwn o = [] ∧ PwnableBy o = []) h.

(** [w'] has the objects of [w], unchanged, and new objects without edges. *)
Definition extends (w w' : World) : Prop :=
  ∃ new, heap w' = heap w ++ new ∧ no_edges new.

(** The analyzers registered outside [main] read the store and at most add
    placeholder objects to it, as [FindOrAddSID] does. *)
Definition analyzers_extend : Prop :=
  ∀ id p w res w', builtin id p w = Ok (res, w') → extends w w'.

(** The heap after lines 533-534 have appended the edge of method [m] from
    [pwnobject], which was [po], to [object], which was [o]. *)
Definition addedEdge (m : PwnMethod) (object pwnobject : ptr) (o po : Object)
    (h : list Object) : list Object :=
  <[object := set_PwnableBy (λ l, l ++ [mkPwnInfo m pwnobject]) o]>
    (<[pwnobject := set_CanPwn (λ l, l ++ [mkPwnInfo m object]) po]> h).

(** The counterpart [pwnobject] of [object] passes the two tests of lines
    523-531: it is another object, with another SID, and its SID is not one
    of the exempted ones. *)
Definition not_skipped (h : list Object) (object pwnobject : ptr) : Prop :=
  pwnobject ≠ object
  ∧ ∃ a b, sid_at h object = Some a ∧ sid_at h pwnobject = Some b
           ∧ b ≠ a ∧ exemptSID b = false.

(** The edge lists mirror each other, and the holder of a [CanPwn] entry has
    a SID other than its target's and other than the exempted ones. *)
Record edges_ok (h : list Object) : Prop := mk_edges_ok {
  edges_sym : ∀ s m t, canPwn_edge h s m t ↔ pwnableBy_edge h t m s;
  edges_sids : ∀ s m t, canPwn_edge h s m t →
    ∃ a b, sid_at h s = Some a ∧ sid_at h t = Some b ∧ a ≠ b ∧ exemptSID a = false
}.

(** The indexes of the store point into the heap. *)
Definition store_wf (w : World) : Prop :=
  map_Forall (λ _ p, p < length (heap w)) (dnmap (AllObjects w))
  ∧ map_Forall (λ _ p, p < length (heap w)) (sidmap (AllObjects w)).

(** On an object of the heap, the analyzers registered outside [main]
    return, and what they return are objects of the heap. *)
Definition analyzers_return : Prop :=
  ∀ id p w, store_wf w → p < length (heap w) →
    ∃ res w', builtin id p w = Ok (res, w') ∧ store_wf w'
              ∧ Forall (λ q, q < length (heap w')) res.

(** Membership lists only grow from [w] to [w'], and no object changes type. *)
Definition membership_grows (w w' : World) : Prop :=
  ∀ p o, heap w !! p = Some o →
    ∃ o', heap w' !! p = Some o' ∧ o_Type o' = o_Type o
          ∧ memberof o ⊆ memberof o' ∧ members o ⊆ members o'.

(** [object] is a member of [group] on both sides: the group is in the
    object's [memberof], the object in the group's [members]. *)
Definition member_of (h : list Object) (object group : ptr) : Prop :=
  (∃ o, h !! object = Some o ∧ group ∈ memberof o)
  ∧ (∃ g, h !! group = Some g ∧ object ∈ members g).

(** A step of the loop body that completes on a heap holding [object], and
    under which memberships only grow. *)
Definition good (object : ptr) (f : World → result World) : Prop :=
  ∀ s, object < length (heap s) → ∃ s', f s = Ok s' ∧ membership_grows s s'.

(** What the pre-processing pass relies on from [Object.MemberOf]. *)
Definition MemberOf_grows : Prop :=
  ∀ p w, membership_grows w (o_MemberOf p w).

(** An ACE that is of the allow-object type, carries the read-property right
    and names the GUID [g]. *)
Definition grants_read (g : UUID) (acl : ACE) : Prop :=
  ace_Type acl = ACETYPE_ACCESS_ALLOWED_OBJECT
  ∧ Z.land (ace_Mask acl) RIGHT_DS_READ_PROPERTY ≠ 0%Z
  ∧ ace_ObjectType acl = g.

(** Every entry of the table of known SIDs parses, to a SID that is not
    the zero value. *)
Definition knownsids_parse : Prop :=
  ∀ sid name, (sid, name) ∈ knownsids →
    ∃ binsid, SIDFromString sid = (binsid, false) ∧ binsid ≠ "".

(** The distinguished names of a list of objects are pairwise distinct and
    not yet in the store. *)
Definition fresh_names (os : list Object) (w : World) : Prop :=
  NoDup (DistinguishedName <$> os)
  ∧ Forall (λ o, dnmap (AllObjects w) !! DistinguishedName o = None) os.

(** The distinguished names the known-SID step gives the entries of [l]
    are pairwise distinct, and every entry has its SID in the store or its
    name free. *)
Definition names_free (l : list (string * string)) (w : World) : Prop :=
  NoDup ((λ e : string * string,
            DistinguishedName (knownObject e.2 (SIDFromString e.1).1)) <$> l)
  ∧ Forall (λ e : string * string,
              is_Some (FindSID w (SIDFromString e.1).1)
              ∨ dnmap (AllObjects w)
                  !! DistinguishedName (knownObject e.2 (SIDFromString e.1).1) = None) l.

(** From [w] to [w'] the heap gained only objects of the known-SID step,
    each for an entry of [l] whose SID did not resolve in [w]. *)
Definition adds_known (l : list (string * string)) (w w' : World) : Prop :=
  ∃ new, heap w' = heap w ++ new
    ∧ Forall (λ o, ∃ e, e ∈ l ∧ o = knownObject e.2 (SIDFromString e.1).1
                        ∧ FindSID w (SIDFromString e.1).1 = None) new.

(** How a stream ends once its complete records are read: the reader is
    used up, or the next decode fails with an error whose cause is [io.EOF],
    whatever follows. *)
Definition ends_in_EOF (tail : Reader) : Prop :=
  tail = [] ∨ ∃ err rest, tail = inr err :: rest ∧ Cause err = io_EOF.

(** The claim of the specification on the direction of an edge: the
    counterpart [target] is recorded in [object.canPwn] and [object] in
    [target.pwnableBy]. *)
Definition spec_direction (h : list Object) (m : PwnMethod) (object target : ptr) : Prop :=
  canPwn_edge h object m target ∧ pwnableBy_edge h target m object.

(** The claim of the specification on exempted principals: no entry names a
    controlled principal whose SID is exempted. *)
Definition controlled_never_exempt (h : list Object) : Prop :=
  ∀ s m t a, canPwn_edge h s m t ∨ pwnableBy_edge h t m s →
    sid_at h t = Some a → exemptSID a = false.

(** A last record cut short: the decoder runs out of bytes in it, between
    two of its parts ([io.EOF]) or inside one ([io.ErrUnexpectedEOF]); the
    error may be wrapped with the context of the field. *)
Definition cut_short (err : MsgpError) : Prop :=
  Cause err = io_EOF ∨ Cause err = io_ErrUnexpectedEOF.

(** The claim of the specification on a last record cut short: after the
    complete [records] the load ends normally on it. *)
Definition truncation_ends_the_load (importall : bool) (records : list RawObject)
    (err : MsgpError) (w : World) : Prop :=
  cut_short err →
  ∃ w', LoadObjects importall ((inl <$> records) ++ [inr err]) w = Ok w'.

End Vocabulary.

(** ** The security descriptor decoder (spec 4.2) *)

(** The failures of the decoder. *)
Inductive DecodeError : Set :=
  | MalformedHeader
  | UnsupportedRevision
  | TruncatedACE
  | MalformedSID.

Definition DecodeError_text (e : DecodeError) : string :=
  match e with
  | MalformedHeader => "malformed header"
  | UnsupportedRevision => "unsupported revision"
  | TruncatedACE => "truncated ACE"
  | MalformedSID => "malformed SID"
  end.

(** What the decoder returns: the owner and group SIDs and the two lists,
    each of which may be absent. *)
Record Descriptor : Set := mkDescriptor {
  sd_Owner : SID;
  sd_Group : SID;
  sd_SACL : option ACL;
  sd_DACL : option ACL
}.

Definition andThen {X Y : Type} (m : X + DecodeError) (f : X → Y + DecodeError)
    : Y + DecodeError :=
  match m with
  | inl x => f x
  | inr e => inr e
  end.

Section Decoder.
Local Open Scope N_scope.

(** The bytes of a blob. *)
Definition bytes_of (s : string) : list N :=
  Ascii.N_of_ascii <$> String.list_ascii_of_string s.

Definition size_of (data : list N) : N := N.of_nat (length data).

(** The part of a blob from [off], [len] bytes long. *)
Definition slice (s : string) (off len : N) : string :=
  String.substring (N.to_nat off) (N.to_nat len) s.

(** Little-endian integers at an index of the blob, 0 beyond its end; the
    decoder checks the bounds before it uses what it reads. *)
Definition u8 (data : list N) (i : N) : N :=
  if i <? size_of data then nth (N.to_nat i) data 0 else 0.
Definition u16 (data : list N) (i : N) : N := u8 data i + 256 * u8 data (i + 1).
Definition u32 (data : list N) (i : N) : N := u16 data i + 65536 * u16 data (i + 2).

(** The nil GUID, sixteen zero bytes. *)
Definition NilUUID : UUID :=
  String.string_of_list_ascii (replicate 16 Ascii.zero).

(** Modelled from the spec: the SID reader of the Security Descriptor
    Decoder, which is not in [main.go].  A SID at [off] is its revision, the
    number of its sub-authorities, six bytes of authority and four bytes per
    sub-authority; it must end by [limit].  The SID is kept in its binary
    form. *)
Definition parseSID (s : string) (data : list N) (off limit : N) : SID + DecodeError :=
  if limit <? off + 8 then inr MalformedSID
  else if negb (u8 data off =? 1) then inr MalformedSID
  else
    let len := 8 + 4 * u8 data (off + 1) in
    if limit <? off + len then inr MalformedSID
    else inl (slice s off len).

(** The entry types that are object-specific: allow, deny, audit and alarm
    for an object. *)
Definition isObjectACE (type : N) : bool :=
  (type =? 5) || (type =? 6) || (type =? 7) || (type =? 8).

(** Modelled from the spec: the entry reader of the Security Descriptor
    Decoder, which is not in [main.go].  An entry from [pos] to [end_] is a
    header of four bytes (type, flags, size), the rights mask and the SID of
    the principal; an object-specific entry has, between the mask and the
    SID, a flag word and the GUIDs the flags announce, of which the
    object-type GUID is kept as stored. *)
Definition parseACE (s : string) (data : list N) (pos end_ : N) : ACE + DecodeError :=
  let type := u8 data pos in
  if end_ <? pos + 8 then inr TruncatedACE
  else
    let mask := u32 data (pos + 4) in
    if isObjectACE type then
      if end_ <? pos + 12 then inr TruncatedACE
      else
        let flags := u32 data (pos + 8) in
        let hasObjectType := N.testbit flags 0 in
        let hasInherited := N.testbit flags 1 in
        let p1 := pos + 12 in
        let p2 := if hasObjectType then p1 + 16 else p1 in
        let p3 := if hasInherited then p2 + 16 else p2 in
        if end_ <? p3 then inr TruncatedACE
        else
          andThen (parseSID s data p3 end_) (λ sid,
            inl (mkACE (Z.of_N type) (Z.of_N mask) sid
                       (if hasObjectType then slice s p1 16 else NilUUID)))
    else
      andThen (parseSID s data (pos + 8) end_) (λ sid,
        inl (mkACE (Z.of_N type) (Z.of_N mask) sid NilUUID)).

(** Modelled from the spec: the length-prefixed entry list of the Security
    Descriptor Decoder, which is not in [main.go]: [count] entries from
    [pos], each as long as its header says, none beyond [end_]. *)
Fixpoint parseACEs (s : string) (data : list N) (count : nat) (pos end_ : N)
    : list ACE + DecodeError :=
  match count with
  | O => inl []
  | S count' =>
      if end_ <? pos + 4 then inr TruncatedACE
      else
        let size := u16 data (pos + 2) in
        if (size <? 4) || (end_ <? pos + size) then inr TruncatedACE
        else
          andThen (parseACE s data pos (pos + size)) (λ ace,
            andThen (parseACEs s data count' (pos + size) end_) (λ rest,
              inl (ace :: rest)))
  end.

(** Modelled from the spec: the access-control list reader of the Security
    Descriptor Decoder, which is not in [main.go].  A list at [off] is a
    header of eight bytes with its size and the number of its entries, and
    the entries. *)
Definition parseACL (s : string) (data : list N) (off : N) : ACL + DecodeError :=
  if size_of data <? off + 8 then inr MalformedHeader
  else
    let size := u16 data (off + 2) in
    let count := u16 data (off + 4) in
    if (size <? 8) || (size_of data <? off + size) then inr MalformedHeader
    else andThen (parseACEs s data (N.to_nat count) (off + 8) (off + size)) (λ aces,
           inl (mkACL aces)).

(** The fields of the header of twenty bytes. *)
Definition hdr_Revision (data : list N) : N := u8 data 0.
Definition hdr_Control (data : list N) : N := u16 data 2.
Definition hdr_Owner (data : list N) : N := u32 data 4.
Definition hdr_Group (data : list N) : N := u32 data 8.
Definition hdr_Sacl (data : list N) : N := u32 data 12.
Definition hdr_Dacl (data : list N) : N := u32 data 16.

(** The presence flags of the control word, and where the list is then. *)
Definition saclAt (data : list N) : option N :=
  if N.testbit (hdr_Control data) 4 && negb (hdr_Sacl data =? 0)
  then Some (hdr_Sacl data) else None.
Definition daclAt (data : list N) : option N :=
  if N.testbit (hdr_Control data) 2 && negb (hdr_Dacl data =? 0)
  then Some (hdr_Dacl data) else None.

Definition parseSIDAt (s : string) (data : list N) (off : N) : SID + DecodeError :=
  if off =? 0 then inl "" else parseSID s data off (size_of data).

Definition parseACLAt (s : string) (data : list N) (at_ : option N)
    : option ACL + DecodeError :=
  match at_ with
  | Some off => andThen (parseACL s data off) (λ acl, inl (Some acl))
  | None => inl None
  end.

(** Modelled from the spec: the Security Descriptor Decoder (spec 4.2),
    which is not in [main.go].  Input: the raw binary blob; output: the
    descriptor or a decode error (malformed header, truncated ACE,
    unsupported revision).  The layout is the directory's self-relative
    one: revision, control word and the offsets of owner, group, SACL and
    DACL, all integers little-endian; the two lists are present or absent
    independently, by their flags. *)
Definition ParseSecurityDescriptor (s : string) : Descriptor + DecodeError :=
  let data := bytes_of s in
  if size_of data <? 20 then inr MalformedHeader
  else if negb (hdr_Revision data =? 1) then inr UnsupportedRevision
  else
    andThen (parseSIDAt s data (hdr_Owner data)) (λ owner,
    andThen (parseSIDAt s data (hdr_Group data)) (λ group,
    andThen (parseACLAt s data (saclAt data)) (λ sacl,
    andThen (parseACLAt s data (daclAt data)) (λ dacl,
      inl (mkDescriptor owner group sacl dacl))))).

(** Modelled from the spec: [Object.SecurityDescriptor] on an object whose
    descriptor attribute holds [s], as [LAPS_ObjectAnalyzer] takes it: the
    decoded descriptor with its DACL, empty when absent, or the error. *)
Definition SecurityDescriptor_of (s : string) : SecurityDescriptor + string :=
  match ParseSecurityDescriptor s with
  | inl d => inl (mkSD (default (mkACL []) (sd_DACL d)))
  | inr e => inr (DecodeError_text e)
  end.

(** Where the structures of the descriptor end. *)
Definition sidEnd (data : list N) (off : N) : N :=
  if off =? 0 then 0 else off + 8 + 4 * u8 data (off + 1).
Definition aclEnd (data : list N) (at_ : option N) : N :=
  match at_ with
  | Some off => off + u16 data (off + 2)
  | None => 0
  end.
Definition extent (s : string) : N :=
  let data := bytes_of s in
  N.max 20 (N.max (sidEnd data (hdr_Owner data)) (N.max (sidEnd data (hdr_Group data))
    (N.max (aclEnd data (saclAt data)) (aclEnd data (daclAt data))))).


End Decoder.


(** ** A small directory to run the passes on *)

Module Demo.

Definition guidLAPS : UUID := "0123456789abcdef".

Definition rawAttribute (raw : RawObject) (k : string) (a : Attribute)
    (m : gmap Attribute (list string)) : gmap Attribute (list string) :=
  match raw_Attributes raw !! k with
  | Some v => <[a := v]> m
  | None => m
  end.

Definition toObject (raw : RawObject) (importall : bool) : Object :=
  newObject (raw_DistinguishedName raw)
    (rawAttribute raw "name" Name
       (rawAttribute raw "objectSid" ObjectSid
          (rawAttribute raw "objectClass" ObjectClass
             (rawAttribute raw "objectCategory" ObjectCategory
                (rawAttribute raw "ms-Mcs-AdmPwdExpirationTime" MSmcsAdmPwdExpirationTime
                   (rawAttribute raw "nTSecurityDescriptor" (A "nTSecurityDescriptor") ∅)))))).

Definition classifyByCategory (cls cat sam : list string) : ObjectType :=
  if bool_decide ("Computer" ∈ cat) then ObjectTypeComputer
  else if bool_decide ("Person" ∈ cat) then ObjectTypeUser
  else if bool_decide ("Group" ∈ cat) then ObjectTypeGroup
  else ObjectTypeOther.

Definition typeString (t : ObjectType) : string :=
  match t with
  | ObjectTypeOther => "Other"
  | ObjectTypeUser => "User"
  | ObjectTypeGroup => "Group"
  | ObjectTypeComputer => "Computer"
  | ObjectTypeManagedServiceAccount => "ManagedServiceAccount"
  | ObjectTypeTrust => "Trust"
  end.

(** A stand-in decoder: the descriptor attribute lists the SIDs that may
    read the LAPS password; a blob that starts with an empty value does not
    decode. *)
Definition decodeDescriptor (o : Object) : SecurityDescriptor + string :=
  match Attributes o !! A "nTSecurityDescriptor" with
  | None => inr "no security descriptor"
  | Some ("" :: _) => inr "truncated security descriptor"
  | Some sids => inl (mkSD (mkACL ((λ s, mkACE 5 16 s guidLAPS) <$> sids)))
  end.

Definition oneAttr (o : Object) (a : Attribute) : string :=
  match Attributes o !! a with
  | Some (v :: _) => v
  | _ => ""
  end.

Definition hasAttrValue (o : Object) (a : Attribute) (v : string) : bool :=
  bool_decide (v ∈ default [] (Attributes o !! a)).

(** One analyzer outside [main]: number 0 reports, for object 0, that
    object 1 controls it. *)
Definition analyzers (id : nat) (p : ptr) (w : World) : result (list ptr * World) :=
  match id, p with
  | 0, 0 => Ok ([1], w)
  | _, _ => Ok ([], w)
  end.

#[global] Instance externals : Externals := {|
  SelfSID := "S-1-5-10";
  CreatorOwnerSID := "S-1-3-0";
  SystemSID := "S-1-5-18";
  ACETYPE_ACCESS_ALLOWED_OBJECT := 5;
  RIGHT_DS_READ_PROPERTY := 16;
  UAC_TRUSTED_FOR_DELEGATION := 524288;
  UAC_TRUSTED_TO_AUTH_FOR_DELEGATION := 16777216;
  UAC_WORKSTATION_TRUST_ACCOUNT := 4096;
  UAC_SERVER_TRUST_ACCOUNT := 8192;
  UAC_ACCOUNTDISABLE := 2;
  UAC_PASSWD_CANT_CHANGE := 64;
  UAC_DONT_EXPIRE_PASSWORD := 65536;
  UAC_PASSWD_NOTREQD := 32;
  knownsids := [("S-1-1-0", "Everyone"); ("S-1-5-11", "Authenticated Users");
                ("S-1-5-18", "System")];
  SIDFromString := λ s, (s, bool_decide (s = ""));
  ToObject := toObject;
  classify := classifyByCategory;
  ObjectTypeString := typeString;
  o_SecurityDescriptor := decodeDescriptor;
  o_MemberOf := λ _ w, w;
  o_AttrTimestamp := λ _ _, None;
  o_AttrInt := λ _ _, None;
  o_OneAttr := oneAttr;
  o_HasAttrValue := hasAttrValue;
  hoursSince := λ t, t;
  Itoa := λ _, "0";
  strings_ToLower := λ s, s;
  uuid_FromString := λ s, (s, negb (String.length s =? 36)%nat);
  uuid_FromBytes := λ s, (s, negb (String.length s =? 16)%nat);
  SwapUUIDEndianess := λ u, u;
  syntheticDN := λ s, "CN=" +:+ s +:+ ",CN=synthetic";
  builtin := analyzers
|}.

Definition system : Object :=
  newObject "CN=System,DN=microsoft-builtin"
    (<[Name := ["System"]]> (<[ObjectSid := ["S-1-5-18"]]>
       (<[ObjectCategory := ["Group"]]> ∅))).

Definition alice : Object :=
  newObject "CN=alice,DC=contoso,DC=local"
    (<[Name := ["alice"]]> (<[ObjectSid := ["S-1-5-21-7-1105"]]>
       (<[ObjectCategory := ["Person"]]> ∅))).

(** A workstation under LAPS whose descriptor lets alice read the password. *)
Definition ws1 : Object :=
  newObject "CN=ws1,DC=contoso,DC=local"
    (<[Name := ["ws1"]]> (<[ObjectSid := ["S-1-5-21-7-2001"]]>
       (<[ObjectCategory := ["Computer"]]>
          (<[MSmcsAdmPwdExpirationTime := ["132500000000000000"]]>
             (<[A "nTSecurityDescriptor" := ["S-1-5-21-7-1105"]]> ∅))))).

(** The same workstation with a descriptor that does not decode. *)
Definition ws2 : Object :=
  newObject "CN=ws2,DC=contoso,DC=local"
    (<[Name := ["ws2"]]> (<[ObjectSid := ["S-1-5-21-7-2002"]]>
       (<[ObjectCategory := ["Computer"]]>
          (<[MSmcsAdmPwdExpirationTime := ["132500000000000000"]]>
             (<[A "nTSecurityDescriptor" := [""]]> ∅))))).

Definition index (os : list Object) : Objects :=
  mkObjects (list_to_map (imap (λ i o, (DistinguishedName o, i)) os))
            (list_to_map (imap (λ i o, (o_SID o, i)) os)).

Definition world (os : list Object) (analyzers : list PwnAnalyzer) : World :=
  mkWorld os (index os) analyzers ∅ ∅ ∅.

(** System and alice, and the analyzer number 0. *)
Definition w0 : World :=
  world [system; alice] [mkPwnAnalyzer (PwnMethodOther 0) (BuiltinAnalyzer 0)].

(** Alice and the two workstations, and the LAPS analyzer. *)
Definition w1 : World :=
  world [alice; ws1; ws2] [mkPwnAnalyzer PwnReadLAPSPassword (LAPSAnalyzer guidLAPS)].

Definition raw (dn : string) (attrs : list (string * list string)) : RawObject :=
  mkRawObject dn (list_to_map attrs).

Definition rawAlice : RawObject :=
  raw "CN=alice,DC=contoso,DC=local"
      [("name", ["alice"]); ("objectSid", ["S-1-5-21-7-1105"]); ("objectCategory", ["Person"])].

Definition rawBob : RawObject :=
  raw "CN=bob,DC=contoso,DC=local"
      [("name", ["bob"]); ("objectSid", ["S-1-5-21-7-1106"]); ("objectCategory", ["Person"])].

Definition emptyWorld : World := world [] [].

(** Two schema entries, which have no SID. *)
Definition schemaA : Object :=
  newObject "CN=Account-Expires,CN=Schema" (<[Name := ["Account-Expires"]]> ∅).
Definition schemaB : Object :=
  newObject "CN=Address,CN=Schema" (<[Name := ["Address"]]> ∅).

(** Alice as a second domain's dump has her: another name, the same SID. *)
Definition aliceAgain : Object :=
  newObject "CN=alice,DC=fabrikam,DC=local"
    (<[Name := ["alice"]]> (<[ObjectSid := ["S-1-5-21-7-1105"]]>
       (<[ObjectCategory := ["Person"]]> ∅))).

Definition w2 : World :=
  world [schemaA; schemaB] [mkPwnAnalyzer (PwnMethodOther 0) (BuiltinAnalyzer 0)].

Definition w3 : World :=
  world [alice; aliceAgain] [mkPwnAnalyzer (PwnMethodOther 0) (BuiltinAnalyzer 0)].

(** The schema entry of the LAPS password attribute. *)
Definition lapsSchema : Object :=
  newObject "CN=ms-Mcs-AdmPwd,CN=Schema"
    (<[Name := ["ms-Mcs-AdmPwd"]]> (<[ObjectClass := ["top"; "attributeSchema"]]>
       (<[A "schemaIDGUID" := [guidLAPS]]> ∅))).

(** The schema entry, alice and her workstation, before any registration. *)
Definition w4 : World := world [lapsSchema; alice; ws1] [].

Definition outcome (r : result World) : World :=
  match r with
  | Ok w => w
  | Fatal _ => emptyWorld
  end.

Definition w0_analyzed : World := outcome (Analyze w0).
Definition w1_analyzed : World := outcome (Analyze w1).
Definition w2_analyzed : World := outcome (Analyze w2).
Definition w3_analyzed : World := outcome (Analyze w3).
Definition w4_analyzed : World := outcome (Preprocess w4 ≫= Analyze).

Definition method0 : PwnMethod := PwnMethodOther 0.
Definition analyzer0 : PwnAnalyzer := mkPwnAnalyzer method0 (BuiltinAnalyzer 0).

(** The entry of [ws1]'s descriptor. *)
Definition aceAlice : ACE := mkACE 5 16 "S-1-5-21-7-1105" guidLAPS.

(** A last record cut short inside its attribute map. *)
Definition cutShort : MsgpError := WrappedError "Attributes" (PlainError io_EOF).

End Demo.

(** ** Further parts of [main] *)

(** How a step of [main] before the load can end: it goes on, it prints the
    usage and exits ([showUsage]), or it exits through [log.Fatal]. *)
Inductive Flow (A : Type) : Type :=
  | Proceed (a : A)
  | ShowUsage
  | LogFatal (msg : string).
Arguments Proceed {A} a.
Arguments ShowUsage {A}.
Arguments LogFatal {A} msg.

(** [strings.Index]: the index of the first instance of [sub] in [s], or -1. *)
Fixpoint strings_Index (s sub : string) : Z :=
  if String.prefix sub s then 0%Z
  else match s with
       | EmptyString => (-1)%Z
       | String _ s' =>
           let i := strings_Index s' sub in
           if (i <? 0)%Z then (-1)%Z else (i + 1)%Z
       end.

(** The slice expression [s[n:]]; out of range it panics. *)
Fixpoint sliceFrom (n : nat) (s : string) : option string :=
  match n, s with
  | 0, _ => Some s
  | S n', String _ s' => sliceFrom n' s'
  | S _, EmptyString => None
  end.

(** The [switch] on the authentication mode (lines 143-160); [None] is the
    [default] branch. *)
Definition authmodeOf (authmodeString : string) : option Z :=
  if decide (authmodeString = "unauth") then Some 0%Z
  else if decide (authmodeString = "simple") then Some 1%Z
  else if decide (authmodeString = "md5") then Some 2%Z
  else if decide (authmodeString = "ntlm") then Some 3%Z
  else if decide (authmodeString = "ntlmpth") then Some 4%Z
  else if decide (authmodeString = "gssapi") then Some 5%Z
  else None.

(** What the dump connects with: the server, the user name and the mode. *)
Record Connection : Set := mkConnection {
  conn_Server : string;
  conn_User : string;
  conn_Authmode : Z
}.

(** Lines 115-173, up to [ad.Connect].  [srv] is the outcome of
    [net.LookupSRV] (the canonical name, the targets of the records and
    whether [err != nil]) and [USERNAME] the environment variable. *)
Definition dumpPreflight (server domain user pass authmodeString : string)
    (srv : string * list string * bool) (USERNAME : string) : Flow Connection :=
  let server :=
    if bool_decide (domain ≠ "") && bool_decide (server = "") then
      let '(cname, servers, err) := srv in
      match servers with
      | target :: _ => if negb err && bool_decide (cname ≠ "") then target else server
      | [] => server
      end
    else server in
  let user := if decide (user = "") then USERNAME else user in
  if bool_decide (String.length server ≠ 0) && bool_decide (String.length domain ≠ 0)
     && bool_decide (String.length user ≠ 0) && bool_decide (String.length pass = 0)
  then LogFatal "Please provide password using -password=xxxx paramenter"
  else if bool_decide (String.length server = 0) || bool_decide (String.length domain = 0)
          || bool_decide (String.length user = 0) || bool_decide (String.length pass = 0)
  then ShowUsage
  else match authmodeOf authmodeString with
       | None => ShowUsage
       | Some authmode => Proceed (mkConnection server (user +:+ "@" +:+ domain) authmode)
       end.

(** The writer of the cache file, as the records written so far; [encodes]
    tells whether [EncodeMsg] succeeds on a record. *)
Definition saveObjects (encodes : RawObject → bool) (rawobjects : list RawObject)
    : list RawObject → result (list RawObject) :=
  forM_ rawobjects (λ object out,
    if encodes object then Ok (out ++ [object])
    else Fatal "Problem encoding LDAP object").

(** A dump whose failure ends the process (schema, configuration, main). *)
Definition dumpRequired (encodes : RawObject → bool) (dumped : list RawObject + string)
    (out : list RawObject) : result (list RawObject) :=
  match dumped with
  | inr err => Fatal "Problem dumping AD"
  | inl rawobjects => saveObjects encodes rawobjects out
  end.

(** A dump whose failure is only logged (the two DNS zones). *)
Definition dumpOptional (encodes : RawObject → bool) (dumped : list RawObject + string)
    (out : list RawObject) : result (list RawObject) :=
  match dumped with
  | inr err => Ok out
  | inl rawobjects => saveObjects encodes rawobjects out
  end.

(** Lines 202-271: the five calls of [ad.Dump], given by their outcomes. *)
Definition DumpAll (encodes : RawObject → bool)
    (schema configuration forestDNS domainDNS main : list RawObject + string)
    : result (list RawObject) :=
  out ← dumpRequired encodes schema [];
  out ← dumpRequired encodes configuration out;
  out ← dumpOptional encodes forestDNS out;
  out ← dumpOptional encodes domainDNS out;
  dumpRequired encodes main out.

(** What a dump that may fail contributes to the cache file. *)
Definition dumped_or_nothing (dumped : list RawObject + string) : list RawObject :=
  match dumped with
  | inl rawobjects => rawobjects
  | inr _ => []
  end.

(** The separator of line 295. *)
Definition comma : Ascii.ascii := Ascii.ascii_of_nat 44.

(** [strings.Split] for a separator of one byte: the substrings between the
    separators, one more than there are separators. *)
Fixpoint strings_Split (s : string) (sep : Ascii.ascii) : list string :=
  match s with
  | EmptyString => [""]
  | String c s' =>
      if Ascii.eqb c sep then "" :: strings_Split s' sep
      else match strings_Split s' sep with
           | first :: more => String c first :: more
           | [] => [String c ""]
           end
  end.

(** [strings.Join]: the elements with [sep] between them. *)
Fixpoint strings_Join (elems : list string) (sep : string) : string :=
  match elems with
  | [] => ""
  | x :: rest =>
      match rest with
      | [] => x
      | _ :: _ => x +:+ sep +:+ strings_Join rest sep
      end
  end.

(** The name of a domain's cache file inside the data folder (lines 185 and
    296). *)
Definition cacheName (domain : string) : string := domain +:+ ".objects.lz4.msgp".

Section CacheFiles.
Variable filepath_Join : string → string → string.

(** The file the dump creates (line 185). *)
Definition dumpedFile (datapath domain : string) : string :=
  filepath_Join datapath (cacheName domain).

(** The files the load opens, in order (lines 295-296). *)
Definition loadedFiles (datapath domain : string) : list string :=
  (λ d, filepath_Join datapath (cacheName d)) <$> strings_Split domain comma.

End CacheFiles.

Section MoreProgram.
Context `{Externals}.

(** Lines 96-112: the domain to work on.  [USERDNSDOMAIN] is the environment
    variable and [hostname] the outcome of [fqdn.FqdnHostname] (the name and
    whether [err != nil]). *)
Definition autoDetectDomain (domain USERDNSDOMAIN : string) (hostname : string * bool)
    : result string :=
  if decide (domain = "") then
    let domain := strings_ToLower USERDNSDOMAIN in
    domain ←
      (if decide (domain = "") then
         let '(f, err) := hostname in
         if err then Ok domain
         else match sliceFrom (Z.to_nat (strings_Index f "." + 1)) f with
              | Some suffix => Ok (strings_ToLower suffix)
              | None => Fatal "slice bounds out of range"
              end
       else Ok domain);
    if decide (domain = "") then Fatal "Domain auto-detection failed"
    else Ok domain
  else Ok domain.

(** The evaluation pass with the counter [pwnlinks] (lines 517-540). *)
Definition recordPwnCounting (m : PwnMethod) (object pwnobject : ptr)
    (st : World * nat) : result (World * nat) :=
  let '(w, pwnlinks) := st in
  o ← deref w object;
  if bool_decide (pwnobject = object) then Ok (w, pwnlinks)
  else
    po ← deref w pwnobject;
    if bool_decide (o_SID po = o_SID o) then Ok (w, pwnlinks)
    else if exemptSID (o_SID po) then Ok (w, pwnlinks)
    else
      w ← modify pwnobject (set_CanPwn (λ l, l ++ [mkPwnInfo m object])) w;
      w ← modify object (set_PwnableBy (λ l, l ++ [mkPwnInfo m pwnobject])) w;
      Ok (w, S pwnlinks).

Definition runAnalyzerCounting (object : ptr) (analyzer : PwnAnalyzer)
    (st : World * nat) : result (World * nat) :=
  let '(w, pwnlinks) := st in
  '(pwnobjects, w') ← callAnalyzer (ObjectAnalyzer analyzer) object w;
  forM_ pwnobjects (recordPwnCounting (AnalyzerMethod analyzer) object) (w', pwnlinks).

Definition analyzeObjectCounting (object : ptr) (st : World * nat)
    : result (World * nat) :=
  forM_ (PwnAnalyzers st.1) (runAnalyzerCounting object) st.

Definition analyzeObjectsCounting (objects : list ptr) (w : World)
    : result (World * nat) :=
  forM_ objects analyzeObjectCounting (w, 0).

(** Lines 295-540: load, known SIDs, pre-processing and evaluation, as every
    command but [dump] runs them. *)
Definition LoadAndAnalyze (importall : bool) (files : list Reader) (w : World)
    : result World :=
  w ← LoadDomains importall files w;
  w ← AddKnownSIDs w;
  w ← Preprocess w;
  Analyze w.

(** The flag table of lines 401-427, in the order of the [if]s. *)
Definition uacTable : list (Z * Attribute) :=
  [ (UAC_TRUSTED_FOR_DELEGATION, MetaUnconstrainedDelegation);
    (UAC_TRUSTED_TO_AUTH_FOR_DELEGATION, MetaConstrainedDelegation);
    (UAC_WORKSTATION_TRUST_ACCOUNT, MetaWorkstation);
    (UAC_SERVER_TRUST_ACCOUNT, MetaServer);
    (UAC_ACCOUNTDISABLE, MetaAccountDisabled);
    (UAC_PASSWD_CANT_CHANGE, MetaPasswordCantChange);
    (UAC_DONT_EXPIRE_PASSWORD, MetaPasswordNoExpire);
    (UAC_PASSWD_NOTREQD, MetaPasswordNotRequired) ].

(** The attributes the pre-processing pass derives. *)
Definition isMeta (a : Attribute) : bool :=
  match a with
  | MetaType | MetaLastLoginAge | MetaPasswordAge | MetaLinux | MetaWindows
  | MetaUnconstrainedDelegation | MetaConstrainedDelegation
  | MetaWorkstation | MetaServer | MetaAccountDisabled
  | MetaPasswordCantChange | MetaPasswordNoExpire | MetaPasswordNotRequired => true
  | _ => false
  end.

(** ** Vocabulary of the further properties *)

(** The number of [CanPwn] entries, and of [PwnableBy] entries, in a heap. *)
Definition countCanPwn (h : list Object) : nat := sum_list_with (λ o, length (CanPwn o)) h.
Definition countPwnableBy (h : list Object) : nat :=
  sum_list_with (λ o, length (PwnableBy o)) h.

(** The counter went from [n] to [n'] as the edge lists grew from [w] to
    [w']. *)
Definition counted (w : World) (n : nat) (w' : World) (n' : nat) : Prop :=
  countCanPwn (heap w') + n = countCanPwn (heap w) + n'
  ∧ countPwnableBy (heap w') + n = countPwnableBy (heap w) + n'.

(** From [w] to [w'] every object kept its name, attributes and memberships,
    and its edge lists were only appended to. *)
Definition edges_appended (w w' : World) : Prop :=
  ∀ p o, heap w !! p = Some o →
    ∃ o', heap w' !! p = Some o'
      ∧ DistinguishedName o' = DistinguishedName o
      ∧ Attributes o' = Attributes o
      ∧ memberof o' = memberof o ∧ members o' = members o
      ∧ CanPwn o `prefix_of` CanPwn o'
      ∧ PwnableBy o `prefix_of` PwnableBy o'.

(** From [s] to [s'] the heap has the same objects, each with its name, its
    edge lists and its values of the attributes in [K]. *)
Definition attrs_kept (K : Attribute → Prop) (s s' : World) : Prop :=
  length (heap s') = length (heap s)
  ∧ ∀ x o, heap s !! x = Some o →
      ∃ o', heap s' !! x = Some o'
        ∧ DistinguishedName o' = DistinguishedName o
        ∧ CanPwn o' = CanPwn o ∧ PwnableBy o' = PwnableBy o
        ∧ ∀ a, K a → Attributes o' !! a = Attributes o !! a.

(** A step that completes on a heap holding [object] and keeps [K]. *)
Definition keeps (K : Attribute → Prop) (object : ptr) (f : World → result World) : Prop :=
  ∀ s, object < length (heap s) → ∃ s', f s = Ok s' ∧ attrs_kept K s s'.

(** A step that records no edge: run on a heap without edges, it leaves
    one. *)
Definition edge_free_step (f : World → result World) : Prop :=
  ∀ s s', f s = Ok s' → no_edges (heap s) → no_edges (heap s').

(** The cache files of several domains: for each, its complete records and
    what follows them in the stream. *)
Definition cacheFiles (parts : list (list RawObject * Reader)) : list Reader :=
  (λ part : list RawObject * Reader, (inl <$> part.1) ++ part.2) <$> parts.

(** [RawObject.ToObject] returns objects without edges. *)
Definition ToObject_no_edges : Prop :=
  ∀ r importall, CanPwn (ToObject r importall) = [] ∧ PwnableBy (ToObject r importall) = [].

(** [Object.MemberOf] records no edge. *)
Definition MemberOf_no_edges : Prop :=
  ∀ p w, no_edges (heap w) → no_edges (heap (o_MemberOf p w)).

(** The condition under which lines 459-493 register the LAPS analyzer. *)
Definition is_LAPS_schema (o : Object) : Prop :=
  o_HasAttrValue o ObjectClass "controlAccessRight" = false
  ∧ o_HasAttrValue o ObjectClass "attributeSchema" = true
  ∧ (uuid_FromBytes (o_OneAttr o (A "schemaIDGUID"))).2 = false
  ∧ o_OneAttr o Name = "ms-Mcs-AdmPwd".

End MoreProgram.

#[global] Instance grants_read_dec `{Externals} (g : UUID) (acl : ACE) :
  Decision (grants_read g acl).
Proof. unfold grants_read. apply _. Defined.

(** ** More of the small directory *)

Module Extra.

(** The externals of [Demo], with analyzers that report every object as its
    own counterpart. *)
Definition selfAnalyzers (id : nat) (p : ptr) (w : World) : result (list ptr * World) :=
  Ok ([p], w).

Definition externals : Externals := {|
  SelfSID := SelfSID (Externals := Demo.externals);
  CreatorOwnerSID := CreatorOwnerSID (Externals := Demo.externals);
  SystemSID := SystemSID (Externals := Demo.externals);
  ACETYPE_ACCESS_ALLOWED_OBJECT := 5;
  RIGHT_DS_READ_PROPERTY := 16;
  UAC_TRUSTED_FOR_DELEGATION := 524288;
  UAC_TRUSTED_TO_AUTH_FOR_DELEGATION := 16777216;
  UAC_WORKSTATION_TRUST_ACCOUNT := 4096;
  UAC_SERVER_TRUST_ACCOUNT := 8192;
  UAC_ACCOUNTDISABLE := 2;
  UAC_PASSWD_CANT_CHANGE := 64;
  UAC_DONT_EXPIRE_PASSWORD := 65536;
  UAC_PASSWD_NOTREQD := 32;
  knownsids := knownsids (Externals := Demo.externals);
  SIDFromString := SIDFromString (Externals := Demo.externals);
  ToObject := Demo.toObject;
  classify := Demo.classifyByCategory;
  ObjectTypeString := Demo.typeString;
  o_SecurityDescriptor := Demo.decodeDescriptor;
  o_MemberOf := λ _ w, w;
  o_AttrTimestamp := λ _ _, None;
  o_AttrInt := λ _ _, None;
  o_OneAttr := Demo.oneAttr;
  o_HasAttrValue := Demo.hasAttrValue;
  hoursSince := λ t, t;
  Itoa := λ _, "0";
  strings_ToLower := λ s, s;
  uuid_FromString := λ s, (s, negb (String.length s =? 36)%nat);
  uuid_FromBytes := λ s, (s, negb (String.length s =? 16)%nat);
  SwapUUIDEndianess := λ u, u;
  syntheticDN := λ s, "CN=" +:+ s +:+ ",CN=synthetic";
  builtin := selfAnalyzers
|}.

(** A disabled workstation account: ACCOUNTDISABLE and
    WORKSTATION_TRUST_ACCOUNT. *)
Definition uacDisabledWorkstation : Z := 4098.

Definition rawLAPS : RawObject :=
  Demo.raw "CN=ms-Mcs-AdmPwd,CN=Schema"
    [("name", ["ms-Mcs-AdmPwd"]); ("objectClass", ["top"; "attributeSchema"])].

Definition w0_twice : World := Demo.outcome (Analyze Demo.w0_analyzed).

Definition w0_known : World := Demo.outcome (AddKnownSIDs Demo.w0).

(** The two universal groups as objects of the store. *)
Definition everyoneGroup : Object :=
  newObject "CN=S-1-1-0,CN=synthetic" (<[ObjectSid := ["S-1-1-0"]]> ∅).
Definition authenticatedUsersGroup : Object :=
  newObject "CN=S-1-5-11,CN=synthetic" (<[ObjectSid := ["S-1-5-11"]]> ∅).

(** Alice, her workstation and the two groups. *)
Definition w5 : World :=
  Demo.world [Demo.alice; Demo.ws1; everyoneGroup; authenticatedUsersGroup] [].

(** A record cut short inside a value, as [io.ReadFull] reports it. *)
Definition cutInValue : MsgpError :=
  WrappedError "Attributes" (PlainError io_ErrUnexpectedEOF).

(** An empty store with analyzer 0 registered, and the run from it on the
    cache files of two domains. *)
Definition start : World := Demo.world [] [Demo.analyzer0].

Definition loaded : World :=
  Demo.outcome (LoadAndAnalyze false [[inl Demo.rawAlice]; [inl Demo.rawBob; inr Demo.cutShort]]
                               start).

End Extra.

Module Blob.

(** A blob from the values of its bytes. *)
Definition blob (bytes : list nat) : string :=
  String.string_of_list_ascii (Ascii.ascii_of_nat <$> bytes).

(** S-1-5-21-7-1105 in binary form. *)
Definition sidAlice : SID :=
  blob [1; 3; 0; 0; 0; 0; 0; 5; 21; 0; 0; 0; 7; 0; 0; 0; 81; 4; 0; 0].

(** A descriptor with a DACL of one entry: alice is allowed to read the
    property with the LAPS GUID.  Header, list header, entry header, mask,
    flag word, GUID, SID. *)
Definition descriptor : string :=
  blob [1; 0; 4; 128; 0; 0; 0; 0; 0; 0; 0; 0; 0; 0; 0; 0; 20; 0; 0; 0;
        2; 0; 56; 0; 1; 0; 0; 0;
        5; 0; 48; 0; 16; 0; 0; 0; 1; 0; 0; 0]
  +:+ Demo.guidLAPS +:+ sidAlice.

(** The descriptor cut inside the GUID of its entry. *)
Definition cutDescriptor : string := String.substring 0 50 descriptor.

Definition securityDescriptor (o : Object) : SecurityDescriptor + string :=
  SecurityDescriptor_of (Demo.oneAttr o (A "nTSecurityDescriptor")).

(** The directory of [Demo], with descriptors in binary form. *)
Definition externals : Externals := {|
  SelfSID := SelfSID (Externals := Demo.externals);
  CreatorOwnerSID := CreatorOwnerSID (Externals := Demo.externals);
  SystemSID := SystemSID (Externals := Demo.externals);
  ACETYPE_ACCESS_ALLOWED_OBJECT := 5;
  RIGHT_DS_READ_PROPERTY := 16;
  UAC_TRUSTED_FOR_DELEGATION := 524288;
  UAC_TRUSTED_TO_AUTH_FOR_DELEGATION := 16777216;
  UAC_WORKSTATION_TRUST_ACCOUNT := 4096;
  UAC_SERVER_TRUST_ACCOUNT := 8192;
  UAC_ACCOUNTDISABLE := 2;
  UAC_PASSWD_CANT_CHANGE := 64;
  UAC_DONT_EXPIRE_PASSWORD := 65536;
  UAC_PASSWD_NOTREQD := 32;
  knownsids := knownsids (Externals := Demo.externals);
  SIDFromString := SIDFromString (Externals := Demo.externals);
  ToObject := Demo.toObject;
  classify := Demo.classifyByCategory;
  ObjectTypeString := Demo.typeString;
  o_SecurityDescriptor := securityDescriptor;
  o_MemberOf := λ _ w, w;
  o_AttrTimestamp := λ _ _, None;
  o_AttrInt := λ _ _, None;
  o_OneAttr := Demo.oneAttr;
  o_HasAttrValue := Demo.hasAttrValue;
  hoursSince := λ t, t;
  Itoa := λ _, "0";
  strings_ToLower := λ s, s;
  uuid_FromString := λ s, (s, negb (String.length s =? 36)%nat);
  uuid_FromBytes := λ s, (s, negb (String.length s =? 16)%nat);
  SwapUUIDEndianess := λ u, u;
  syntheticDN := λ s, "CN=" +:+ s +:+ ",CN=synthetic";
  builtin := Demo.analyzers
|}.

Definition alice : Object :=
  newObject "CN=alice,DC=contoso,DC=local"
    (<[Name := ["alice"]]> (<[ObjectSid := [sidAlice]]>
       (<[ObjectCategory := ["Person"]]> ∅))).

Definition computer (name : string) (sd : string) : Object :=
  newObject ("CN=" +:+ name +:+ ",DC=contoso,DC=local")
    (<[Name := [name]]> (<[ObjectCategory := ["Computer"]]>
       (<[MSmcsAdmPwdExpirationTime := ["132500000000000000"]]>
          (<[A "nTSecurityDescriptor" := [sd]]> ∅)))).

(** Alice, a workstation with the descriptor and one with the cut one. *)
Definition ws3 : Object := computer "ws3" descriptor.
Definition ws4 : Object := computer "ws4" cutDescriptor.

Definition w : World :=
  Demo.world [alice; ws3; ws4]
    [mkPwnAnalyzer PwnReadLAPSPassword (LAPSAnalyzer Demo.guidLAPS)].

End Blob.

(** * Properties *)

Section Proofs.
Context `{Externals}.

(** ** Outcomes and loops *)

Lemma bind_Ok {A B} (m : result A) (f : A → result B) (b : B) :
  m ≫= f = Ok b ↔ ∃ a, m = Ok a ∧ f a = Ok b.
Proof.
  destruct m as [a|msg]; simpl; split.
  - eauto.
  - by intros (a' & [= ->] & ?).
  - discriminate.
  - by intros (a' & [=] & ?).
Qed.

Lemma forM_app {A S} (l1 l2 : list A) (body : A → S → result S) (s : S) :
  forM_ (l1 ++ l2) body s = forM_ l1 body s ≫= forM_ l2 body.
Proof.
  revert s. induction l1 as [|x l1 IH]; intros s; simpl; [done|].
  destruct (body x s); simpl; auto.
Qed.

(** A property that every iteration keeps holds when the loop is over. *)
Lemma forM_invariant {A S} (P : S → Prop) (l : list A) (body : A → S → result S) :
  (∀ x s s', x ∈ l → P s → body x s = Ok s' → P s') →
  ∀ s s', P s → forM_ l body s = Ok s' → P s'.
Proof.
  induction l as [|x l IH]; intros Hbody s s' Hs; simpl.
  - by intros [= <-].
  - intros (s1 & Hx & Hl)%bind_Ok.
    eapply IH; [| |exact Hl].
    + intros y t t' Hy. apply Hbody. by right.
    + eapply Hbody; [by left|done..].
Qed.

(** A loop whose iterations all complete under [P] completes. *)
Lemma forM_completes {A S} (P : S → Prop) (l : list A) (body : A → S → result S) :
  (∀ x s, x ∈ l → P s → ∃ s', body x s = Ok s' ∧ P s') →
  ∀ s, P s → ∃ s', forM_ l body s = Ok s' ∧ P s'.
Proof.
  induction l as [|x l IH]; intros Hbody s Hs; simpl.
  - eauto.
  - destruct (Hbody x s) as (s1 & -> & Hs1); [by left|done|]. simpl.
    apply IH; [|done]. intros y t Hy. apply Hbody. by right.
Qed.

(** ** The heap *)

Lemma deref_Ok (w : World) (p : ptr) (o : Object) :
  deref w p = Ok o ↔ heap w !! p = Some o.
Proof. unfold deref. destruct (heap w !! p); naive_solver. Qed.

Lemma modify_Ok (p : ptr) (f : Object → Object) (w w' : World) :
  modify p f w = Ok w' ↔
  ∃ o, heap w !! p = Some o ∧ w' = set_heap (λ h, <[p := f o]> h) w.
Proof.
  unfold modify. rewrite bind_Ok. setoid_rewrite deref_Ok. split.
  - intros (o & Ho & [= <-]). eauto.
  - intros (o & Ho & ->). eauto.
Qed.

Lemma extends_refl (w : World) : extends w w.
Proof. exists []. split; [by rewrite app_nil_r | constructor]. Qed.

Lemma extends_trans (w1 w2 w3 : World) :
  extends w1 w2 → extends w2 w3 → extends w1 w3.
Proof.
  intros (n1 & E1 & F1) (n2 & E2 & F2). exists (n1 ++ n2). split.
  - by rewrite E2, E1, <-app_assoc.
  - by apply Forall_app.
Qed.

Lemma extends_lookup (w w' : World) (p : ptr) (o : Object) :
  extends w w' → heap w !! p = Some o → heap w' !! p = Some o.
Proof. intros (new & -> & _). apply lookup_app_l_Some. Qed.

Lemma extends_length (w w' : World) : extends w w' → (length (heap w) ≤ length (heap w'))%nat.
Proof. intros (new & -> & _). rewrite length_app. lia. Qed.

(** ** The store *)

Lemma FindOrAddSID_extends (s : SID) (w : World) : extends w (FindOrAddSID s w).2.
Proof.
  unfold FindOrAddSID. destruct (FindSID w s); simpl; [apply extends_refl|].
  eexists. split; [reflexivity|]. by repeat constructor.
Qed.

Lemma FindOrAddSID_resolves (s : SID) (w : World) :
  FindSID (FindOrAddSID s w).2 s = Some (FindOrAddSID s w).1.
Proof.
  unfold FindOrAddSID. destruct (FindSID w s) eqn:E; simpl; [done|].
  unfold FindSID. simpl. apply lookup_insert_eq.
Qed.

Lemma FindOrAddSID_wf (s : SID) (w : World) :
  store_wf w → store_wf (FindOrAddSID s w).2.
Proof.
  unfold FindOrAddSID. destruct (FindSID w s) eqn:E; simpl; [done|].
  intros [Hd Hs]. unfold store_wf; simpl. rewrite length_app; simpl.
  split; apply map_Forall_insert_2; try lia;
    (eapply map_Forall_impl; [eassumption|]); simpl; intros; lia.
Qed.

Lemma FindOrAddSID_valid (s : SID) (w : World) :
  store_wf w → (FindOrAddSID s w).1 < length (heap (FindOrAddSID s w).2).
Proof.
  intros Hwf. pose proof (FindOrAddSID_resolves s w) as Hr.
  apply FindOrAddSID_wf with (s := s) in Hwf. destruct Hwf as [_ Hs].
  exact (Hs _ _ Hr).
Qed.

Lemma FindOrAddSID_found (s : SID) (w : World) (p : ptr) :
  FindSID w s = Some p → FindOrAddSID s w = (p, w).
Proof. unfold FindOrAddSID. by intros ->. Qed.

Lemma FindOrAddSID_sid (s : SID) (w : World) :
  FindSID w s = None →
  heap (FindOrAddSID s w).2 !! (FindOrAddSID s w).1
  = Some (newObject (syntheticDN s) {[ObjectSid := [s]]}).
Proof.
  unfold FindOrAddSID. intros ->. simpl.
  rewrite lookup_app_r by lia. by rewrite Nat.sub_diag.
Qed.

(** ** One recorded edge *)

(** The heap after the two appends of lines 533-534. *)
Lemma recordPwn_Ok (m : PwnMethod) (object pwnobject : ptr) (w w' : World) :
  recordPwn m object pwnobject w = Ok w' →
  w' = w ∨
  ∃ o po, pwnobject ≠ object ∧ heap w !! object = Some o
    ∧ heap w !! pwnobject = Some po
    ∧ o_SID po ≠ o_SID o ∧ exemptSID (o_SID po) = false
    ∧ w' = set_heap (λ h, <[object := set_PwnableBy (λ l, l ++ [mkPwnInfo m pwnobject]) o]>
                            (<[pwnobject := set_CanPwn (λ l, l ++ [mkPwnInfo m object]) po]> h)) w.
Proof.
  unfold recordPwn. intros (o & Ho%deref_Ok & Hrest)%bind_Ok.
  case_bool_decide as Hne; [left; congruence|].
  apply bind_Ok in Hrest as (po & Hpo%deref_Ok & Hrest).
  case_bool_decide as Hsid; [left; congruence|].
  destruct (exemptSID (o_SID po)) eqn:Hex; [left; congruence|].
  apply bind_Ok in Hrest as (w1 & (po' & Hpo' & ->)%modify_Ok & (o' & Ho' & ->)%modify_Ok).
  right. exists o, po. simpl in Ho'.
  rewrite list_lookup_insert_ne in Ho' by done.
  simplify_eq. by repeat split.
Qed.

Lemma recordPwn_skips_self (m : PwnMethod) (object : ptr) (w : World) :
  is_Some (heap w !! object) → recordPwn m object object w = Ok w.
Proof.
  intros [o Ho]. unfold recordPwn. apply deref_Ok in Ho as ->. simpl.
  by rewrite bool_decide_eq_true_2.
Qed.

Lemma recordPwn_skips_same_SID (m : PwnMethod) (object pwnobject : ptr) (w : World)
    (o po : Object) :
  heap w !! object = Some o → heap w !! pwnobject = Some po →
  o_SID po = o_SID o → recordPwn m object pwnobject w = Ok w.
Proof.
  intros Ho Hpo Hsid. unfold recordPwn. apply deref_Ok in Ho as ->. simpl.
  case_bool_decide; [done|]. apply deref_Ok in Hpo as ->. simpl.
  by rewrite bool_decide_eq_true_2.
Qed.

Lemma recordPwn_skips_exempt (m : PwnMethod) (object pwnobject : ptr) (w : World)
    (o po : Object) :
  heap w !! object = Some o → heap w !! pwnobject = Some po →
  exemptSID (o_SID po) = true → recordPwn m object pwnobject w = Ok w.
Proof.
  intros Ho Hpo Hex. unfold recordPwn. apply deref_Ok in Ho as ->. simpl.
  case_bool_decide; [done|]. apply deref_Ok in Hpo as ->. simpl.
  case_bool_decide; [done|]. by rewrite Hex.
Qed.

Lemma recordPwn_records (m : PwnMethod) (object pwnobject : ptr) (w : World)
    (o po : Object) :
  heap w !! object = Some o → heap w !! pwnobject = Some po →
  pwnobject ≠ object → o_SID po ≠ o_SID o → exemptSID (o_SID po) = false →
  recordPwn m object pwnobject w
  = Ok (set_heap (λ h, <[object := set_PwnableBy (λ l, l ++ [mkPwnInfo m pwnobject]) o]>
                         (<[pwnobject := set_CanPwn (λ l, l ++ [mkPwnInfo m object]) po]> h)) w).
Proof.
  intros Ho Hpo Hne Hsid Hex. unfold recordPwn.
  pose proof Ho as Ho'. apply deref_Ok in Ho' as ->. simpl.
  rewrite bool_decide_eq_false_2 by done.
  pose proof Hpo as Hpo'. apply deref_Ok in Hpo' as ->. simpl.
  rewrite bool_decide_eq_false_2 by done. rewrite Hex.
  unfold modify at 2. pose proof Hpo as Hpo'. apply deref_Ok in Hpo' as ->. simpl.
  unfold modify, deref. simpl. rewrite list_lookup_insert_ne by done.
  by rewrite Ho.
Qed.

Section AddedEdge.
Variables (m : PwnMethod) (object pwnobject : ptr) (o po : Object) (h : list Object).
Hypothesis Hne : pwnobject ≠ object.
Hypothesis Ho : h !! object = Some o.
Hypothesis Hpo : h !! pwnobject = Some po.

Lemma added_lookup_object :
  addedEdge m object pwnobject o po h !! object = Some (set_PwnableBy (λ l, l ++ [mkPwnInfo m pwnobject]) o).
Proof.
  unfold addedEdge. apply list_lookup_insert_eq. rewrite length_insert.
  by eapply lookup_lt_Some.
Qed.

Lemma added_lookup_pwnobject :
  addedEdge m object pwnobject o po h !! pwnobject = Some (set_CanPwn (λ l, l ++ [mkPwnInfo m object]) po).
Proof.
  unfold addedEdge. rewrite list_lookup_insert_ne by done.
  apply list_lookup_insert_eq. by eapply lookup_lt_Some.
Qed.

Lemma added_lookup_other (x : ptr) :
  x ≠ object → x ≠ pwnobject → addedEdge m object pwnobject o po h !! x = h !! x.
Proof. intros. unfold addedEdge. by rewrite !list_lookup_insert_ne. Qed.

Lemma added_sid_at (x : ptr) : sid_at (addedEdge m object pwnobject o po h) x = sid_at h x.
Proof.
  unfold sid_at. destruct (decide (x = object)) as [->|];
    [|destruct (decide (x = pwnobject)) as [->|]].
  - by rewrite added_lookup_object, Ho.
  - by rewrite added_lookup_pwnobject, Hpo.
  - by rewrite added_lookup_other.
Qed.

Lemma added_canPwn (s : ptr) (m' : PwnMethod) (t : ptr) :
  canPwn_edge (addedEdge m object pwnobject o po h) s m' t ↔
  canPwn_edge h s m' t ∨ (s = pwnobject ∧ m' = m ∧ t = object).
Proof.
  unfold canPwn_edge. destruct (decide (s = pwnobject)) as [->|Hs].
  - rewrite added_lookup_pwnobject. split.
    + intros (x & [= <-] & Hin). simpl in Hin.
      apply elem_of_app in Hin as [Hin|Hin%list_elem_of_singleton]; [eauto|].
      right. by inversion Hin.
    + intros [(x & Hx & Hin)|(_ & -> & ->)]; eexists; (split; [done|]); simpl;
        apply elem_of_app; [left; congruence|right; by apply list_elem_of_singleton].
  - destruct (decide (s = object)) as [->|Hs'].
    + rewrite added_lookup_object, Ho. split.
      * intros (x & [= <-] & Hin). simpl in Hin. eauto.
      * intros [(x & [= <-] & Hin)|(? & _)]; [eauto|done].
    + rewrite added_lookup_other by done. naive_solver.
Qed.

Lemma added_pwnableBy (t : ptr) (m' : PwnMethod) (s : ptr) :
  pwnableBy_edge (addedEdge m object pwnobject o po h) t m' s ↔
  pwnableBy_edge h t m' s ∨ (t = object ∧ m' = m ∧ s = pwnobject).
Proof.
  unfold pwnableBy_edge. destruct (decide (t = object)) as [->|Ht].
  - rewrite added_lookup_object. split.
    + intros (x & [= <-] & Hin). simpl in Hin.
      apply elem_of_app in Hin as [Hin|Hin%list_elem_of_singleton]; [eauto|].
      right. by inversion Hin.
    + intros [(x & Hx & Hin)|(_ & -> & ->)]; eexists; (split; [done|]); simpl;
        apply elem_of_app; [left; congruence|right; by apply list_elem_of_singleton].
  - destruct (decide (t = pwnobject)) as [->|Ht'].
    + rewrite added_lookup_pwnobject, Hpo. split.
      * intros (x & [= <-] & Hin). simpl in Hin. eauto.
      * intros [(x & [= <-] & Hin)|(? & _)]; [eauto|done].
    + rewrite added_lookup_other by done. naive_solver.
Qed.

Lemma added_edges_ok :
  o_SID po ≠ o_SID o → exemptSID (o_SID po) = false →
  edges_ok h → edges_ok (addedEdge m object pwnobject o po h).
Proof.
  intros Hsid Hex [Hsym Hsids]. split.
  - intros s m' t. rewrite added_canPwn, added_pwnableBy, Hsym. naive_solver.
  - intros s m' t [Hold|(-> & -> & ->)]%added_canPwn; rewrite !added_sid_at.
    + by apply Hsids in Hold.
    + exists (o_SID po), (o_SID o). unfold sid_at. by rewrite Ho, Hpo.
Qed.
End AddedEdge.

(** ** Objects added by an analyzer *)

Lemma no_edges_canPwn (new : list Object) (i : nat) (o : Object) (e : PwnInfo) :
  no_edges new → new !! i = Some o → (e ∉ CanPwn o) ∧ (e ∉ PwnableBy o).
Proof.
  intros Hnew Hi. destruct (Forall_lookup_1 _ _ _ _ Hnew Hi) as [-> ->].
  split; apply not_elem_of_nil.
Qed.

Lemma app_canPwn (h new : list Object) (s : ptr) (m : PwnMethod) (t : ptr) :
  no_edges new → canPwn_edge (h ++ new) s m t ↔ canPwn_edge h s m t.
Proof.
  intros Hnew. unfold canPwn_edge. split.
  - intros (o & [Hl|[_ Hl]]%lookup_app_Some & Hin); [eauto|].
    by destruct (no_edges_canPwn _ _ _ (mkPwnInfo m t) Hnew Hl).
  - intros (o & Hl & Hin). exists o. split; [by apply lookup_app_l_Some|done].
Qed.

Lemma app_pwnableBy (h new : list Object) (t : ptr) (m : PwnMethod) (s : ptr) :
  no_edges new → pwnableBy_edge (h ++ new) t m s ↔ pwnableBy_edge h t m s.
Proof.
  intros Hnew. unfold pwnableBy_edge. split.
  - intros (o & [Hl|[_ Hl]]%lookup_app_Some & Hin); [eauto|].
    by destruct (no_edges_canPwn _ _ _ (mkPwnInfo m s) Hnew Hl).
  - intros (o & Hl & Hin). exists o. split; [by apply lookup_app_l_Some|done].
Qed.

Lemma app_sid_at (h new : list Object) (p : ptr) (a : SID) :
  sid_at h p = Some a → sid_at (h ++ new) p = Some a.
Proof.
  unfold sid_at. destruct (h !! p) as [o|] eqn:E; [|done].
  intros. by rewrite (lookup_app_l_Some _ _ _ _ E).
Qed.

Lemma extends_edges_ok (w w' : World) :
  extends w w' → edges_ok (heap w) → edges_ok (heap w').
Proof.
  intros (new & -> & Hnew) [Hsym Hsids]. split.
  - intros s m t. by rewrite app_canPwn, app_pwnableBy.
  - intros s m t Hedge%app_canPwn; [|done].
    destruct (Hsids _ _ _ Hedge) as (a & b & Ha & Hb & Hab).
    exists a, b. by rewrite (app_sid_at _ _ _ _ Ha), (app_sid_at _ _ _ _ Hb).
Qed.

Lemma no_edges_ok (h : list Object) : no_edges h → edges_ok h.
Proof.
  intros Hno.
  assert (Hc : ∀ s m t, ¬ canPwn_edge h s m t).
  { intros s m t (o & Hl & Hin). by destruct (no_edges_canPwn _ _ _ (mkPwnInfo m t) Hno Hl). }
  assert (Hp : ∀ t m s, ¬ pwnableBy_edge h t m s).
  { intros t m s (o & Hl & Hin). by destruct (no_edges_canPwn _ _ _ (mkPwnInfo m s) Hno Hl). }
  split.
  - intros s m t. split; intros Hedge; [by apply Hc in Hedge|by apply Hp in Hedge].
  - intros s m t Hedge. by apply Hc in Hedge.
Qed.

Lemma laps_scan_extends (g : UUID) (entries : list ACE) (results : list ptr) (w : World) :
  extends w (laps_scan g entries results w).2.
Proof.
  revert results w. induction entries as [|acl rest IH]; intros results w; simpl.
  - apply extends_refl.
  - destruct (laps_entry_matches g acl); [|apply IH].
    pose proof (FindOrAddSID_extends (ace_SID acl) w) as Hext.
    destruct (FindOrAddSID (ace_SID acl) w) as [p w1]. simpl in Hext.
    eapply extends_trans; [exact Hext|apply IH].
Qed.

Lemma LAPS_extends (g : UUID) (o : ptr) (w w' : World) (res : list ptr) :
  LAPS_ObjectAnalyzer g o w = Ok (res, w') → extends w w'.
Proof.
  unfold LAPS_ObjectAnalyzer. intros (obj & _ & Hrest)%bind_Ok.
  destruct (negb _); [injection Hrest as <- <-; apply extends_refl|].
  destruct (bool_decide _); [injection Hrest as <- <-; apply extends_refl|].
  destruct (o_SecurityDescriptor obj) as [sd|err];
    [|injection Hrest as <- <-; apply extends_refl].
  injection Hrest as Hrest.
  pose proof (laps_scan_extends g (Entries (DACL sd)) [] w) as Hext.
  by rewrite Hrest in Hext.
Qed.

Lemma callAnalyzer_extends (f : AnalyzerFunc) (o : ptr) (w w' : World) (res : list ptr) :
  analyzers_extend → callAnalyzer f o w = Ok (res, w') → extends w w'.
Proof.
  intros Hext. destruct f as [id|g]; simpl; [apply Hext|apply LAPS_extends].
Qed.

(** ** The evaluation pass keeps the edge lists consistent *)

Lemma recordPwn_edges_ok (m : PwnMethod) (object pwnobject : ptr) (w w' : World) :
  edges_ok (heap w) → recordPwn m object pwnobject w = Ok w' → edges_ok (heap w').
Proof.
  intros Hok [->|(o & po & Hne & Ho & Hpo & Hsid & Hex & ->)]%recordPwn_Ok; [done|].
  simpl. by apply added_edges_ok.
Qed.

Lemma runAnalyzer_edges_ok (object : ptr) (analyzer : PwnAnalyzer) (w w' : World) :
  analyzers_extend →
  edges_ok (heap w) → runAnalyzer object analyzer w = Ok w' → edges_ok (heap w').
Proof.
  intros Hext Hok. unfold runAnalyzer.
  intros ([res w1] & Hcall & Hloop)%bind_Ok.
  eapply (forM_invariant (λ w, edges_ok (heap w))); [| |exact Hloop].
  - intros p s s' _. apply recordPwn_edges_ok.
  - eapply extends_edges_ok; [|exact Hok]. by eapply callAnalyzer_extends.
Qed.

Lemma analyzeObject_edges_ok (object : ptr) (w w' : World) :
  analyzers_extend →
  edges_ok (heap w) → analyzeObject object w = Ok w' → edges_ok (heap w').
Proof.
  intros Hext Hok. unfold analyzeObject.
  apply (forM_invariant (λ w, edges_ok (heap w))); [|done].
  intros a s s' _. by apply runAnalyzer_edges_ok.
Qed.

Lemma analyzeObjects_edges_ok (objects : list ptr) (w w' : World) :
  analyzers_extend →
  edges_ok (heap w) → analyzeObjects objects w = Ok w' → edges_ok (heap w').
Proof.
  intros Hext Hok. unfold analyzeObjects.
  apply (forM_invariant (λ w, edges_ok (heap w))); [|done].
  intros a s s' _. by apply analyzeObject_edges_ok.
Qed.

(** ** The evaluation pass completes *)

(** One counterpart: the step completes, touches nothing but the two edge
    lists, keeps the edges there are and, unless the counterpart is skipped,
    adds the edge from the counterpart to the object. *)
Lemma recordPwn_step (m : PwnMethod) (object pwnobject : ptr) (w : World) :
  object < length (heap w) → pwnobject < length (heap w) →
  ∃ w', recordPwn m object pwnobject w = Ok w'
    ∧ length (heap w') = length (heap w)
    ∧ AllObjects w' = AllObjects w
    ∧ (∀ x, sid_at (heap w') x = sid_at (heap w) x)
    ∧ (∀ s m' t, canPwn_edge (heap w) s m' t → canPwn_edge (heap w') s m' t)
    ∧ (∀ t m' s, pwnableBy_edge (heap w) t m' s → pwnableBy_edge (heap w') t m' s)
    ∧ (not_skipped (heap w) object pwnobject →
       canPwn_edge (heap w') pwnobject m object
       ∧ pwnableBy_edge (heap w') object m pwnobject).
Proof.
  intros [o Ho]%lookup_lt_is_Some [po Hpo]%lookup_lt_is_Some.
  assert (Hskip : recordPwn m object pwnobject w = Ok w →
                  ¬ not_skipped (heap w) object pwnobject →
                  ∃ w', recordPwn m object pwnobject w = Ok w'
    ∧ length (heap w') = length (heap w)
    ∧ AllObjects w' = AllObjects w
    ∧ (∀ x, sid_at (heap w') x = sid_at (heap w) x)
    ∧ (∀ s m' t, canPwn_edge (heap w) s m' t → canPwn_edge (heap w') s m' t)
    ∧ (∀ t m' s, pwnableBy_edge (heap w) t m' s → pwnableBy_edge (heap w') t m' s)
    ∧ (not_skipped (heap w) object pwnobject →
       canPwn_edge (heap w') pwnobject m object
       ∧ pwnableBy_edge (heap w') object m pwnobject)).
  { intros Heq Hnot. exists w. by repeat split. }
  destruct (decide (pwnobject = object)) as [->|Hne].
  { apply Hskip; [by apply recordPwn_skips_self|]. by intros [? _]. }
  destruct (decide (o_SID po = o_SID o)) as [Hsid|Hsid].
  { apply Hskip; [by eapply recordPwn_skips_same_SID|].
    unfold not_skipped, sid_at. rewrite Ho, Hpo.
    intros (_ & a & b & [= <-] & [= <-] & ? & _). done. }
  destruct (exemptSID (o_SID po)) eqn:Hex.
  { apply Hskip; [by eapply recordPwn_skips_exempt|].
    unfold not_skipped, sid_at. rewrite Ho, Hpo.
    intros (_ & a & b & [= <-] & [= <-] & _ & ?). congruence. }
  eexists. split; [by apply recordPwn_records|]. simpl.
  split; [by rewrite !length_insert|]. split; [done|].
  split; [intros x; by apply added_sid_at|].
  split; [intros s m' t Hedge; apply added_canPwn; auto|].
  split; [intros t m' s Hedge; apply added_pwnableBy; auto|].
  intros _. split; [apply added_canPwn|apply added_pwnableBy]; auto.
Qed.

(** The loop over the counterparts an analyzer returned. *)
Lemma recordPwn_loop (m : PwnMethod) (object : ptr) (pwnobjects : list ptr) (w : World) :
  object < length (heap w) → Forall (λ q, q < length (heap w)) pwnobjects →
  ∃ w', forM_ pwnobjects (recordPwn m object) w = Ok w'
    ∧ length (heap w') = length (heap w)
    ∧ AllObjects w' = AllObjects w
    ∧ (∀ x, sid_at (heap w') x = sid_at (heap w) x)
    ∧ (∀ s m' t, canPwn_edge (heap w) s m' t → canPwn_edge (heap w') s m' t)
    ∧ (∀ t m' s, pwnableBy_edge (heap w) t m' s → pwnableBy_edge (heap w') t m' s)
    ∧ (∀ pwnobject, pwnobject ∈ pwnobjects → not_skipped (heap w) object pwnobject →
       canPwn_edge (heap w') pwnobject m object
       ∧ pwnableBy_edge (heap w') object m pwnobject).
Proof.
  revert w. induction pwnobjects as [|q l IH]; intros w Hobj Hall; simpl.
  - exists w. do 6 (split; [done|]). by intros q ?%elem_of_nil.
  - apply Forall_cons in Hall as [Hq Hl].
    destruct (recordPwn_step m object q w Hobj Hq)
      as (w1 & -> & Hlen & Hall1 & Hsid1 & Hcan1 & Hby1 & Hnew1). simpl.
    destruct (IH w1) as (w' & -> & Hlen' & Hall' & Hsid' & Hcan' & Hby' & Hnew').
    { by rewrite Hlen. }
    { by rewrite Hlen. }
    exists w'. split; [done|]. split; [congruence|]. split; [congruence|].
    split; [intros x; by rewrite Hsid'|]. split; [auto|]. split; [auto|].
    intros p [->|Hin]%elem_of_cons Hns.
    + destruct (Hnew1 Hns). auto.
    + apply Hnew'; [done|]. destruct Hns as (? & a & b & ? & ? & ?).
      split; [done|]. exists a, b. by rewrite !Hsid1.
Qed.

Lemma store_wf_frame (w w' : World) :
  length (heap w') = length (heap w) → AllObjects w' = AllObjects w →
  store_wf w → store_wf w'.
Proof. unfold store_wf. by intros -> ->. Qed.

Lemma laps_scan_valid (g : UUID) (entries : list ACE) (results : list ptr) (w : World) :
  store_wf w → Forall (λ q, q < length (heap w)) results →
  store_wf (laps_scan g entries results w).2
  ∧ Forall (λ q, q < length (heap (laps_scan g entries results w).2))
           (laps_scan g entries results w).1.
Proof.
  revert results w. induction entries as [|acl rest IH]; intros results w Hwf Hres; simpl.
  - done.
  - destruct (laps_entry_matches g acl); [|by apply IH].
    pose proof (FindOrAddSID_extends (ace_SID acl) w) as Hext%extends_length.
    pose proof (FindOrAddSID_wf (ace_SID acl) w Hwf) as Hwf1.
    pose proof (FindOrAddSID_valid (ace_SID acl) w Hwf) as Hp.
    destruct (FindOrAddSID (ace_SID acl) w) as [p w1]. simpl in *.
    apply IH; [done|]. apply Forall_app. split; [|by repeat constructor].
    eapply Forall_impl; [exact Hres|]. simpl. intros. lia.
Qed.

Lemma callAnalyzer_returns (f : AnalyzerFunc) (o : ptr) (w : World) :
  analyzers_return → store_wf w → o < length (heap w) →
  ∃ res w', callAnalyzer f o w = Ok (res, w') ∧ store_wf w'
            ∧ Forall (λ q, q < length (heap w')) res.
Proof.
  intros Hret Hwf Ho. destruct f as [id|g]; simpl; [by apply Hret|].
  unfold LAPS_ObjectAnalyzer. apply lookup_lt_is_Some in Ho as [obj Hobj].
  apply deref_Ok in Hobj as ->. simpl.
  destruct (negb _); [by exists [], w|].
  destruct (bool_decide _); [by exists [], w|].
  destruct (o_SecurityDescriptor obj) as [sd|err]; [|by exists [], w].
  destruct (laps_scan_valid g (Entries (DACL sd)) [] w Hwf) as [Hwf' Hres];
    [constructor|].
  destruct (laps_scan g (Entries (DACL sd)) [] w) as [res w'] eqn:E.
  by exists res, w'.
Qed.

Lemma runAnalyzer_completes (object : ptr) (analyzer : PwnAnalyzer) (w : World) :
  analyzers_extend → analyzers_return →
  store_wf w → object < length (heap w) →
  ∃ w', runAnalyzer object analyzer w = Ok w' ∧ store_wf w'
        ∧ (length (heap w) ≤ length (heap w'))%nat.
Proof.
  intros Hext Hret Hwf Ho. unfold runAnalyzer.
  destruct (callAnalyzer_returns (ObjectAnalyzer analyzer) object w Hret Hwf Ho)
    as (res & w1 & Hcall & Hwf1 & Hres).
  pose proof (callAnalyzer_extends _ _ _ _ _ Hext Hcall) as Hlen%extends_length.
  rewrite Hcall. simpl.
  destruct (recordPwn_loop (AnalyzerMethod analyzer) object res w1)
    as (w' & -> & Hlen' & Hall' & _); [lia|done|].
  exists w'. split; [done|]. split; [by eapply store_wf_frame|lia].
Qed.

Lemma analyzeObjects_completes (objects : list ptr) (w : World) :
  analyzers_extend → analyzers_return →
  store_wf w → Forall (λ p, p < length (heap w)) objects →
  ∃ w', analyzeObjects objects w = Ok w'.
Proof.
  intros Hext Hret Hwf Hobjs.
  pose (Q := λ s : World, store_wf s ∧ (length (heap w) ≤ length (heap s))%nat).
  destruct (forM_completes Q objects analyzeObject) with (s := w) as (w' & Hw' & _).
  - unfold Q. intros p s Hp [Hs Hlen]. unfold analyzeObject.
    assert (Hps : p < length (heap s)).
    { apply Forall_forall with (x := p) in Hobjs; [lia|done]. }
    destruct (forM_completes
                (λ t : World, store_wf t ∧ (length (heap s) ≤ length (heap t))%nat)
                (PwnAnalyzers s) (runAnalyzer p)) with (s := s) as (s' & Hs' & Hwf' & Hlen').
    + intros a t _ [Ht Hlt].
      destruct (runAnalyzer_completes p a t) as (t' & ? & ? & ?); [done..|lia|].
      exists t'. split; [done|]. split; [done|lia].
    + by split.
    + exists s'. split; [done|]. split; [done|lia].
  - by split.
  - by exists w'.
Qed.

(** ** Claims on the evaluation pass *)

Lemma edges_ok_distinct_sids (h : list Object) (a b : ptr) (m : PwnMethod) :
  edges_ok h → sid_at h a = sid_at h b →
  ¬ canPwn_edge h a m b ∧ ¬ pwnableBy_edge h a m b.
Proof.
  intros [Hsym Hsids] Heq. split.
  - intros (x & y & Hx & Hy & Hxy & _)%Hsids. congruence.
  - intros (x & y & Hx & Hy & Hxy & _)%Hsym%Hsids. congruence.
Qed.

Lemma analyzed_edges_ok (objects : list ptr) (w w' : World) :
  analyzers_extend → no_edges (heap w) → analyzeObjects objects w = Ok w' →
  edges_ok (heap w').
Proof.
  intros Hext Hno. apply analyzeObjects_edges_ok; [done|]. by apply no_edges_ok.
Qed.

(** C1 (amended). For an analyzer that returns the counterparts [pwnobjects]
    for [object], the framework records every counterpart that is not
    skipped as the holder of the edge: it appends [(method, object)] to the
    counterpart's [CanPwn] and [(method, counterpart)] to [object.PwnableBy].
    The first part is one iteration of the innermost loop, with the exact
    lists it leaves; the second part is the whole loop over the analyzer's
    result, which completes. *)
Theorem counterpart_holds_the_edge (analyzer : PwnAnalyzer) (object : ptr)
    (w w1 : World) (pwnobjects : list ptr) :
  callAnalyzer (ObjectAnalyzer analyzer) object w = Ok (pwnobjects, w1) →
  object < length (heap w1) →
  Forall (λ q, q < length (heap w1)) pwnobjects →
  (∀ pwnobject o po,
     heap w1 !! object = Some o → heap w1 !! pwnobject = Some po →
     pwnobject ≠ object → o_SID po ≠ o_SID o → exemptSID (o_SID po) = false →
     ∃ w2, recordPwn (AnalyzerMethod analyzer) object pwnobject w1 = Ok w2
       ∧ heap w2 !! pwnobject
         = Some (set_CanPwn (λ l, l ++ [mkPwnInfo (AnalyzerMethod analyzer) object]) po)
       ∧ heap w2 !! object
         = Some (set_PwnableBy (λ l, l ++ [mkPwnInfo (AnalyzerMethod analyzer) pwnobject]) o)
       ∧ ∀ x, x ≠ object → x ≠ pwnobject → heap w2 !! x = heap w1 !! x)
  ∧ ∃ w', runAnalyzer object analyzer w = Ok w'
      ∧ ∀ pwnobject, pwnobject ∈ pwnobjects → not_skipped (heap w1) object pwnobject →
          canPwn_edge (heap w') pwnobject (AnalyzerMethod analyzer) object
          ∧ pwnableBy_edge (heap w') object (AnalyzerMethod analyzer) pwnobject.
Proof.
  intros Hcall Hobj Hall. split.
  - intros pwnobject o po Ho Hpo Hne Hsid Hex. eexists.
    split; [by apply recordPwn_records|]. simpl.
    split; [by apply added_lookup_pwnobject|].
    split; [by eapply added_lookup_object|].
    intros x ? ?. by apply added_lookup_other.
  - unfold runAnalyzer. rewrite Hcall. simpl.
    destruct (recordPwn_loop (AnalyzerMethod analyzer) object pwnobjects w1 Hobj Hall)
      as (w' & Hloop & _ & _ & _ & _ & _ & Hnew).
    exists w'. split; [done|]. exact Hnew.
Qed.

(** C2 (amended). After the evaluation pass no edge is held by a principal
    whose SID is Self, Creator-Owner or System: neither the holder of a
    [CanPwn] entry nor the object a [PwnableBy] entry names has one of these
    SIDs.  [objects] is the enumeration the pass runs over, in any order. *)
Theorem exempt_principals_hold_no_edge (objects : list ptr) (w w' : World) :
  analyzers_extend → no_edges (heap w) → analyzeObjects objects w = Ok w' →
  ∀ s m t a,
    canPwn_edge (heap w') s m t ∨ pwnableBy_edge (heap w') t m s →
    sid_at (heap w') s = Some a → exemptSID a = false.
Proof.
  intros Hext Hno Hrun s m t a Hedge Ha.
  destruct (analyzed_edges_ok _ _ _ Hext Hno Hrun) as [Hsym Hsids].
  assert (Hcan : canPwn_edge (heap w') s m t) by (destruct Hedge; [done|by apply Hsym]).
  destruct (Hsids _ _ _ Hcan) as (a' & b & Ha' & _ & _ & Hex). congruence.
Qed.

(** C3. After the evaluation pass the two edge lists mirror each other:
    [S.CanPwn] holds [(m, T)] exactly when [T.PwnableBy] holds [(m, S)]. *)
Theorem edge_symmetry (objects : list ptr) (w w' : World) :
  analyzers_extend → no_edges (heap w) → analyzeObjects objects w = Ok w' →
  ∀ s m t, canPwn_edge (heap w') s m t ↔ pwnableBy_edge (heap w') t m s.
Proof.
  intros Hext Hno Hrun. by destruct (analyzed_edges_ok _ _ _ Hext Hno Hrun).
Qed.

(** C4. After the evaluation pass neither edge list of an object [a] names
    an object [b] with the same SID, whether [b] is another object or [a]
    itself; and a counterpart that is the analyzed object is skipped. *)
Theorem no_edge_between_equal_SIDs (objects : list ptr) (w w' : World) :
  analyzers_extend → no_edges (heap w) → analyzeObjects objects w = Ok w' →
  (∀ a b m, sid_at (heap w') a = sid_at (heap w') b →
     ¬ canPwn_edge (heap w') a m b ∧ ¬ pwnableBy_edge (heap w') a m b)
  ∧ (∀ a m, ¬ canPwn_edge (heap w') a m a ∧ ¬ pwnableBy_edge (heap w') a m a)
  ∧ (∀ m object v, is_Some (heap v !! object) → recordPwn m object object v = Ok v).
Proof.
  intros Hext Hno Hrun.
  pose proof (analyzed_edges_ok _ _ _ Hext Hno Hrun) as Hok.
  split; [|split].
  - intros a b m. by apply edges_ok_distinct_sids.
  - intros a m. by apply edges_ok_distinct_sids.
  - intros m object v. apply recordPwn_skips_self.
Qed.

(** C9. Two distinct objects that both lack a SID are never linked: the
    test on equal SIDs skips the counterpart, and after the pass neither
    edge list of the one names the other. *)
Theorem no_edge_between_objects_without_SID (objects : list ptr) (w w' : World) :
  analyzers_extend → no_edges (heap w) → analyzeObjects objects w = Ok w' →
  (∀ a b m, a ≠ b →
     sid_at (heap w') a = Some "" → sid_at (heap w') b = Some "" →
     ¬ canPwn_edge (heap w') a m b ∧ ¬ pwnableBy_edge (heap w') a m b)
  ∧ (∀ m object pwnobject v o po,
       heap v !! object = Some o → heap v !! pwnobject = Some po →
       o_SID o = "" → o_SID po = "" →
       recordPwn m object pwnobject v = Ok v).
Proof.
  intros Hext Hno Hrun.
  pose proof (analyzed_edges_ok _ _ _ Hext Hno Hrun) as Hok. split.
  - intros a b m _ Ha Hb. apply edges_ok_distinct_sids; [done|congruence].
  - intros m object pwnobject v o po Ho Hpo So Spo.
    eapply recordPwn_skips_same_SID; [done..|congruence].
Qed.

(** ** The LAPS analyzer *)

Lemma laps_entry_matches_spec (g : UUID) (acl : ACE) :
  laps_entry_matches g acl = true ↔ grants_read g acl.
Proof.
  unfold laps_entry_matches, grants_read.
  rewrite !andb_true_iff, !bool_decide_eq_true, negb_true_iff, Z.eqb_neq. tauto.
Qed.

Lemma laps_scan_no_match (g : UUID) (entries : list ACE) (results : list ptr) (w : World) :
  Forall (λ e, ¬ grants_read g e) entries →
  laps_scan g entries results w = (results, w).
Proof.
  induction 1 as [|acl rest Hacl _ IH]; simpl; [done|].
  destruct (laps_entry_matches g acl) eqn:E; [|done].
  by apply laps_entry_matches_spec in E.
Qed.

Lemma laps_scan_app (g : UUID) (e1 e2 : list ACE) (results : list ptr) (w : World) :
  laps_scan g (e1 ++ e2) results w
  = laps_scan g e2 (laps_scan g e1 results w).1 (laps_scan g e1 results w).2.
Proof.
  revert results w. induction e1 as [|acl rest IH]; intros results w; simpl; [done|].
  destruct (laps_entry_matches g acl); [|apply IH].
  destruct (FindOrAddSID (ace_SID acl) w) as [p w1]. apply IH.
Qed.

Lemma LAPS_guards (g : UUID) (o : ptr) (w : World) (obj : Object) :
  heap w !! o = Some obj →
  o_Type obj = ObjectTypeComputer → o_Attr obj MSmcsAdmPwdExpirationTime ≠ [] →
  LAPS_ObjectAnalyzer g o w
  = match o_SecurityDescriptor obj with
    | inr err => Ok ([], w)
    | inl sd => Ok (laps_scan g (Entries (DACL sd)) [] w)
    end.
Proof.
  intros Ho Hty Hattr. unfold LAPS_ObjectAnalyzer. apply deref_Ok in Ho as ->. simpl.
  rewrite bool_decide_eq_true_2 by done. simpl.
  rewrite bool_decide_eq_false_2; [done|].
  by destruct (o_Attr obj MSmcsAdmPwdExpirationTime).
Qed.

(** C5. On a computer that has the LAPS expiration-time attribute and whose
    descriptor decodes to a DACL with exactly one entry that is of the
    allow-object type, carries the read-property right and names the GUID
    [g], the LAPS analyzer for [g] returns exactly one counterpart: the
    object [FindOrAddSID] resolves or creates for the SID of that entry, to
    which that SID resolves afterwards.  On an object that is not a computer,
    or that lacks the attribute, it returns no counterpart and leaves the
    store as it is. *)
Theorem LAPS_emits_the_reader (g : UUID) (o : ptr) (w : World) (obj : Object) :
  heap w !! o = Some obj →
  (o_Type obj ≠ ObjectTypeComputer ∨ o_Attr obj MSmcsAdmPwdExpirationTime = [] →
   LAPS_ObjectAnalyzer g o w = Ok ([], w))
  ∧ (∀ sd before acl after,
       o_Type obj = ObjectTypeComputer →
       o_Attr obj MSmcsAdmPwdExpirationTime ≠ [] →
       o_SecurityDescriptor obj = inl sd →
       Entries (DACL sd) = before ++ acl :: after →
       grants_read g acl →
       Forall (λ e, ¬ grants_read g e) (before ++ after) →
       LAPS_ObjectAnalyzer g o w
       = Ok ([(FindOrAddSID (ace_SID acl) w).1], (FindOrAddSID (ace_SID acl) w).2)
       ∧ FindSID (FindOrAddSID (ace_SID acl) w).2 (ace_SID acl)
         = Some (FindOrAddSID (ace_SID acl) w).1).
Proof.
  intros Ho. split.
  - intros Hno. unfold LAPS_ObjectAnalyzer. apply deref_Ok in Ho as ->. simpl.
    destruct Hno as [Hty|Hattr].
    + by rewrite bool_decide_eq_false_2.
    + destruct (negb _); [done|]. by rewrite Hattr.
  - intros sd before acl after Hty Hattr Hsd Hentries Hacl [Hb Ha]%Forall_app.
    split; [|apply FindOrAddSID_resolves].
    rewrite (LAPS_guards g o w obj Ho Hty Hattr), Hsd, Hentries. f_equal.
    rewrite laps_scan_app, (laps_scan_no_match g before [] w Hb). simpl.
    apply laps_entry_matches_spec in Hacl as ->.
    destruct (FindOrAddSID (ace_SID acl) w) as [p w1]. simpl.
    by rewrite (laps_scan_no_match g after [p] w1 Ha).
Qed.


(** ** The decoder on damaged blobs *)








Lemma andThen_inl {X Y : Type} (m : X + DecodeError) (f : X → Y + DecodeError) (y : Y) :
  andThen m f = inl y → ∃ x, m = inl x ∧ f x = inl y.
Proof. destruct m as [x|e]; simpl; [eauto|done]. Qed.







(** The structures of a blob that decodes lie inside the blob: cutting it
    before [extent] takes bytes away. *)
Lemma decoded_within_the_blob (full : string) (d : Descriptor) :
  ParseSecurityDescriptor full = inl d → (extent full ≤ size_of (bytes_of full))%N.
Proof.
  unfold extent, ParseSecurityDescriptor. set (data := bytes_of full).
  destruct (N.ltb_spec (size_of data) 20) as [|Hhead]; [done|].
  destruct (negb _); [done|].
  assert (Hsid : ∀ off x, parseSIDAt full data off = inl x →
            (sidEnd data off ≤ size_of data)%N).
  { intros off x. unfold sidEnd, parseSIDAt, parseSID.
    destruct (off =? 0)%N; [lia|].
    destruct (size_of data <? off + 8)%N; [done|]. destruct (negb _); [done|].
    destruct (N.ltb_spec (size_of data) (off + (8 + 4 * u8 data (off + 1)))); [done|].
    lia. }
  assert (Hacl : ∀ at_ x, parseACLAt full data at_ = inl x →
            (aclEnd data at_ ≤ size_of data)%N).
  { intros [off|] x; simpl; [|lia]. unfold parseACL.
    destruct (size_of data <? off + 8)%N; [done|].
    destruct (u16 data (off + 2) <? 8)%N; [done|].
    destruct (N.ltb_spec (size_of data) (off + u16 data (off + 2))); [done|].
    intros _. lia. }
  intros (owner & Ho%Hsid & (group & Hg%Hsid & (sacl & Hs%Hacl & (dacl & Hd%Hacl & _)%andThen_inl
    )%andThen_inl)%andThen_inl)%andThen_inl.
  lia.
Qed.




(** The analyzer is registered when the pre-processing pass meets the schema
    entry of the attribute [ms-Mcs-AdmPwd], for the GUID of that entry. *)
Lemma specialObjects_registers_LAPS (object : ptr) (w : World) (o : Object) (guid : UUID) :
  heap w !! object = Some o →
  o_HasAttrValue o ObjectClass "controlAccessRight" = false →
  o_HasAttrValue o ObjectClass "attributeSchema" = true →
  uuid_FromBytes (o_OneAttr o (A "schemaIDGUID")) = (guid, false) →
  o_OneAttr o Name = "ms-Mcs-AdmPwd" →
  ∃ w', specialObjects object w = Ok w'
    ∧ heap w' = heap w
    ∧ PwnAnalyzers w'
      = PwnAnalyzers w
        ++ [mkPwnAnalyzer PwnReadLAPSPassword (LAPSAnalyzer (SwapUUIDEndianess guid))].
Proof.
  intros Ho Hright Hattr Hguid Hname. unfold specialObjects, reading.
  apply deref_Ok in Ho as ->. simpl. rewrite Hright, Hattr, Hguid.
  rewrite decide_True by done. by eexists.
Qed.

(** ** The pre-processing pass *)

Lemma membership_grows_refl (w : World) : membership_grows w w.
Proof. intros p o Hp. by exists o. Qed.

Lemma membership_grows_trans (w1 w2 w3 : World) :
  membership_grows w1 w2 → membership_grows w2 w3 → membership_grows w1 w3.
Proof.
  intros H12 H23 p o Hp.
  destruct (H12 p o Hp) as (o2 & Hp2 & Hty2 & Hmo2 & Hme2).
  destruct (H23 p o2 Hp2) as (o3 & Hp3 & Hty3 & Hmo3 & Hme3).
  exists o3. split; [done|]. split; [congruence|]. split; set_solver.
Qed.

Lemma membership_grows_valid (w w' : World) (p : ptr) :
  membership_grows w w' → p < length (heap w) → p < length (heap w').
Proof.
  intros Hg [o Ho]%lookup_lt_is_Some. destruct (Hg p o Ho) as (o' & Ho' & _).
  by eapply lookup_lt_Some.
Qed.

Lemma membership_grows_same_heap (w w' : World) :
  heap w' = heap w → membership_grows w w'.
Proof. intros Hh p o Hp. exists o. by rewrite Hh. Qed.

Lemma member_of_grows (w w' : World) (object group : ptr) :
  membership_grows w w' → member_of (heap w) object group →
  member_of (heap w') object group.
Proof.
  intros Hg [(o & Ho & Hin) (gr & Hgr & Hin')]. split.
  - destruct (Hg _ _ Ho) as (o' & Ho' & _ & Hsub & _). exists o'. split; [done|set_solver].
  - destruct (Hg _ _ Hgr) as (g' & Hg' & _ & _ & Hsub). exists g'. split; [done|set_solver].
Qed.

(** An in-place update that keeps the type and only adds members. *)
Lemma modify_grows (p : ptr) (f : Object → Object) (w : World) :
  (∀ o, o_Type (f o) = o_Type o ∧ memberof o ⊆ memberof (f o) ∧ members o ⊆ members (f o)) →
  p < length (heap w) →
  ∃ w' o, modify p f w = Ok w' ∧ heap w !! p = Some o ∧ heap w' !! p = Some (f o)
          ∧ membership_grows w w'.
Proof.
  intros Hf Hp. pose proof Hp as [o Ho]%lookup_lt_is_Some.
  exists (set_heap (λ h, <[p := f o]> h) w), o.
  split; [apply modify_Ok; eauto|]. split; [done|]. simpl.
  split; [by apply list_lookup_insert_eq|].
  intros q oq Hq. simpl. destruct (decide (q = p)) as [->|Hne].
  - exists (f o). rewrite list_lookup_insert_eq by done.
    assert (oq = o) as -> by congruence. split; [done|apply Hf].
  - exists oq. by rewrite list_lookup_insert_ne.
Qed.

Section Steps.
Variable object : ptr.

Lemma good_Ok : good object Ok.
Proof. intros s _. exists s. split; [done|apply membership_grows_refl]. Qed.

Lemma good_SetAttr (a : Attribute) (v : string) :
  a ≠ ObjectClass → a ≠ ObjectCategory → a ≠ SAMAccountType →
  good object (o_SetAttr object a v).
Proof.
  intros H1 H2 H3 s Hs. unfold o_SetAttr.
  destruct (modify_grows object (set_Attributes (λ m, <[a := [v]]> m)) s) as (s' & o & Hm & _ & _ & Hg);
    [|done|by exists s'].
  intros o. split; [|done]. unfold o_Type, o_Attr. simpl.
  by rewrite !lookup_insert_ne.
Qed.

Lemma good_when (b : bool) (f : World → result World) : good object f → good object (when_ b f).
Proof. intros Hf. destruct b; [done|apply good_Ok]. Qed.

Lemma good_reading (f : Object → World → result World) :
  (∀ o, good object (f o)) → good object (reading object f).
Proof.
  intros Hf s Hs. unfold reading. pose proof Hs as [o Ho]%lookup_lt_is_Some.
  apply deref_Ok in Ho as ->. simpl. by apply Hf.
Qed.

Lemma good_forM {X} (l : list X) (body : X → World → result World) :
  (∀ x, x ∈ l → good object (body x)) → good object (forM_ l body).
Proof.
  intros Hbody s Hs.
  destruct (forM_completes (λ t, membership_grows s t) l body) with (s := s)
    as (s' & Hs' & Hg); [|apply membership_grows_refl|by exists s'].
  intros x t Hx Hst.
  destruct (Hbody x Hx t) as (t' & Ht' & Hg); [by eapply membership_grows_valid|].
  exists t'. split; [done|]. by eapply membership_grows_trans.
Qed.

Lemma good_uacFlag (uac flag : Z) (attr : Attribute) :
  attr ≠ ObjectClass → attr ≠ ObjectCategory → attr ≠ SAMAccountType →
  good object (uacFlag object uac flag attr).
Proof. intros. by apply good_when, good_SetAttr. Qed.

Lemma good_metaAttributes : ∀ step, step ∈ metaAttributes object → good object step.
Proof.
  intros step Hstep. unfold metaAttributes in Hstep.
  repeat (apply elem_of_cons in Hstep as [->|Hstep]); [..|by apply elem_of_nil in Hstep];
    apply good_reading; intros o.
  - by apply good_SetAttr.
  - destruct (o_AttrTimestamp o LastLogonTimestamp); [by apply good_SetAttr|apply good_Ok].
  - destruct (o_AttrTimestamp o PwdLastSet); [by apply good_SetAttr|apply good_Ok].
  - by apply good_when, good_SetAttr.
  - by apply good_when, good_SetAttr.
  - destruct (o_AttrInt o UserAccountControl) as [uac|]; [|apply good_Ok].
    apply good_forM. intros [flag attr] Hin.
    repeat (apply elem_of_cons in Hin as [[= -> ->]|Hin]);
      [..|by apply elem_of_nil in Hin]; by apply good_uacFlag.
Qed.

Lemma good_specialObjects : good object (specialObjects object).
Proof.
  apply good_reading. intros o s Hs.
  repeat match goal with
         | |- context [if ?b then _ else _] => destruct b
         | |- context [let '(_, _) := ?p in _] => destruct p
         end;
    eexists; (split; [reflexivity|]); by apply membership_grows_same_heap.
Qed.

Lemma good_MemberOf : MemberOf_grows → good object (λ w, Ok (o_MemberOf object w)).
Proof. intros Hm s _. eexists. split; [done|apply Hm]. Qed.
End Steps.

Lemma isPrincipalType_spec (t : ObjectType) :
  isPrincipalType t = true ↔
  t = ObjectTypeUser ∨ t = ObjectTypeComputer ∨ t = ObjectTypeManagedServiceAccount.
Proof.
  unfold isPrincipalType. rewrite !orb_true_iff, !bool_decide_eq_true. tauto.
Qed.

Lemma set_members_grows (new : list ptr) (o : Object) :
  o_Type (set_members (λ l, l ++ new) o) = o_Type o
  ∧ memberof o ⊆ memberof (set_members (λ l, l ++ new) o)
  ∧ members o ⊆ members (set_members (λ l, l ++ new) o).
Proof. simpl. split; [done|]. split; [done|]. set_solver. Qed.

Lemma set_memberof_grows (new : list ptr) (o : Object) :
  o_Type (set_memberof (λ l, l ++ new) o) = o_Type o
  ∧ memberof o ⊆ memberof (set_memberof (λ l, l ++ new) o)
  ∧ members o ⊆ members (set_memberof (λ l, l ++ new) o).
Proof. simpl. split; [done|]. split; [|done]. set_solver. Qed.

(** Lines 380-385 on one object. *)
Lemma specialGroups_spec (everyone authenticatedusers object : ptr) (s : World) :
  everyone < length (heap s) → authenticatedusers < length (heap s) →
  object < length (heap s) →
  ∃ s', specialGroups everyone authenticatedusers object s = Ok s'
    ∧ membership_grows s s'
    ∧ ∀ o, heap s !! object = Some o → isPrincipalType (o_Type o) = true →
        member_of (heap s') object everyone
        ∧ member_of (heap s') object authenticatedusers.
Proof.
  intros He Ha Ho. unfold specialGroups, reading.
  pose proof Ho as [o Hobj]%lookup_lt_is_Some.
  pose proof Hobj as Hderef. apply deref_Ok in Hderef as ->. simpl.
  destruct (isPrincipalType (o_Type o)) eqn:Hty; simpl.
  2:{ exists s. split; [done|]. split; [apply membership_grows_refl|].
      intros o' Ho'. assert (o' = o) as -> by congruence. congruence. }
  unfold o_imamemberofyou.
  destruct (modify_grows everyone (set_members (λ l, l ++ [object])) s)
    as (s1 & g1 & -> & _ & Hg1 & Hgr1); [apply set_members_grows|done|]. simpl.
  destruct (modify_grows authenticatedusers (set_members (λ l, l ++ [object])) s1)
    as (s2 & g2 & -> & _ & Hg2 & Hgr2);
    [apply set_members_grows|by eapply membership_grows_valid|]. simpl.
  destruct (modify_grows object
              (set_memberof (λ l, l ++ [everyone; authenticatedusers])) s2)
    as (s3 & o3 & -> & _ & Ho3 & Hgr3);
    [apply set_memberof_grows|by eapply membership_grows_valid, membership_grows_valid|].
  exists s3. split; [done|]. split.
  { eapply membership_grows_trans; [|exact Hgr3].
    eapply membership_grows_trans; [exact Hgr1|exact Hgr2]. }
  intros _ _ _.
  assert (Hmine : ∀ grp, grp ∈ [everyone; authenticatedusers] →
                         ∃ x, heap s3 !! object = Some x ∧ grp ∈ memberof x).
  { intros grp Hin. eexists. split; [exact Ho3|]. simpl. apply elem_of_app. by right. }
  split; (split; [apply Hmine; set_solver|]).
  - destruct (Hgr2 _ _ Hg1) as (x2 & Hx2 & _ & _ & Hsub2).
    destruct (Hgr3 _ _ Hx2) as (x3 & Hx3 & _ & _ & Hsub3).
    exists x3. split; [done|]. apply Hsub3, Hsub2. simpl. set_solver.
  - destruct (Hgr3 _ _ Hg2) as (x3 & Hx3 & _ & _ & Hsub3).
    exists x3. split; [done|]. apply Hsub3. simpl. set_solver.
Qed.

(** The body of the loop on one object. *)
Lemma preprocessObject_spec (everyone authenticatedusers object : ptr) (s : World) :
  MemberOf_grows →
  everyone < length (heap s) → authenticatedusers < length (heap s) →
  object < length (heap s) →
  ∃ s', preprocessObject everyone authenticatedusers object s = Ok s'
    ∧ membership_grows s s'
    ∧ ∀ o', heap s' !! object = Some o' → isPrincipalType (o_Type o') = true →
        member_of (heap s') object everyone
        ∧ member_of (heap s') object authenticatedusers.
Proof.
  intros Hm He Ha Ho. unfold preprocessObject. simpl.
  pose proof (Hm object s) as Hgr1. set (s1 := o_MemberOf object s) in *.
  destruct (specialGroups_spec everyone authenticatedusers object s1)
    as (s2 & -> & Hgr2 & Hmem); [by eapply membership_grows_valid..|]. simpl.
  destruct (good_forM object (metaAttributes object ++ [specialObjects object])
              (λ step, step)) with (s := s2) as (s' & Hs' & Hgr3).
  { intros step [Hin|Hin%list_elem_of_singleton]%elem_of_app.
    - by apply good_metaAttributes.
    - subst step. apply good_specialObjects. }
  { by eapply membership_grows_valid, membership_grows_valid. }
  exists s'. split; [exact Hs'|]. split.
  { eapply membership_grows_trans; [|exact Hgr3].
    eapply membership_grows_trans; [exact Hgr1|exact Hgr2]. }
  intros o' Ho' Hty.
  assert (Ho1 : object < length (heap s1)) by by eapply membership_grows_valid.
  apply lookup_lt_is_Some in Ho1 as [o1 Ho1].
  destruct (Hgr2 _ _ Ho1) as (o2 & Ho2 & Hty2 & _).
  destruct (Hgr3 _ _ Ho2) as (o3 & Ho3 & Hty3 & _).
  assert (o3 = o') as -> by congruence.
  destruct (Hmem o1 Ho1) as [M1 M2]; [congruence|].
  split; by eapply member_of_grows.
Qed.

(** The loop over an enumeration of the objects. *)
Lemma preprocess_loop (everyone authenticatedusers : ptr) (objects : list ptr) (w : World) :
  MemberOf_grows →
  everyone < length (heap w) → authenticatedusers < length (heap w) →
  Forall (λ p, p < length (heap w)) objects →
  ∃ w', forM_ objects (preprocessObject everyone authenticatedusers) w = Ok w'
    ∧ membership_grows w w'
    ∧ ∀ p o', p ∈ objects → heap w' !! p = Some o' →
        isPrincipalType (o_Type o') = true →
        member_of (heap w') p everyone ∧ member_of (heap w') p authenticatedusers.
Proof.
  intros Hm. revert w. induction objects as [|q l IH]; intros w He Ha Hall; simpl.
  - exists w. split; [done|]. split; [apply membership_grows_refl|].
    by intros p o' ?%elem_of_nil.
  - apply Forall_cons in Hall as [Hq Hl].
    destruct (preprocessObject_spec everyone authenticatedusers q w Hm He Ha Hq)
      as (w1 & -> & Hgr1 & Hmem1). simpl.
    destruct (IH w1) as (w' & -> & Hgr' & Hmem').
    { by eapply membership_grows_valid. }
    { by eapply membership_grows_valid. }
    { eapply Forall_impl; [exact Hl|]. simpl. intros.
      by eapply membership_grows_valid. }
    exists w'. split; [done|]. split; [by eapply membership_grows_trans|].
    intros p o' [->|Hin]%elem_of_cons Ho' Hty; [|by eapply Hmem'].
    assert (Hq1 : q < length (heap w1)) by by eapply membership_grows_valid.
    apply lookup_lt_is_Some in Hq1 as [o1 Ho1].
    destruct (Hgr' _ _ Ho1) as (o2 & Ho2 & Hty2 & _).
    assert (o2 = o') as -> by congruence.
    destruct (Hmem1 o1 Ho1) as [M1 M2]; [congruence|].
    split; by eapply member_of_grows.
Qed.

Lemma AsArray_valid (w : World) :
  store_wf w → Forall (λ p, p < length (heap w)) (AsArray w).
Proof.
  intros [Hdn _]. apply Forall_forall. unfold AsArray.
  intros p ([dn p'] & -> & Hin%elem_of_map_to_list)%list_elem_of_fmap.
  exact (Hdn _ _ Hin).
Qed.

Lemma FindOrAddSID_keeps (s s' : SID) (w : World) (p : ptr) :
  FindSID w s' = Some p → FindSID (FindOrAddSID s w).2 s' = Some p.
Proof.
  intros Hp. unfold FindOrAddSID. destruct (FindSID w s) eqn:E; simpl; [done|].
  unfold FindSID in *. simpl. rewrite lookup_insert_ne; [done|congruence].
Qed.

(** C7. The pre-processing pass completes, every object of the store is
    still there after it with its type, and every object of the enumeration
    whose type is User, Computer or ManagedServiceAccount is a member of
    the two groups the store resolves S-1-1-0 and S-1-5-11 to: both groups
    are in the object's [memberof] and the object is in the [members] of
    both, whatever its group-membership attributes say. *)
Theorem principals_join_the_universal_groups (w : World) :
  MemberOf_grows → store_wf w →
  ∃ everyone authenticatedusers w1 w2 w',
    FindOrAddSID (SIDFromString "S-1-1-0").1 w = (everyone, w1)
    ∧ FindOrAddSID (SIDFromString "S-1-5-11").1 w1 = (authenticatedusers, w2)
    ∧ FindSID w2 (SIDFromString "S-1-1-0").1 = Some everyone
    ∧ FindSID w2 (SIDFromString "S-1-5-11").1 = Some authenticatedusers
    ∧ Preprocess w = Ok w'
    ∧ membership_grows w2 w'
    ∧ ∀ p, p ∈ AsArray w2 →
        ∃ o o', heap w2 !! p = Some o ∧ heap w' !! p = Some o' ∧ o_Type o' = o_Type o
          ∧ (o_Type o' = ObjectTypeUser ∨ o_Type o' = ObjectTypeComputer
             ∨ o_Type o' = ObjectTypeManagedServiceAccount →
             member_of (heap w') p everyone ∧ member_of (heap w') p authenticatedusers).
Proof.
  intros Hm Hwf. unfold Preprocess.
  pose proof (FindOrAddSID_resolves (SIDFromString "S-1-1-0").1 w) as Hr1.
  pose proof (FindOrAddSID_wf (SIDFromString "S-1-1-0").1 w Hwf) as Hwf1.
  pose proof (FindOrAddSID_valid (SIDFromString "S-1-1-0").1 w Hwf) as Hv1.
  destruct (FindOrAddSID (SIDFromString "S-1-1-0").1 w) as [everyone w1] eqn:E1.
  simpl in Hr1, Hwf1, Hv1.
  pose proof (FindOrAddSID_resolves (SIDFromString "S-1-5-11").1 w1) as Hr2.
  pose proof (FindOrAddSID_wf (SIDFromString "S-1-5-11").1 w1 Hwf1) as Hwf2.
  pose proof (FindOrAddSID_valid (SIDFromString "S-1-5-11").1 w1 Hwf1) as Hv2.
  pose proof (FindOrAddSID_keeps (SIDFromString "S-1-5-11").1 _ w1 _ Hr1) as Hk.
  pose proof (FindOrAddSID_extends (SIDFromString "S-1-5-11").1 w1) as Hext%extends_length.
  destruct (FindOrAddSID (SIDFromString "S-1-5-11").1 w1) as [authenticatedusers w2] eqn:E2.
  simpl in Hr2, Hwf2, Hv2, Hk, Hext.
  destruct (preprocess_loop everyone authenticatedusers (AsArray w2) w2)
    as (w' & Hrun & Hgrows & Hmem); [done|lia|done|by apply AsArray_valid|].
  exists everyone, authenticatedusers, w1, w2, w'.
  do 6 (split; [done|]).
  intros p Hin.
  assert (Hp : p < length (heap w2)).
  { by apply (proj1 (Forall_forall _ _) (AsArray_valid w2 Hwf2)). }
  apply lookup_lt_is_Some in Hp as [o Ho].
  destruct (Hgrows p o Ho) as (o' & Ho' & Hty & _).
  exists o, o'. do 3 (split; [done|]).
  intros Hprincipal. eapply Hmem; [done..|]. by apply isPrincipalType_spec.
Qed.

(** ** Adding to the store *)

Lemma Add_Ok (o : Object) (w w' : World) (p : ptr) :
  Add o w = Ok (p, w') ↔
  dnmap (AllObjects w) !! DistinguishedName o = None
  ∧ p = length (heap w)
  ∧ w' = set_AllObjects (λ os,
            mkObjects (<[DistinguishedName o := length (heap w)]> (dnmap os))
                      (if decide (o_SID o = "") then sidmap os
                       else <[o_SID o := length (heap w)]> (sidmap os)))
           (set_heap (λ h, h ++ [o]) w).
Proof.
  unfold Add. destruct (dnmap (AllObjects w) !! DistinguishedName o); split.
  - discriminate.
  - by intros (? & _).
  - by intros [= <- <-].
  - by intros (_ & -> & ->).
Qed.

Lemma Add_fresh (o : Object) (w : World) :
  dnmap (AllObjects w) !! DistinguishedName o = None →
  ∃ w', Add o w = Ok (length (heap w), w')
    ∧ heap w' = heap w ++ [o]
    ∧ dnmap (AllObjects w') = <[DistinguishedName o := length (heap w)]> (dnmap (AllObjects w)).
Proof. intros Hdn. eexists. split; [by apply Add_Ok|done]. Qed.

Lemma app_cons_snoc {X} (l : list X) (x : X) (k : list X) : l ++ x :: k = (l ++ [x]) ++ k.
Proof. by rewrite <-app_assoc. Qed.

(** ** Loading *)

(** One turn of the loop: decode, then add, stop or give up. *)
Lemma LoadObjects_loop (importall : bool) (d : Reader) (w : World) :
  LoadObjects importall d w
  = match DecodeMsg d with
    | (inl rawObject, d') =>
        '(_, w') ← Add (ToObject rawObject importall) w; LoadObjects importall d' w'
    | (inr err, _) =>
        if decide (Cause err = io_EOF) then Ok w else Fatal "Problem decoding object"
    end.
Proof. by destruct d as [|[rawObject|err] d']. Qed.

Lemma LoadObjects_tail (importall : bool) (records : list RawObject) (tail : Reader)
    (w : World) :
  ends_in_EOF tail →
  LoadObjects importall ((inl <$> records) ++ tail) w
  = LoadObjects importall (inl <$> records) w.
Proof.
  intros Htail. revert w. induction records as [|r rest IH]; intros w; simpl.
  - destruct Htail as [->|(err & more & -> & Hc)]; [done|]. simpl.
    by rewrite decide_True.
  - destruct (Add (ToObject r importall) w) as [[p w1]|msg]; simpl; [apply IH|done].
Qed.

Lemma LoadObjects_records (importall : bool) (records : list RawObject) (w : World) :
  fresh_names ((λ r, ToObject r importall) <$> records) w →
  ∃ w', LoadObjects importall (inl <$> records) w = Ok w'
    ∧ heap w' = heap w ++ ((λ r, ToObject r importall) <$> records)
    ∧ dnmap (AllObjects w) ⊆ dnmap (AllObjects w')
    ∧ ∀ i r, records !! i = Some r →
        dnmap (AllObjects w') !! DistinguishedName (ToObject r importall)
        = Some (length (heap w) + i).
Proof.
  revert w. induction records as [|r rest IH]; intros w [Hnd Hfresh]; simpl.
  - exists w. split; [done|]. split; [by rewrite app_nil_r|]. split; [done|].
    by intros i r ?.
  - simpl in Hnd, Hfresh. apply NoDup_cons in Hnd as [Hr Hnd].
    apply Forall_cons in Hfresh as [Hdn Hfresh].
    destruct (Add_fresh _ w Hdn) as (w1 & -> & Hheap1 & Hdn1). simpl.
    destruct (IH w1) as (w' & Hrun & Hheap' & Hsub & Hidx).
    { split; [done|]. rewrite Hdn1. apply Forall_forall. intros o Ho.
      rewrite lookup_insert_ne.
      - by apply (proj1 (Forall_forall _ _) Hfresh).
      - intros Heq. apply Hr. rewrite Heq. by apply list_elem_of_fmap_2. }
    exists w'. split; [exact Hrun|]. split; [by rewrite Hheap', Hheap1, <-app_assoc|].
    split.
    { etrans; [|exact Hsub]. rewrite Hdn1. by apply insert_subseteq. }
    intros [|i] r' Hi; simpl in Hi.
    + injection Hi as <-. rewrite Nat.add_0_r.
      eapply lookup_weaken; [|exact Hsub]. rewrite Hdn1. apply lookup_insert_eq.
    + rewrite (Hidx i r' Hi), Hheap1, length_app. simpl. f_equal. lia.
Qed.

(** The complete records at the head of a stream are read first. *)
Lemma LoadObjects_app (importall : bool) (records : list RawObject) (tail : Reader)
    (w w1 : World) :
  LoadObjects importall (inl <$> records) w = Ok w1 →
  LoadObjects importall ((inl <$> records) ++ tail) w = LoadObjects importall tail w1.
Proof.
  revert w. induction records as [|r rest IH]; intros w; simpl.
  - by intros [= ->].
  - destruct (Add (ToObject r importall) w) as [[p w2]|msg]; simpl; [apply IH|done].
Qed.

(** A decode error of any other cause ends the process. *)
Lemma load_fails_on_other_errors (importall : bool) (err : MsgpError) (rest : Reader)
    (w : World) :
  Cause err ≠ io_EOF →
  LoadObjects importall (inr err :: rest) w = Fatal "Problem decoding object".
Proof. intros Hc. simpl. by rewrite decide_False. Qed.

(** C8. A cache file is read record by record in stream order, and the
    complete records at its head are all added to the store, in order.
    After them the load ends normally at the end of the stream, be it the
    clean end or a last record cut short in which the decoder runs into
    [io.EOF]; a decode error of any other cause, as a last record cut
    inside one of its values gives, ends the process. *)
Theorem load_reads_records_until_end_of_stream (importall : bool)
    (records : list RawObject) (tail : Reader) (w : World) :
  fresh_names ((λ r, ToObject r importall) <$> records) w →
  ∃ w1, LoadObjects importall (inl <$> records) w = Ok w1
    ∧ heap w1 = heap w ++ ((λ r, ToObject r importall) <$> records)
    ∧ (∀ i r, records !! i = Some r →
         dnmap (AllObjects w1) !! DistinguishedName (ToObject r importall)
         = Some (length (heap w) + i))
    ∧ LoadObjects importall ((inl <$> records) ++ tail) w = LoadObjects importall tail w1
    ∧ (ends_in_EOF tail →
       LoadObjects importall ((inl <$> records) ++ tail) w = Ok w1)
    ∧ (∀ err rest, tail = inr err :: rest → Cause err ≠ io_EOF →
         LoadObjects importall ((inl <$> records) ++ tail) w
         = Fatal "Problem decoding object").
Proof.
  intros Hfresh.
  destruct (LoadObjects_records importall records w Hfresh) as (w1 & Hrun & Hheap & _ & Hidx).
  exists w1. do 3 (split; [done|]).
  pose proof (LoadObjects_app importall records tail w w1 Hrun) as Happ.
  split; [exact Happ|]. split.
  - intros Htail. by rewrite LoadObjects_tail.
  - intros err rest -> Hcause. rewrite Happ. by apply load_fails_on_other_errors.
Qed.

(** ** The known SIDs *)

Lemma knownObject_SID (name : string) (binsid : SID) :
  o_SID (knownObject name binsid) = binsid.
Proof.
  unfold o_SID, o_Attr, knownObject. simpl.
  rewrite lookup_insert_ne by done. by rewrite lookup_insert_eq.
Qed.

Lemma Add_wf (o : Object) (w w' : World) (p : ptr) :
  store_wf w → Add o w = Ok (p, w') → store_wf w'.
Proof.
  intros [Hd Hs] (_ & _ & ->)%Add_Ok. unfold store_wf. simpl.
  rewrite length_app. simpl. split.
  - apply map_Forall_insert_2; [lia|].
    eapply map_Forall_impl; [exact Hd|]. simpl. intros. lia.
  - destruct (decide (o_SID o = "")).
    + eapply map_Forall_impl; [exact Hs|]. simpl. intros. lia.
    + apply map_Forall_insert_2; [lia|].
      eapply map_Forall_impl; [exact Hs|]. simpl. intros. lia.
Qed.

(** One entry of the table. *)
Lemma addKnownSID_Ok (sid name : string) (binsid : SID) (w w' : World) :
  SIDFromString sid = (binsid, false) → binsid ≠ "" →
  addKnownSID (sid, name) w = Ok w' →
  (is_Some (FindSID w binsid) ∧ w' = w)
  ∨ (FindSID w binsid = None
     ∧ heap w' = heap w ++ [knownObject name binsid]
     ∧ dnmap (AllObjects w) ⊆ dnmap (AllObjects w')
     ∧ sidmap (AllObjects w') = <[binsid := length (heap w)]> (sidmap (AllObjects w))
     ∧ (store_wf w → store_wf w')).
Proof.
  intros Hparse Hne. unfold addKnownSID. rewrite Hparse.
  destruct (FindSID w binsid) as [p|] eqn:Hfind.
  - intros [= <-]. left. eauto.
  - intros ([p w1] & Hadd & [= <-])%bind_Ok. right.
    split; [done|]. split; [|split; [|split]].
    4:{ intros Hwf. by eapply Add_wf. }
    all: apply Add_Ok in Hadd as (Hdn & _ & ->); simpl.
    + done.
    + by apply insert_subseteq.
    + rewrite knownObject_SID. by rewrite decide_False.
Qed.

Lemma addKnownSID_present (sid name : string) (binsid : SID) (w : World) :
  SIDFromString sid = (binsid, false) → is_Some (FindSID w binsid) →
  addKnownSID (sid, name) w = Ok w.
Proof. intros Hparse [p Hp]. unfold addKnownSID. by rewrite Hparse, Hp. Qed.

Lemma adds_known_refl (l : list (string * string)) (w : World) : adds_known l w w.
Proof. exists []. split; [by rewrite app_nil_r|constructor]. Qed.

(** The loop over a part [l] of the table. *)
Lemma addKnown_loop (l : list (string * string)) (w w' : World) :
  (∀ sid name, (sid, name) ∈ l → ∃ binsid, SIDFromString sid = (binsid, false) ∧ binsid ≠ "") →
  forM_ l addKnownSID w = Ok w' →
  adds_known l w w'
  ∧ dnmap (AllObjects w) ⊆ dnmap (AllObjects w')
  ∧ sidmap (AllObjects w) ⊆ sidmap (AllObjects w')
  ∧ (∀ e, e ∈ l → is_Some (FindSID w' (SIDFromString e.1).1))
  ∧ (store_wf w → store_wf w').
Proof.
  revert w. induction l as [|[sid name] l IH]; intros w Hparse; simpl.
  - intros [= <-]. split; [apply adds_known_refl|]. do 2 (split; [done|]).
    split; [by intros e ?%elem_of_nil|done].
  - intros (w1 & Hstep & Hrest)%bind_Ok.
    destruct (Hparse sid name) as (binsid & Hsid & Hne); [by left|].
    destruct (IH w1) as ((new' & Hheap' & Hnew') & Hdn' & Hsm' & Hres' & Hwf');
      [intros s n Hin; apply (Hparse s n); by right|done|].
    assert (Hfst : (SIDFromString sid).1 = binsid) by by rewrite Hsid.
    destruct (addKnownSID_Ok sid name binsid w w1 Hsid Hne Hstep)
      as [[Hfound ->]|(Hmiss & Hheap1 & Hdn1 & Hsm1 & Hwf1)].
    + split.
      { exists new'. split; [done|]. eapply Forall_impl; [exact Hnew'|]. simpl.
        intros o (e & He & Ho). exists e. split; [by right|done]. }
      do 2 (split; [done|]). split; [|done].
      intros e [->|He]%elem_of_cons; [|by apply Hres'].
      simpl. rewrite Hfst. destruct Hfound as [p Hp]. exists p.
      eapply lookup_weaken; [exact Hp|exact Hsm'].
    + assert (Hsub1 : sidmap (AllObjects w) ⊆ sidmap (AllObjects w1)).
      { rewrite Hsm1. by apply insert_subseteq. }
      split.
      { exists (knownObject name binsid :: new'). split.
        - by rewrite Hheap', Hheap1, <-app_assoc.
        - constructor.
          + exists (sid, name). simpl. rewrite Hfst. split; [by left|done].
          + eapply Forall_impl; [exact Hnew'|]. simpl.
            intros o (e & He & Ho & Hnone). exists e. split; [by right|].
            split; [done|]. unfold FindSID in *.
            eapply lookup_weaken_None; [exact Hnone|exact Hsub1]. }
      split; [by etrans|]. split; [by etrans|]. split; [|auto].
      intros e [->|He]%elem_of_cons; [|by apply Hres'].
      simpl. rewrite Hfst. exists (length (heap w)).
      eapply lookup_weaken; [|exact Hsm']. rewrite Hsm1. apply lookup_insert_eq.
Qed.

Lemma addKnown_completes (l : list (string * string)) (w : World) :
  (∀ sid name, (sid, name) ∈ l → ∃ binsid, SIDFromString sid = (binsid, false) ∧ binsid ≠ "") →
  names_free l w →
  ∃ w', forM_ l addKnownSID w = Ok w'.
Proof.
  revert w. induction l as [|[sid name] l IH]; intros w Hparse [Hnd Hfree]; simpl.
  - by exists w.
  - rewrite fmap_cons in Hnd. apply NoDup_cons in Hnd as [Hhd Hnd].
    apply Forall_cons in Hfree as [Hdn Hfree].
    destruct (Hparse sid name) as (binsid & Hsid & Hne); [by left|].
    assert (Hparse' : ∀ s n, (s, n) ∈ l →
              ∃ b, SIDFromString s = (b, false) ∧ b ≠ "").
    { intros s n Hin. apply (Hparse s n). by right. }
    simpl in Hdn, Hhd. rewrite Hsid in Hdn. simpl in Hdn.
    unfold addKnownSID. rewrite Hsid.
    destruct (FindSID w binsid) as [p|] eqn:Hfind; simpl.
    + apply IH; [done|]. by split.
    + destruct Hdn as [[? [=]]|Hdn].
      destruct (Add_fresh (knownObject name binsid) w Hdn) as (w1 & Hadd & Hheap1 & Hdn1).
      rewrite Hadd. simpl. apply IH; [done|]. split; [done|].
      pose proof Hadd as (_ & _ & Hw1)%Add_Ok.
      apply Forall_forall. intros e He.
      destruct (proj1 (Forall_forall _ _) Hfree e He) as [[q Hq]|Hq].
      * left. exists q. subst w1. unfold FindSID in *. simpl.
        destruct (decide (o_SID (knownObject name binsid) = "")); [done|].
        rewrite lookup_insert_ne; [done|].
        rewrite knownObject_SID. intros Heq. rewrite <-Heq in Hq. congruence.
      * right. rewrite Hdn1, lookup_insert_ne; [done|].
        intros Heq. apply Hhd. apply list_elem_of_fmap. by exists e.
Qed.

(** C10. The known-SID step adds a placeholder for a well-known SID only
    when that SID does not resolve in the store.  For an entry whose SID
    resolves, the iteration leaves the world as it is.  Over the whole table
    the objects there were stay as they were, both indexes keep every entry
    they had, every object added is the placeholder of an entry whose SID
    did not resolve before, and afterwards every well-known SID resolves to
    an object.  The step completes when the placeholders have distinct
    names and the name of every placeholder it has to add is free. *)
Theorem known_SIDs_are_added_only_when_missing (w : World) :
  knownsids_parse →
  (∀ e v, e ∈ knownsids → is_Some (FindSID v (SIDFromString e.1).1) →
          addKnownSID e v = Ok v)
  ∧ (names_free knownsids w → ∃ w', AddKnownSIDs w = Ok w')
  ∧ ∀ w', AddKnownSIDs w = Ok w' →
      adds_known knownsids w w'
      ∧ dnmap (AllObjects w) ⊆ dnmap (AllObjects w')
      ∧ sidmap (AllObjects w) ⊆ sidmap (AllObjects w')
      ∧ (∀ e p, e ∈ knownsids → FindSID w (SIDFromString e.1).1 = Some p →
           FindSID w' (SIDFromString e.1).1 = Some p
           ∧ ∀ o, heap w !! p = Some o → heap w' !! p = Some o)
      ∧ (∀ e, e ∈ knownsids →
           ∃ p, FindSID w' (SIDFromString e.1).1 = Some p
                ∧ (store_wf w → p < length (heap w'))).
Proof.
  intros Hparse. split; [|split].
  - intros [sid name] v Hin Hfound. simpl in Hfound.
    destruct (Hparse sid name Hin) as (binsid & Hsid & _).
    eapply addKnownSID_present; [exact Hsid|]. by rewrite Hsid in Hfound.
  - intros Hfresh. by apply addKnown_completes.
  - intros w' Hrun.
    destruct (addKnown_loop knownsids w w' Hparse Hrun)
      as (Hadds & Hdn & Hsm & Hres & Hwf).
    split; [done|]. do 2 (split; [done|]). split.
    + intros e p He Hp. split; [by eapply lookup_weaken|].
      destruct Hadds as (new & -> & _). apply lookup_app_l_Some.
    + intros e He. destruct (Hres e He) as [p Hp]. exists p. split; [done|].
      intros Hw. destruct (Hwf Hw) as [_ Hs]. exact (Hs _ _ Hp).
Qed.

End Proofs.

(** * The properties on the small directory *)

Lemma demo_analyzers_extend : analyzers_extend (H := Demo.externals).
Proof.
  intros id p w res w' Hrun. simpl in Hrun. unfold Demo.analyzers in Hrun.
  destruct id as [|id], p as [|p]; injection Hrun as _ <-; apply extends_refl.
Qed.

Lemma demo_MemberOf_grows : MemberOf_grows (H := Demo.externals).
Proof. intros p w. apply membership_grows_refl. Qed.

Lemma demo_knownsids_parse : knownsids_parse (H := Demo.externals).
Proof.
  intros sid name Hin. simpl in Hin.
  repeat (apply elem_of_cons in Hin as [[= -> ->]|Hin]); [..|by apply elem_of_nil in Hin];
    eexists; (split; [reflexivity|discriminate]).
Qed.

Lemma demo_w0_analyzed : Analyze Demo.w0 = Ok Demo.w0_analyzed.
Proof. vm_compute. reflexivity. Qed.

Lemma demo_w1_analyzed : Analyze Demo.w1 = Ok Demo.w1_analyzed.
Proof. vm_compute. reflexivity. Qed.

Lemma demo_w2_analyzed : Analyze Demo.w2 = Ok Demo.w2_analyzed.
Proof. vm_compute. reflexivity. Qed.

Lemma demo_w3_analyzed : Analyze Demo.w3 = Ok Demo.w3_analyzed.
Proof. vm_compute. reflexivity. Qed.

Lemma demo_no_edges (os : list Object) (analyzers : list PwnAnalyzer) :
  Forall (λ o, CanPwn o = [] ∧ PwnableBy o = []) os →
  no_edges (heap (Demo.world os analyzers)).
Proof. done. Qed.

(** C1, as the specification words it, fails: analyzer 0 returns alice
    (object 1) for System (object 0) and alice is not skipped, yet after the
    pass System's [CanPwn] does not name alice. *)
Lemma spec_direction_counterexample :
  callAnalyzer (ObjectAnalyzer Demo.analyzer0) 0 Demo.w0 = Ok ([1], Demo.w0)
  ∧ not_skipped (heap Demo.w0) 0 1
  ∧ Analyze Demo.w0 = Ok Demo.w0_analyzed
  ∧ ¬ spec_direction (heap Demo.w0_analyzed) Demo.method0 0 1.
Proof.
  split; [reflexivity|]. split.
  { split; [done|]. exists "S-1-5-18", "S-1-5-21-7-1105". by vm_compute. }
  split; [apply demo_w0_analyzed|].
  intros [(o & Ho & Hin) _]. vm_compute in Ho. injection Ho as <-.
  by apply elem_of_nil in Hin.
Qed.

(** C1 (amended) on the small directory: alice, returned for System, ends
    up holding the edge. *)
Lemma counterpart_holds_the_edge_witness :
  callAnalyzer (ObjectAnalyzer Demo.analyzer0) 0 Demo.w0 = Ok ([1], Demo.w0)
  ∧ 0 < length (heap Demo.w0)
  ∧ Forall (λ q, q < length (heap Demo.w0)) [1]
  ∧ ∃ w', runAnalyzer 0 Demo.analyzer0 Demo.w0 = Ok w'
      ∧ canPwn_edge (heap w') 1 Demo.method0 0
      ∧ pwnableBy_edge (heap w') 0 Demo.method0 1.
Proof.
  assert (Hcall : callAnalyzer (ObjectAnalyzer Demo.analyzer0) 0 Demo.w0 = Ok ([1], Demo.w0))
    by reflexivity.
  assert (Hobj : 0 < length (heap Demo.w0)) by (simpl; lia).
  assert (Hall : Forall (λ q, q < length (heap Demo.w0)) [1])
    by (repeat constructor; simpl; lia).
  split; [exact Hcall|]. split; [exact Hobj|]. split; [exact Hall|].
  destruct (counterpart_holds_the_edge Demo.analyzer0 0 Demo.w0 Demo.w0 [1] Hcall Hobj Hall)
    as [_ (w' & Hrun & Hedges)].
  exists w'. split; [exact Hrun|]. apply Hedges; [by left|].
  split; [done|]. exists "S-1-5-18", "S-1-5-21-7-1105". by vm_compute.
Defined.

(** C2, as the specification words it, fails: after the pass alice's
    [CanPwn] names System, a controlled principal with an exempted SID. *)
Lemma controlled_exempt_counterexample :
  Analyze Demo.w0 = Ok Demo.w0_analyzed
  ∧ ¬ controlled_never_exempt (heap Demo.w0_analyzed).
Proof.
  split; [apply demo_w0_analyzed|]. intros Hclaim.
  assert (Hedge : canPwn_edge (heap Demo.w0_analyzed) 1 Demo.method0 0).
  { eexists. split; [reflexivity|]. by left. }
  specialize (Hclaim 1 Demo.method0 0 "S-1-5-18" (or_introl Hedge) eq_refl).
  by vm_compute in Hclaim.
Qed.

Lemma exempt_principals_hold_no_edge_witness :
  no_edges (heap Demo.w0)
  ∧ analyzeObjects (AsArray Demo.w0) Demo.w0 = Ok Demo.w0_analyzed
  ∧ ∀ s m t a,
      canPwn_edge (heap Demo.w0_analyzed) s m t
      ∨ pwnableBy_edge (heap Demo.w0_analyzed) t m s →
      sid_at (heap Demo.w0_analyzed) s = Some a → exemptSID a = false.
Proof.
  assert (Hno : no_edges (heap Demo.w0)) by (by repeat constructor).
  split; [exact Hno|]. split; [exact demo_w0_analyzed|].
  exact (exempt_principals_hold_no_edge (AsArray Demo.w0) Demo.w0 Demo.w0_analyzed
           demo_analyzers_extend Hno demo_w0_analyzed).
Defined.

Lemma edge_symmetry_witness :
  no_edges (heap Demo.w1)
  ∧ analyzeObjects (AsArray Demo.w1) Demo.w1 = Ok Demo.w1_analyzed
  ∧ ∀ s m t, canPwn_edge (heap Demo.w1_analyzed) s m t
             ↔ pwnableBy_edge (heap Demo.w1_analyzed) t m s.
Proof.
  assert (Hno : no_edges (heap Demo.w1)) by (by repeat constructor).
  split; [exact Hno|]. split; [exact demo_w1_analyzed|].
  exact (edge_symmetry (AsArray Demo.w1) Demo.w1 Demo.w1_analyzed
           demo_analyzers_extend Hno demo_w1_analyzed).
Defined.

(** The two records of alice, with one SID, stay unlinked although analyzer
    0 returns the one for the other. *)
Lemma no_edge_between_equal_SIDs_witness :
  no_edges (heap Demo.w3)
  ∧ analyzeObjects (AsArray Demo.w3) Demo.w3 = Ok Demo.w3_analyzed
  ∧ callAnalyzer (ObjectAnalyzer Demo.analyzer0) 0 Demo.w3 = Ok ([1], Demo.w3)
  ∧ ¬ canPwn_edge (heap Demo.w3_analyzed) 1 Demo.method0 0
  ∧ ¬ pwnableBy_edge (heap Demo.w3_analyzed) 0 Demo.method0 1.
Proof.
  assert (Hno : no_edges (heap Demo.w3)) by (by repeat constructor).
  split; [exact Hno|]. split; [exact demo_w3_analyzed|]. split; [reflexivity|].
  destruct (no_edge_between_equal_SIDs (AsArray Demo.w3) Demo.w3 Demo.w3_analyzed
              demo_analyzers_extend Hno demo_w3_analyzed) as [Hsid _].
  split.
  - apply (Hsid 1 0 Demo.method0). reflexivity.
  - apply (Hsid 0 1 Demo.method0). reflexivity.
Defined.

(** Two schema entries without SID stay unlinked although analyzer 0
    returns the one for the other. *)
Lemma no_edge_between_objects_without_SID_witness :
  no_edges (heap Demo.w2)
  ∧ analyzeObjects (AsArray Demo.w2) Demo.w2 = Ok Demo.w2_analyzed
  ∧ callAnalyzer (ObjectAnalyzer Demo.analyzer0) 0 Demo.w2 = Ok ([1], Demo.w2)
  ∧ ¬ canPwn_edge (heap Demo.w2_analyzed) 1 Demo.method0 0
  ∧ ¬ pwnableBy_edge (heap Demo.w2_analyzed) 0 Demo.method0 1.
Proof.
  assert (Hno : no_edges (heap Demo.w2)) by (by repeat constructor).
  split; [exact Hno|]. split; [exact demo_w2_analyzed|]. split; [reflexivity|].
  destruct (no_edge_between_objects_without_SID (AsArray Demo.w2) Demo.w2 Demo.w2_analyzed
              demo_analyzers_extend Hno demo_w2_analyzed) as [Hsid _].
  split.
  - apply (Hsid 1 0 Demo.method0); [done|reflexivity..].
  - apply (Hsid 0 1 Demo.method0); [done|reflexivity..].
Defined.

(** On [ws1] the LAPS analyzer returns alice, whom the one matching entry
    names. *)
Lemma LAPS_emits_the_reader_witness :
  heap Demo.w1 !! 1 = Some Demo.ws1
  ∧ LAPS_ObjectAnalyzer Demo.guidLAPS 1 Demo.w1 = Ok ([0], Demo.w1).
Proof.
  split; [reflexivity|].
  destruct (LAPS_emits_the_reader Demo.guidLAPS 1 Demo.w1 Demo.ws1 eq_refl) as [_ Hone].
  destruct (Hone (mkSD (mkACL [Demo.aceAlice])) [] Demo.aceAlice []) as [Hrun _].
  - reflexivity.
  - discriminate.
  - reflexivity.
  - reflexivity.
  - by repeat split.
  - constructor.
  - exact Hrun.
Defined.


(** The descriptor as it is decodes to its one entry, and the analyzer then
    returns alice for [ws3] and nothing for [ws4]. *)
Example descriptor_decodes :
  ParseSecurityDescriptor Blob.descriptor
  = inl (mkDescriptor "" "" None
           (Some (mkACL [mkACE 5 16 Blob.sidAlice Demo.guidLAPS])))
  ∧ extent Blob.descriptor = 76%N.
Proof. by vm_compute. Qed.

Example descriptor_gives_the_reader :
  LAPS_ObjectAnalyzer (H := Blob.externals) Demo.guidLAPS 1 Blob.w = Ok ([0], Blob.w)
  ∧ LAPS_ObjectAnalyzer (H := Blob.externals) Demo.guidLAPS 2 Blob.w = Ok ([], Blob.w).
Proof. split; vm_compute; reflexivity. Qed.

Lemma demo_store_wf (os : list Object) (analyzers : list PwnAnalyzer) :
  store_wf (Demo.world os analyzers).
Proof.
  assert (Hidx : ∀ (f : Object → string) k p,
            (list_to_map (imap (λ i o, (f o, i)) os) : gmap string nat) !! k = Some p →
            p < length os).
  { intros f k p Hk%elem_of_list_to_map_2.
    apply elem_of_lookup_imap_1 in Hk as (i & o & [= -> ->] & Hi).
    by eapply lookup_lt_Some. }
  split; intros k p Hk; simpl in *; by eapply Hidx.
Qed.

(** Alice and the two workstations: the pass completes on them, and alice,
    a User, is in the two groups, which the pass creates as objects 3 and
    4. *)
Lemma principals_join_the_universal_groups_witness :
  store_wf Demo.w1
  ∧ ∃ w', Preprocess Demo.w1 = Ok w'
      ∧ (∃ alice, heap w' !! 0 = Some alice ∧ o_Type alice = ObjectTypeUser)
      ∧ member_of (heap w') 0 3 ∧ member_of (heap w') 0 4.
Proof.
  split; [apply demo_store_wf|].
  destruct (principals_join_the_universal_groups Demo.w1 demo_MemberOf_grows
              (demo_store_wf _ _))
    as (everyone & authenticatedusers & w1 & w2 & w' & E1 & E2 & _ & _ & Hrun & _ & Hmem).
  exists w'. split; [exact Hrun|].
  pose proof (f_equal fst E1) as Hev. pose proof (f_equal snd E1) as Hw1.
  simpl in Hev, Hw1. subst w1.
  pose proof (f_equal fst E2) as Hau. pose proof (f_equal snd E2) as Hw2.
  simpl in Hau, Hw2. subst w2.
  vm_compute in Hev. vm_compute in Hau. subst everyone authenticatedusers.
  destruct (Hmem 0) as (o & o' & Ho & Ho' & Hty & Hgroups).
  { apply (bool_decide_unpack (0 ∈ AsArray _)). by vm_compute. }
  vm_compute in Ho. injection Ho as <-.
  assert (Huser : o_Type o' = ObjectTypeUser) by (rewrite Hty; reflexivity).
  split; [exists o'; split; [exact Ho'|exact Huser]|]. apply Hgroups. left. exact Huser.
Defined.

(** From the schema entry to the edge: the pre-processing pass registers the
    LAPS analyzer, and the evaluation pass then records that alice (object
    1) can read the password of her workstation (object 2). *)
Example demo_w4_edges :
  PwnAnalyzers Demo.w4_analyzed
  = [mkPwnAnalyzer PwnReadLAPSPassword (LAPSAnalyzer Demo.guidLAPS)]
  ∧ (λ o, (CanPwn o, PwnableBy o)) <$> heap Demo.w4_analyzed
    = [([], []);
       ([mkPwnInfo PwnReadLAPSPassword 2], []);
       ([], [mkPwnInfo PwnReadLAPSPassword 1]);
       ([], []); ([], [])].
Proof. vm_compute. split; reflexivity. Qed.

(** They join Everyone and Authenticated Users, which the pass creates as
    objects 3 and 4. *)
Example demo_w1_memberships :
  (λ o, (memberof o, members o)) <$> heap (Demo.outcome (Preprocess Demo.w1))
  = [([3; 4], []); ([3; 4], []); ([3; 4], []); ([], [1; 2; 0]); ([], [1; 2; 0])].
Proof. vm_compute. reflexivity. Qed.

(** C8, as the specification words it, fails: after alice's record, a
    record cut inside a value is met as an unexpected EOF, and the load ends
    the process instead of ending normally. *)
Lemma truncated_record_counterexample :
  cut_short Extra.cutInValue
  ∧ LoadObjects false [inl Demo.rawAlice; inr Extra.cutInValue] Demo.emptyWorld
    = Fatal "Problem decoding object"
  ∧ ¬ truncation_ends_the_load false [Demo.rawAlice] Extra.cutInValue Demo.emptyWorld.
Proof.
  assert (Hcut : cut_short Extra.cutInValue) by (by right).
  assert (Hrun : LoadObjects false [inl Demo.rawAlice; inr Extra.cutInValue] Demo.emptyWorld
                 = Fatal "Problem decoding object") by reflexivity.
  split; [exact Hcut|]. split; [exact Hrun|].
  intros Hclaim. destruct (Hclaim Hcut) as [w' Hw'].
  change ((inl <$> [Demo.rawAlice]) ++ [inr Extra.cutInValue])
    with ([inl Demo.rawAlice; inr Extra.cutInValue] : Reader) in Hw'.
  rewrite Hrun in Hw'. discriminate.
Qed.

(** C8 (amended): two records and a third one cut short where the decoder
    meets [io.EOF] load as the two records alone; cut inside a value, the
    third one ends the process. *)
Lemma load_reads_records_until_end_of_stream_witness :
  fresh_names ((λ r, ToObject r false) <$> [Demo.rawAlice; Demo.rawBob]) Demo.emptyWorld
  ∧ ends_in_EOF [inr Demo.cutShort]
  ∧ (∃ w', LoadObjects false [inl Demo.rawAlice; inl Demo.rawBob; inr Demo.cutShort]
                       Demo.emptyWorld = Ok w'
       ∧ heap w' = [ToObject Demo.rawAlice false; ToObject Demo.rawBob false])
  ∧ LoadObjects false [inl Demo.rawAlice; inl Demo.rawBob; inr Extra.cutInValue]
                Demo.emptyWorld = Fatal "Problem decoding object".
Proof.
  assert (Hfresh : fresh_names ((λ r, ToObject r false) <$> [Demo.rawAlice; Demo.rawBob])
                     Demo.emptyWorld).
  { split.
    - apply (bool_decide_unpack (NoDup _)). by vm_compute.
    - by repeat constructor. }
  assert (Htail : ends_in_EOF [inr Demo.cutShort]).
  { right. by exists Demo.cutShort, []. }
  split; [exact Hfresh|]. split; [exact Htail|]. split.
  - destruct (load_reads_records_until_end_of_stream false [Demo.rawAlice; Demo.rawBob]
                [inr Demo.cutShort] Demo.emptyWorld Hfresh)
      as (w1 & _ & Hheap & _ & _ & Hend & _).
    exists w1. split; [exact (Hend Htail)|exact Hheap].
  - destruct (load_reads_records_until_end_of_stream false [Demo.rawAlice; Demo.rawBob]
                [inr Extra.cutInValue] Demo.emptyWorld Hfresh)
      as (w1 & _ & _ & _ & _ & _ & Hfatal).
    apply (Hfatal Extra.cutInValue []); [reflexivity|discriminate].
Defined.

(** On System and alice the step adds Everyone and Authenticated Users and
    leaves System, which is there, alone. *)
Lemma known_SIDs_are_added_only_when_missing_witness :
  knownsids_parse
  ∧ ∃ w', AddKnownSIDs Demo.w0 = Ok w'
      ∧ FindSID w' "S-1-5-18" = Some 0
      ∧ heap w' !! 0 = Some Demo.system
      ∧ ∀ e, e ∈ knownsids → is_Some (FindSID w' (SIDFromString e.1).1).
Proof.
  split; [exact demo_knownsids_parse|].
  destruct (known_SIDs_are_added_only_when_missing Demo.w0 demo_knownsids_parse)
    as (_ & Hcompletes & Hafter).
  destruct Hcompletes as [w' Hrun].
  { split.
    - apply (bool_decide_unpack (NoDup _)). by vm_compute.
    - apply Forall_cons. split; [right; by vm_compute|].
      apply Forall_cons. split; [right; by vm_compute|].
      apply Forall_cons. split; [left; by exists 0|]. by apply Forall_nil. }
  destruct (Hafter w' Hrun) as (_ & _ & _ & Hkept & Hres).
  exists w'. split; [exact Hrun|].
  destruct (Hkept ("S-1-5-18", "System") 0) as [Hfind Hobj];
    [set_solver|reflexivity|].
  split; [exact Hfind|]. split; [by apply Hobj|].
  intros e He. destruct (Hres e He) as (p & Hp & _). by exists p.
Defined.

(** * Further properties *)

Section MoreProofs.
Context `{Externals}.

(** ** The evaluation pass: completion, frame and counter *)

(** X1. On a store whose indexes point into the heap, with analyzers that
    return objects of the heap, the evaluation pass runs to its end: no
    counterpart it dereferences is nil. *)
Theorem Analyze_completes (w : World) :
  analyzers_extend → analyzers_return → store_wf w →
  ∃ w', Analyze w = Ok w'.
Proof.
  intros Hext Hret Hwf. unfold Analyze.
  apply analyzeObjects_completes; [done..|]. by apply AsArray_valid.
Qed.

Lemma edges_appended_refl (w : World) : edges_appended w w.
Proof. intros p o Hp. exists o. by repeat split. Qed.

Lemma edges_appended_trans (w1 w2 w3 : World) :
  edges_appended w1 w2 → edges_appended w2 w3 → edges_appended w1 w3.
Proof.
  intros H12 H23 p o Hp.
  destruct (H12 p o Hp) as (o2 & Hp2 & Hdn2 & Hat2 & Hmo2 & Hme2 & Hc2 & Hb2).
  destruct (H23 p o2 Hp2) as (o3 & Hp3 & Hdn3 & Hat3 & Hmo3 & Hme3 & Hc3 & Hb3).
  exists o3. split; [done|]. do 4 (split; [congruence|]).
  split; by etrans.
Qed.

Lemma extends_edges_appended (w w' : World) : extends w w' → edges_appended w w'.
Proof.
  intros Hext p o Hp. exists o. split; [by eapply extends_lookup|]. by repeat split.
Qed.

Lemma recordPwn_edges_appended (m : PwnMethod) (object pwnobject : ptr) (w w' : World) :
  recordPwn m object pwnobject w = Ok w' → edges_appended w w'.
Proof.
  intros [->|(o & po & Hne & Ho & Hpo & _ & _ & ->)]%recordPwn_Ok;
    [apply edges_appended_refl|].
  intros p x Hp. simpl.
  change (<[object:=set_PwnableBy (λ l, l ++ [mkPwnInfo m pwnobject]) o]>
            (<[pwnobject:=set_CanPwn (λ l, l ++ [mkPwnInfo m object]) po]> (heap w)))
    with (addedEdge m object pwnobject o po (heap w)).
  destruct (decide (p = object)) as [->|Hp1]; [|destruct (decide (p = pwnobject)) as [->|Hp2]].
  - eexists. split; [by apply added_lookup_object|].
    assert (x = o) as -> by congruence. simpl. do 4 (split; [done|]).
    split; [done|]. by apply prefix_app_r.
  - eexists. split; [by apply added_lookup_pwnobject|].
    assert (x = po) as -> by congruence. simpl. do 4 (split; [done|]).
    split; [by apply prefix_app_r|done].
  - exists x. split; [by rewrite added_lookup_other|]. by repeat split.
Qed.

(** X2. The evaluation pass changes nothing but the edge lists, and those
    only by appending: every object there was keeps its name, attributes and
    memberships, and the entries its [CanPwn] and [PwnableBy] had stay, in
    place, at the head of the lists. *)
Theorem analysis_only_appends_edges (objects : list ptr) (w w' : World) :
  analyzers_extend → analyzeObjects objects w = Ok w' → edges_appended w w'.
Proof.
  intros Hext. unfold analyzeObjects.
  apply (forM_invariant (λ s, edges_appended w s)); [|apply edges_appended_refl].
  intros object s1 s2 _ Hs1. unfold analyzeObject.
  apply (forM_invariant (λ s, edges_appended w s)); [|done].
  intros analyzer t1 t2 _ Ht1. unfold runAnalyzer.
  intros ([res t] & Hcall & Hloop)%bind_Ok.
  revert Hloop. apply (forM_invariant (λ s, edges_appended w s)).
  - intros p u1 u2 _ Hu1 Hrec. eapply edges_appended_trans; [exact Hu1|].
    by eapply recordPwn_edges_appended.
  - eapply edges_appended_trans; [exact Ht1|].
    by eapply extends_edges_appended, callAnalyzer_extends.
Qed.

(** X4. The consistency of the edge lists is kept by the pass from any
    consistent store, not only from one without edges: a pass over a store
    that was analysed before leaves the lists mirrored and free of edges
    between equal SIDs or held by an exempted SID. *)
Theorem analysis_keeps_edges_consistent (objects : list ptr) (w w' : World) :
  analyzers_extend → edges_ok (heap w) → analyzeObjects objects w = Ok w' →
  (∀ s m t, canPwn_edge (heap w') s m t ↔ pwnableBy_edge (heap w') t m s)
  ∧ (∀ s m t, canPwn_edge (heap w') s m t →
       ∃ a b, sid_at (heap w') s = Some a ∧ sid_at (heap w') t = Some b
              ∧ a ≠ b ∧ exemptSID a = false).
Proof.
  intros Hext Hok Hrun.
  by destruct (analyzeObjects_edges_ok objects w w' Hext Hok Hrun).
Qed.

Lemma sum_list_with_insert {X} (f : X → nat) (h : list X) (i : nat) (x y : X) :
  h !! i = Some x →
  sum_list_with f (<[i := y]> h) + f x = sum_list_with f h + f y.
Proof.
  revert i. induction h as [|z h IH]; intros [|i] Hi; simpl in *; try done.
  - injection Hi as ->. lia.
  - specialize (IH i Hi). lia.
Qed.

Lemma count_addedEdge (m : PwnMethod) (object pwnobject : ptr) (o po : Object)
    (h : list Object) :
  pwnobject ≠ object → h !! object = Some o → h !! pwnobject = Some po →
  countCanPwn (addedEdge m object pwnobject o po h) = S (countCanPwn h)
  ∧ countPwnableBy (addedEdge m object pwnobject o po h) = S (countPwnableBy h).
Proof.
  intros Hne Ho Hpo. unfold addedEdge, countCanPwn, countPwnableBy.
  assert (Ho' : <[pwnobject:=set_CanPwn (λ l, l ++ [mkPwnInfo m object]) po]> h !! object
                = Some o) by by rewrite list_lookup_insert_ne.
  pose proof (sum_list_with_insert (λ x, length (CanPwn x)) _ _ _
                (set_PwnableBy (λ l, l ++ [mkPwnInfo m pwnobject]) o) Ho') as E1.
  pose proof (sum_list_with_insert (λ x, length (CanPwn x)) _ _ _
                (set_CanPwn (λ l, l ++ [mkPwnInfo m object]) po) Hpo) as E2.
  pose proof (sum_list_with_insert (λ x, length (PwnableBy x)) _ _ _
                (set_PwnableBy (λ l, l ++ [mkPwnInfo m pwnobject]) o) Ho') as E3.
  pose proof (sum_list_with_insert (λ x, length (PwnableBy x)) _ _ _
                (set_CanPwn (λ l, l ++ [mkPwnInfo m object]) po) Hpo) as E4.
  simpl in E1, E2, E3, E4. rewrite length_app in E2, E3. simpl in E2, E3. lia.
Qed.

Lemma count_no_edges (h : list Object) :
  no_edges h → countCanPwn h = 0 ∧ countPwnableBy h = 0.
Proof.
  unfold countCanPwn, countPwnableBy.
  induction 1 as [|o h [Hc Hb] _ [IH1 IH2]]; simpl; [done|].
  by rewrite Hc, Hb, IH1, IH2.
Qed.

Lemma count_extends (w w' : World) :
  extends w w' →
  countCanPwn (heap w') = countCanPwn (heap w)
  ∧ countPwnableBy (heap w') = countPwnableBy (heap w).
Proof.
  intros (new & -> & Hnew). destruct (count_no_edges new Hnew) as [E1 E2].
  unfold countCanPwn, countPwnableBy in *. rewrite !sum_list_with_app. lia.
Qed.

Lemma counted_refl (w : World) (n : nat) : counted w n w n.
Proof. by split. Qed.

Lemma counted_trans (w1 w2 w3 : World) (n1 n2 n3 : nat) :
  counted w1 n1 w2 n2 → counted w2 n2 w3 n3 → counted w1 n1 w3 n3.
Proof. unfold counted. lia. Qed.

(** One counterpart, with the counter: the world is the one [recordPwn]
    gives, and the counter moves with the edge lists. *)
Lemma recordPwnCounting_sound (m : PwnMethod) (object pwnobject : ptr)
    (w w' : World) (n n' : nat) :
  recordPwnCounting m object pwnobject (w, n) = Ok (w', n') →
  recordPwn m object pwnobject w = Ok w' ∧ counted w n w' n'.
Proof.
  unfold recordPwnCounting, recordPwn.
  destruct (deref w object) as [o|] eqn:Ho; simpl; [|done].
  case_bool_decide as Hne; [intros [= <- <-]; split; [done|apply counted_refl]|].
  destruct (deref w pwnobject) as [po|] eqn:Hpo; simpl; [|done].
  case_bool_decide as Hsid; [intros [= <- <-]; split; [done|apply counted_refl]|].
  destruct (exemptSID (o_SID po)); [intros [= <- <-]; split; [done|apply counted_refl]|].
  destruct (modify pwnobject _ w) as [w1|] eqn:E1; simpl; [|done].
  destruct (modify object _ w1) as [w2|] eqn:E2; simpl; [|done].
  intros [= <- <-]. split; [done|].
  apply modify_Ok in E1 as (po' & Hpo' & ->). apply modify_Ok in E2 as (o' & Ho' & ->).
  apply deref_Ok in Ho, Hpo. simpl in Ho'.
  rewrite list_lookup_insert_ne in Ho' by done.
  assert (po' = po) as -> by congruence. assert (o' = o) as -> by congruence.
  destruct (count_addedEdge m object pwnobject o po (heap w) Hne Ho Hpo) as [E1 E2].
  unfold counted, addedEdge in *. simpl. lia.
Qed.

Lemma recordPwnCounting_complete (m : PwnMethod) (object pwnobject : ptr)
    (w w' : World) (n : nat) :
  recordPwn m object pwnobject w = Ok w' →
  ∃ n', recordPwnCounting m object pwnobject (w, n) = Ok (w', n').
Proof.
  unfold recordPwnCounting, recordPwn.
  destruct (deref w object) as [o|]; simpl; [|done].
  case_bool_decide; [intros [= <-]; eauto|].
  destruct (deref w pwnobject) as [po|]; simpl; [|done].
  case_bool_decide; [intros [= <-]; eauto|].
  destruct (exemptSID (o_SID po)); [intros [= <-]; eauto|].
  destruct (modify pwnobject _ w) as [w1|]; simpl; [|done].
  destruct (modify object _ w1) as [w2|]; simpl; [|done].
  intros [= <-]. eauto.
Qed.

(** A loop with the counter against the loop without it. *)
Lemma forM_counting_sound {X} (l : list X) (body : X → World → result World)
    (bodyC : X → World * nat → result (World * nat)) :
  (∀ x w n w' n', bodyC x (w, n) = Ok (w', n') → body x w = Ok w' ∧ counted w n w' n') →
  ∀ w n w' n', forM_ l bodyC (w, n) = Ok (w', n') →
    forM_ l body w = Ok w' ∧ counted w n w' n'.
Proof.
  intros Hbody. induction l as [|x l IH]; intros w n w' n'; simpl.
  - intros [= <- <-]. split; [done|apply counted_refl].
  - intros ([w1 n1] & Hx & Hl)%bind_Ok.
    destruct (Hbody _ _ _ _ _ Hx) as [-> Hc1]. simpl.
    destruct (IH _ _ _ _ Hl) as [-> Hc2]. split; [done|]. by eapply counted_trans.
Qed.

Lemma forM_counting_complete {X} (l : list X) (body : X → World → result World)
    (bodyC : X → World * nat → result (World * nat)) :
  (∀ x w n w', body x w = Ok w' → ∃ n', bodyC x (w, n) = Ok (w', n')) →
  ∀ w n w', forM_ l body w = Ok w' → ∃ n', forM_ l bodyC (w, n) = Ok (w', n').
Proof.
  intros Hbody. induction l as [|x l IH]; intros w n w'; simpl.
  - intros [= <-]. eauto.
  - intros (w1 & Hx & Hl)%bind_Ok.
    destruct (Hbody _ _ n _ Hx) as [n1 ->]. simpl. by apply IH.
Qed.

Lemma runAnalyzerCounting_sound (object : ptr) (analyzer : PwnAnalyzer)
    (w w' : World) (n n' : nat) :
  analyzers_extend →
  runAnalyzerCounting object analyzer (w, n) = Ok (w', n') →
  runAnalyzer object analyzer w = Ok w' ∧ counted w n w' n'.
Proof.
  intros Hext. unfold runAnalyzerCounting, runAnalyzer.
  intros ([res w1] & Hcall & Hloop)%bind_Ok. rewrite Hcall. simpl.
  destruct (forM_counting_sound res (recordPwn (AnalyzerMethod analyzer) object)
              (recordPwnCounting (AnalyzerMethod analyzer) object)) with w1 n w' n'
    as [-> Hc]; [intros; by apply recordPwnCounting_sound|done|].
  split; [done|].
  destruct (count_extends w w1) as [E1 E2]; [by eapply callAnalyzer_extends|].
  unfold counted in *. lia.
Qed.

Lemma runAnalyzerCounting_complete (object : ptr) (analyzer : PwnAnalyzer)
    (w w' : World) (n : nat) :
  runAnalyzer object analyzer w = Ok w' →
  ∃ n', runAnalyzerCounting object analyzer (w, n) = Ok (w', n').
Proof.
  unfold runAnalyzerCounting, runAnalyzer.
  intros ([res w1] & -> & Hloop)%bind_Ok. simpl.
  eapply forM_counting_complete; [|exact Hloop].
  intros. by apply recordPwnCounting_complete.
Qed.

(** X3. The counter [pwnlinks] the pass reports is the number of edges it
    recorded: started on a store without edges, the pass with the counter
    ends in the same world as the pass without it, and the counter equals
    both the number of [CanPwn] entries and the number of [PwnableBy] entries
    in the store. *)
Theorem pwnlinks_counts_the_edges (objects : list ptr) (w : World) :
  analyzers_extend → no_edges (heap w) →
  (∀ w' pwnlinks,
     analyzeObjectsCounting objects w = Ok (w', pwnlinks) →
     analyzeObjects objects w = Ok w'
     ∧ pwnlinks = countCanPwn (heap w') ∧ pwnlinks = countPwnableBy (heap w'))
  ∧ (∀ w', analyzeObjects objects w = Ok w' →
       ∃ pwnlinks, analyzeObjectsCounting objects w = Ok (w', pwnlinks)).
Proof.
  intros Hext Hno. split.
  - intros w' n Hrun. unfold analyzeObjectsCounting in Hrun.
    destruct (forM_counting_sound objects analyzeObject analyzeObjectCounting)
      with w 0 w' n as [Hw' [Hc Hb]]; [|done|].
    + intros object v k v' k' Hobj. unfold analyzeObjectCounting in Hobj. simpl in Hobj.
      unfold analyzeObject. revert Hobj. apply forM_counting_sound.
      intros. by apply runAnalyzerCounting_sound.
    + split; [done|]. destruct (count_no_edges _ Hno) as [E1 E2]. lia.
  - intros w' Hrun. unfold analyzeObjectsCounting.
    eapply forM_counting_complete; [|exact Hrun].
    intros object v k v' Hobj. unfold analyzeObjectCounting. simpl.
    eapply forM_counting_complete; [|exact Hobj].
    intros. by apply runAnalyzerCounting_complete.
Qed.

(** ** The LAPS analyzer on any descriptor *)

Lemma laps_scan_keeps (g : UUID) (entries : list ACE) (results : list ptr) (w : World)
    (s : SID) (p : ptr) :
  FindSID w s = Some p → FindSID (laps_scan g entries results w).2 s = Some p.
Proof.
  revert results w. induction entries as [|acl rest IH]; intros results w Hp; simpl; [done|].
  destruct (laps_entry_matches g acl); [|by apply IH].
  pose proof (FindOrAddSID_keeps (ace_SID acl) s w p Hp) as Hk.
  destruct (FindOrAddSID (ace_SID acl) w) as [q w1]. by apply IH.
Qed.

Lemma laps_scan_spec (g : UUID) (entries : list ACE) (results : list ptr) (w : World) :
  ∃ new, (laps_scan g entries results w).1 = results ++ new
    ∧ Forall2 (λ acl p, FindSID (laps_scan g entries results w).2 (ace_SID acl) = Some p)
              (filter (grants_read g) entries) new.
Proof.
  revert results w. induction entries as [|acl rest IH]; intros results w; simpl.
  - exists []. split; [by rewrite app_nil_r|constructor].
  - destruct (laps_entry_matches g acl) eqn:E.
    + apply laps_entry_matches_spec in E. rewrite filter_cons_True by done.
      pose proof (FindOrAddSID_resolves (ace_SID acl) w) as Hr.
      destruct (FindOrAddSID (ace_SID acl) w) as [p w1]. simpl in Hr.
      destruct (IH (results ++ [p]) w1) as (new & Hres & Hall).
      exists (p :: new). split; [by rewrite Hres, <-app_assoc|].
      constructor; [by apply laps_scan_keeps|done].
    + rewrite filter_cons_False; [apply IH|].
      intros Hg%laps_entry_matches_spec. congruence.
Qed.

Lemma laps_scan_resolved (g : UUID) (entries : list ACE) (results : list ptr) (w : World) :
  Forall (λ acl, grants_read g acl → is_Some (FindSID w (ace_SID acl))) entries →
  (laps_scan g entries results w).2 = w.
Proof.
  intros Hall. revert results.
  induction Hall as [|acl rest Hacl _ IH]; intros results; simpl; [done|].
  destruct (laps_entry_matches g acl) eqn:E; [|apply IH].
  apply laps_entry_matches_spec in E. destruct (Hacl E) as [p Hp].
  rewrite (FindOrAddSID_found _ _ _ Hp). apply IH.
Qed.

(** X5. On a computer under LAPS whose descriptor decodes, the analyzer
    returns one counterpart for every DACL entry that grants the read, in the
    order of the entries and without merging repeated SIDs; each counterpart
    is the object the SID of its entry resolves to afterwards.  The store
    only gains placeholders, and stays as it is when those SIDs all
    resolved before. *)
Theorem LAPS_one_counterpart_per_granting_entry (g : UUID) (o : ptr) (w : World)
    (obj : Object) (sd : SecurityDescriptor) :
  heap w !! o = Some obj →
  o_Type obj = ObjectTypeComputer →
  o_Attr obj MSmcsAdmPwdExpirationTime ≠ [] →
  o_SecurityDescriptor obj = inl sd →
  ∃ res w', LAPS_ObjectAnalyzer g o w = Ok (res, w')
    ∧ Forall2 (λ acl p, FindSID w' (ace_SID acl) = Some p)
              (filter (grants_read g) (Entries (DACL sd))) res
    ∧ extends w w'
    ∧ (Forall (λ acl, grants_read g acl → is_Some (FindSID w (ace_SID acl)))
              (Entries (DACL sd)) → w' = w).
Proof.
  intros Ho Hty Hattr Hsd.
  rewrite (LAPS_guards g o w obj Ho Hty Hattr), Hsd.
  destruct (laps_scan_spec g (Entries (DACL sd)) [] w) as (new & Hres & Hall).
  pose proof (laps_scan_extends g (Entries (DACL sd)) [] w) as Hext.
  pose proof (laps_scan_resolved g (Entries (DACL sd)) [] w) as Hsame.
  destruct (laps_scan g (Entries (DACL sd)) [] w) as [res w']. simpl in *. subst res.
  by exists new, w'.
Qed.

Lemma specialObjects_same_heap (object : ptr) (w : World)
    (o : Object) :
  heap w !! object = Some o →
  ∃ w', specialObjects object w = Ok w' ∧ heap w' = heap w.
Proof.
  intros Ho. unfold specialObjects, reading. apply deref_Ok in Ho as ->. simpl.
  repeat match goal with
         | |- context [if ?b then _ else _] => destruct b
         | |- context [let '(_, _) := ?p in _] => destruct p
         end; by eexists.
Qed.

(** X6. The pre-processing pass registers the LAPS analyzer for an object
    exactly when the object is not a control access right, is an attribute
    schema entry whose GUID decodes, and is named ms-Mcs-AdmPwd; it then
    appends one analyzer for the byte-swapped GUID, once more each time such
    an entry is met.  In every case the step completes and leaves the heap
    and the store indexes alone. *)
Theorem LAPS_registered_exactly_for_its_schema_entry (object : ptr) (w : World)
    (o : Object) :
  heap w !! object = Some o →
  ∃ w', specialObjects object w = Ok w'
    ∧ heap w' = heap w ∧ AllObjects w' = AllObjects w
    ∧ (is_LAPS_schema o →
       PwnAnalyzers w'
       = PwnAnalyzers w
         ++ [mkPwnAnalyzer PwnReadLAPSPassword
               (LAPSAnalyzer
                  (SwapUUIDEndianess (uuid_FromBytes (o_OneAttr o (A "schemaIDGUID"))).1))])
    ∧ (¬ is_LAPS_schema o → PwnAnalyzers w' = PwnAnalyzers w).
Proof.
  intros Ho. unfold specialObjects, reading, is_LAPS_schema.
  apply deref_Ok in Ho as ->. simpl.
  destruct (o_HasAttrValue o ObjectClass "controlAccessRight").
  { destruct (uuid_FromString _) as [u []]; eexists; (split; [reflexivity|]);
      simpl; repeat split; try done; intros (? & _); done. }
  destruct (o_HasAttrValue o ObjectClass "attributeSchema").
  - destruct (uuid_FromBytes (o_OneAttr o (A "schemaIDGUID"))) as [guid []]; simpl.
    + eexists. split; [reflexivity|]. repeat split; try done. intros (_ & _ & ? & _). done.
    + destruct (decide (o_OneAttr o Name = "ms-Mcs-AdmPwd")) as [Hname|Hname].
      * eexists. split; [reflexivity|]. simpl. repeat split; try done.
        intros Hnot. destruct Hnot. by repeat split.
      * eexists. split; [reflexivity|]. simpl. repeat split; try done.
        intros (_ & _ & _ & ?). done.
  - destruct (o_HasAttrValue o ObjectClass "classSchema");
      [destruct (uuid_FromBytes _) as [u []]|]; eexists; (split; [reflexivity|]);
      simpl; repeat split; try done; intros (_ & ? & _); done.
Qed.

(** ** The pre-processing pass writes derived attributes only *)

Lemma attrs_kept_refl (K : Attribute → Prop) (s : World) : attrs_kept K s s.
Proof. split; [done|]. intros x o Hx. exists o. by repeat split. Qed.

Lemma attrs_kept_trans (K : Attribute → Prop) (s1 s2 s3 : World) :
  attrs_kept K s1 s2 → attrs_kept K s2 s3 → attrs_kept K s1 s3.
Proof.
  intros [L12 H12] [L23 H23]. split; [congruence|]. intros x o Hx.
  destruct (H12 x o Hx) as (o2 & Hx2 & Hdn2 & Hc2 & Hb2 & Ha2).
  destruct (H23 x o2 Hx2) as (o3 & Hx3 & Hdn3 & Hc3 & Hb3 & Ha3).
  exists o3. split; [done|]. do 3 (split; [congruence|]).
  intros a Ha. by rewrite Ha3, Ha2.
Qed.

Lemma attrs_kept_weaken (K K' : Attribute → Prop) (s s' : World) :
  (∀ a, K a → K' a) → attrs_kept K' s s' → attrs_kept K s s'.
Proof.
  intros HK [L Hk]. split; [done|]. intros x o Hx.
  destruct (Hk x o Hx) as (o' & Hx' & Hdn & Hc & Hb & Ha).
  exists o'. repeat split; try done. intros a Hka. by apply Ha, HK.
Qed.

Lemma attrs_kept_same_heap (K : Attribute → Prop) (s s' : World) :
  heap s' = heap s → attrs_kept K s s'.
Proof.
  intros Hh. split; [by rewrite Hh|]. intros x o Hx. exists o. rewrite Hh.
  by repeat split.
Qed.

Lemma attrs_kept_type (s s' : World) (x : ptr) (o o' : Object) :
  attrs_kept (λ a, isMeta a = false) s s' →
  heap s !! x = Some o → heap s' !! x = Some o' → o_Type o' = o_Type o.
Proof.
  intros [_ Hk] Hx Hx'. destruct (Hk x o Hx) as (o2 & Hx2 & _ & _ & _ & Ha).
  assert (o2 = o') as -> by congruence.
  unfold o_Type, o_Attr. by rewrite !Ha.
Qed.

Lemma modify_kept (K : Attribute → Prop) (p : ptr) (f : Object → Object) (s : World) :
  (∀ o, DistinguishedName (f o) = DistinguishedName o
        ∧ CanPwn (f o) = CanPwn o ∧ PwnableBy (f o) = PwnableBy o
        ∧ ∀ a, K a → Attributes (f o) !! a = Attributes o !! a) →
  p < length (heap s) →
  ∃ s' o, modify p f s = Ok s' ∧ heap s !! p = Some o ∧ heap s' !! p = Some (f o)
          ∧ attrs_kept K s s'.
Proof.
  intros Hf Hp. pose proof Hp as [o Ho]%lookup_lt_is_Some.
  exists (set_heap (λ h, <[p := f o]> h) s), o.
  split; [apply modify_Ok; eauto|]. split; [done|]. simpl.
  split; [by apply list_lookup_insert_eq|].
  split; [simpl; by rewrite length_insert|].
  intros q oq Hq. simpl. destruct (decide (q = p)) as [->|Hne].
  - exists (f o). rewrite list_lookup_insert_eq by done.
    assert (oq = o) as -> by congruence. split; [done|apply Hf].
  - exists oq. rewrite list_lookup_insert_ne by done. by repeat split.
Qed.

Lemma keeps_Ok (K : Attribute → Prop) (object : ptr) : keeps K object Ok.
Proof. intros s _. exists s. split; [done|apply attrs_kept_refl]. Qed.

Lemma keeps_SetAttr (K : Attribute → Prop) (object : ptr) (a : Attribute) (v : string) :
  ¬ K a → keeps K object (o_SetAttr object a v).
Proof.
  intros Ha s Hs. unfold o_SetAttr.
  destruct (modify_kept K object (set_Attributes (λ m, <[a := [v]]> m)) s)
    as (s' & o & Hm & _ & _ & Hk); [|done|by exists s'].
  intros o. simpl. repeat split. intros b Hb.
  rewrite lookup_insert_ne; [done|]. by intros ->.
Qed.

Lemma keeps_when (K : Attribute → Prop) (object : ptr) (b : bool)
    (f : World → result World) :
  keeps K object f → keeps K object (when_ b f).
Proof. intros Hf. destruct b; [done|apply keeps_Ok]. Qed.

Lemma keeps_reading (K : Attribute → Prop) (object : ptr)
    (f : Object → World → result World) :
  (∀ o, keeps K object (f o)) → keeps K object (reading object f).
Proof.
  intros Hf s Hs. unfold reading. pose proof Hs as [o Ho]%lookup_lt_is_Some.
  apply deref_Ok in Ho as ->. simpl. by apply Hf.
Qed.

Lemma keeps_forM {X} (K : Attribute → Prop) (object : ptr) (l : list X)
    (body : X → World → result World) :
  (∀ x, x ∈ l → keeps K object (body x)) → keeps K object (forM_ l body).
Proof.
  intros Hbody s Hs.
  destruct (forM_completes (λ t, attrs_kept K s t) l body) with (s := s)
    as (s' & Hs' & Hk); [|apply attrs_kept_refl|by exists s'].
  intros x t Hx Hst.
  destruct (Hbody x Hx t) as (t' & Ht' & Hk); [destruct Hst as [-> _]; done|].
  exists t'. split; [done|]. by eapply attrs_kept_trans.
Qed.

(** The steps after the one that sets [MetaType]. *)
Lemma keeps_other_metaAttributes (K : Attribute → Prop) (object : ptr) :
  (∀ a, isMeta a = true → a ≠ MetaType → ¬ K a) →
  ∀ step, step ∈ tail (metaAttributes object) → keeps K object step.
Proof.
  intros HK step Hstep. unfold metaAttributes, tail in Hstep.
  repeat (apply elem_of_cons in Hstep as [->|Hstep]); [..|by apply elem_of_nil in Hstep];
    apply keeps_reading; intros o.
  - destruct (o_AttrTimestamp o LastLogonTimestamp); [|apply keeps_Ok].
    by apply keeps_SetAttr, HK.
  - destruct (o_AttrTimestamp o PwdLastSet); [|apply keeps_Ok].
    by apply keeps_SetAttr, HK.
  - by apply keeps_when, keeps_SetAttr, HK.
  - by apply keeps_when, keeps_SetAttr, HK.
  - destruct (o_AttrInt o UserAccountControl) as [uac|]; [|apply keeps_Ok].
    apply keeps_forM. intros [flag attr] Hin.
    repeat (apply elem_of_cons in Hin as [[= -> ->]|Hin]);
      [..|by apply elem_of_nil in Hin]; by apply keeps_when, keeps_SetAttr, HK.
Qed.

Lemma keeps_specialObjects (K : Attribute → Prop) (object : ptr) :
  keeps K object (specialObjects object).
Proof.
  intros s Hs. apply lookup_lt_is_Some in Hs as [o Ho].
  destruct (specialObjects_same_heap object s o Ho)
    as (s' & Hrun & Hheap). exists s'. split; [done|]. by apply attrs_kept_same_heap.
Qed.

Lemma bind_Ok_l {X Y} (a : X) (f : X → result Y) : Ok a ≫= f = f a.
Proof. reflexivity. Qed.

Lemma specialGroups_kept (K : Attribute → Prop) (everyone authenticatedusers object : ptr)
    (s : World) :
  everyone < length (heap s) → authenticatedusers < length (heap s) →
  object < length (heap s) →
  ∃ s', specialGroups everyone authenticatedusers object s = Ok s' ∧ attrs_kept K s s'.
Proof.
  intros He Ha Ho. unfold specialGroups, reading.
  pose proof Ho as [o Hobj]%lookup_lt_is_Some. apply deref_Ok in Hobj as ->. simpl.
  destruct (isPrincipalType (o_Type o)); simpl;
    [|exists s; split; [done|apply attrs_kept_refl]].
  unfold o_imamemberofyou.
  destruct (modify_kept K everyone (set_members (λ l, l ++ [object])) s)
    as (s1 & g1 & -> & _ & _ & Hk1); [done|done|]. simpl.
  pose proof Hk1 as [L1 _].
  destruct (modify_kept K authenticatedusers (set_members (λ l, l ++ [object])) s1)
    as (s2 & g2 & -> & _ & _ & Hk2); [done|by rewrite L1|]. simpl.
  pose proof Hk2 as [L2 _].
  destruct (modify_kept K object
              (set_memberof (λ l, l ++ [everyone; authenticatedusers])) s2)
    as (s3 & o3 & -> & _ & _ & Hk3); [done|by rewrite L2, L1|].
  exists s3. split; [done|].
  eapply attrs_kept_trans; [|exact Hk3]. by eapply attrs_kept_trans.
Qed.

(** X7. On one object the body of the pre-processing loop, once
    [MemberOf] has run, completes and writes derived attributes only: every
    object of the heap keeps its name, its edge lists and every attribute
    that is not one of the thirteen derived ones, no object is added, and
    the object ends with its type name, and nothing else, under the derived
    type attribute. *)
Theorem preprocessing_writes_only_derived_attributes
    (everyone authenticatedusers object : ptr) (s : World) :
  everyone < length (heap (o_MemberOf object s)) →
  authenticatedusers < length (heap (o_MemberOf object s)) →
  object < length (heap (o_MemberOf object s)) →
  ∃ s', preprocessObject everyone authenticatedusers object s = Ok s'
    ∧ attrs_kept (λ a, isMeta a = false) (o_MemberOf object s) s'
    ∧ ∃ o1 o', heap (o_MemberOf object s) !! object = Some o1
        ∧ heap s' !! object = Some o'
        ∧ o_Type o' = o_Type o1
        ∧ o_Attr o' MetaType = [ObjectTypeString (o_Type o1)].
Proof.
  set (s1 := o_MemberOf object s). intros He Ha Ho.
  set (K1 := λ a, isMeta a = false).
  set (K2 := λ a, isMeta a = false ∨ a = MetaType).
  destruct (specialGroups_kept K1 everyone authenticatedusers object s1 He Ha Ho)
    as (s2 & Hrun2 & Hk2).
  pose proof Hk2 as [L2 _].
  assert (Ho2 : object < length (heap s2)) by by rewrite L2.
  pose proof Ho as [o1 Ho1]%lookup_lt_is_Some.
  pose proof Ho2 as [o2 Hobj2]%lookup_lt_is_Some.
  pose proof (attrs_kept_type _ _ _ _ _ Hk2 Ho1 Hobj2) as Hty2.
  destruct (modify_kept K1 object
              (set_Attributes (λ m, <[MetaType := [ObjectTypeString (o_Type o2)]]> m)) s2)
    as (s3 & o2' & Hrun3 & Hobj2' & Hobj3 & Hk3); [|done|].
  { intros o. simpl. repeat split. intros b Hb.
    rewrite lookup_insert_ne; [done|]. by intros <-. }
  assert (o2' = o2) as -> by congruence.
  pose proof Hk3 as [L3 _].
  destruct (keeps_forM K2 object (tail (metaAttributes object) ++ [specialObjects object])
              (λ step, step)) with (s := s3) as (s' & Hrun' & Hk').
  { intros step [Hin|Hin%list_elem_of_singleton]%elem_of_app.
    - apply keeps_other_metaAttributes; [|done].
      intros a Hmeta Hne [Hk|Hk]; congruence.
    - subst step. apply keeps_specialObjects. }
  { by rewrite L3. }
  exists s'. split; [|split].
  - change (preprocessObject everyone authenticatedusers object s)
      with (specialGroups everyone authenticatedusers object s1
            ≫= λ t, reading object
                      (λ o, o_SetAttr object MetaType (ObjectTypeString (o_Type o))) t
                    ≫= forM_ (tail (metaAttributes object) ++ [specialObjects object])
                             (λ step, step)).
    rewrite Hrun2, bind_Ok_l. unfold reading.
    apply deref_Ok in Hobj2 as ->. rewrite bind_Ok_l.
    unfold o_SetAttr. by rewrite Hrun3, bind_Ok_l.
  - eapply attrs_kept_trans; [exact Hk2|]. eapply attrs_kept_trans; [exact Hk3|].
    eapply attrs_kept_weaken; [|exact Hk']. intros a Ha'. by left.
  - destruct Hk' as [_ Hk']. destruct (Hk' object _ Hobj3) as (o' & Ho' & _ & _ & _ & Hattr).
    exists o1, o'. split; [done|]. split; [done|]. split.
    + rewrite <-Hty2. unfold o_Type, o_Attr.
      rewrite !Hattr by (by left). simpl. by rewrite !lookup_insert_ne.
    + unfold o_Attr. rewrite Hattr by (by right). simpl.
      rewrite lookup_insert_eq. simpl. by rewrite Hty2.
Qed.

Lemma uacTable_attrs_NoDup : NoDup uacTable.*2.
Proof. apply (bool_decide_unpack (NoDup _)). by vm_compute. Qed.

(** The loop over a table of flags whose attributes are pairwise distinct. *)
Lemma uacFlag_loop (object : ptr) (uac : Z) (l : list (Z * Attribute)) (s : World)
    (o : Object) :
  NoDup l.*2 → heap s !! object = Some o →
  ∃ s' o', forM_ l (λ '(flag, attr), uacFlag object uac flag attr) s = Ok s'
    ∧ heap s' !! object = Some o'
    ∧ (∀ flag attr, (flag, attr) ∈ l →
         Attributes o' !! attr
         = if (Z.land uac flag =? 0)%Z then Attributes o !! attr else Some ["1"])
    ∧ (∀ a, a ∉ l.*2 → Attributes o' !! a = Attributes o !! a)
    ∧ (∀ x, x ≠ object → heap s' !! x = heap s !! x).
Proof.
  revert s o. induction l as [|[flag attr] l IH]; intros s o Hnd Ho; simpl.
  - exists s, o. split; [done|]. split; [done|]. split; [by intros ? ? ?%elem_of_nil|done].
  - rewrite fmap_cons in Hnd. apply NoDup_cons in Hnd as [Hattr Hnd]. simpl in Hattr.
    assert (Hstep : ∃ s1 o1, uacFlag object uac flag attr s = Ok s1
              ∧ heap s1 !! object = Some o1
              ∧ Attributes o1 !! attr
                = (if (Z.land uac flag =? 0)%Z then Attributes o !! attr else Some ["1"])
              ∧ (∀ a, a ≠ attr → Attributes o1 !! a = Attributes o !! a)
              ∧ (∀ x, x ≠ object → heap s1 !! x = heap s !! x)).
    { unfold uacFlag, when_. destruct (Z.land uac flag =? 0)%Z; simpl.
      - by exists s, o.
      - unfold o_SetAttr, modify. pose proof Ho as Hd. apply deref_Ok in Hd as ->. simpl.
        eexists _, _. split; [reflexivity|]. simpl.
        split; [apply list_lookup_insert_eq; by eapply lookup_lt_Some|]. simpl.
        split; [by rewrite lookup_insert_eq|].
        split; [intros a Ha; by rewrite lookup_insert_ne|].
        intros x Hx. by rewrite list_lookup_insert_ne. }
    destruct Hstep as (s1 & o1 & -> & Ho1 & Hhere & Hother & Hframe). simpl.
    destruct (IH s1 o1 Hnd Ho1) as (s' & o' & -> & Ho' & Hin & Hout & Hframe').
    exists s', o'. split; [done|]. split; [done|]. split; [|split].
    + intros f a [[= -> ->]|Hfa]%elem_of_cons.
      * rewrite Hout by done. exact Hhere.
      * rewrite (Hin f a Hfa), Hother; [done|].
        intros ->. apply Hattr. apply list_elem_of_fmap. by exists (f, attr).
    + intros a Ha. apply not_elem_of_cons in Ha as [Ha1 Ha2].
      by rewrite Hout, Hother.
    + intros x Hx. by rewrite Hframe', Hframe.
Qed.

(** X8. The last derived-attribute step decodes [userAccountControl] bit
    by bit: it reads the value once and, for each of the eight flags of the
    table, sets that flag's attribute to "1" when the bit is set and leaves
    it as it was otherwise; it never clears an attribute, touches no
    attribute outside the table and no other object. *)
Theorem UAC_bits_set_their_attributes (object : ptr) (uac : Z) (s : World) (o : Object) :
  heap s !! object = Some o →
  last (metaAttributes object)
  = Some (reading object (λ o,
            match o_AttrInt o UserAccountControl with
            | Some uac => forM_ uacTable (λ '(flag, attr), uacFlag object uac flag attr)
            | None => Ok
            end))
  ∧ ∃ s' o', forM_ uacTable (λ '(flag, attr), uacFlag object uac flag attr) s = Ok s'
      ∧ heap s' !! object = Some o'
      ∧ (∀ flag attr, (flag, attr) ∈ uacTable →
           Attributes o' !! attr
           = if (Z.land uac flag =? 0)%Z then Attributes o !! attr else Some ["1"])
      ∧ (∀ a, a ∉ uacTable.*2 → Attributes o' !! a = Attributes o !! a)
      ∧ (∀ x, x ≠ object → heap s' !! x = heap s !! x).
Proof.
  intros Ho. split; [reflexivity|].
  apply uacFlag_loop; [apply uacTable_attrs_NoDup|done].
Qed.

(** ** Loading: errors and several files *)

Lemma LoadObjects_through (importall : bool) (records : list RawObject) (w : World) :
  fresh_names ((λ r, ToObject r importall) <$> records) w →
  ∃ w1, LoadObjects importall (inl <$> records) w = Ok w1
    ∧ heap w1 = heap w ++ ((λ r, ToObject r importall) <$> records)
    ∧ (∀ tail, LoadObjects importall ((inl <$> records) ++ tail) w
               = LoadObjects importall tail w1)
    ∧ (∀ dn, dnmap (AllObjects w) !! dn = None →
             dn ∉ DistinguishedName <$> ((λ r, ToObject r importall) <$> records) →
             dnmap (AllObjects w1) !! dn = None).
Proof.
  revert w. induction records as [|r rest IH]; intros w [Hnd Hfresh].
  - exists w. split; [done|]. split; [by rewrite app_nil_r|]. by split.
  - rewrite !fmap_cons in Hnd. rewrite fmap_cons in Hfresh.
    apply NoDup_cons in Hnd as [Hr Hnd]. apply Forall_cons in Hfresh as [Hdn Hfresh].
    destruct (Add_fresh _ w Hdn) as (w1 & Hadd & Hheap1 & Hdn1).
    destruct (IH w1) as (w' & Hrun & Hheap' & Htail & Hnone).
    { split; [done|]. rewrite Hdn1. apply Forall_forall. intros o Ho.
      rewrite lookup_insert_ne.
      - by apply (proj1 (Forall_forall _ _) Hfresh).
      - intros Heq. apply Hr. rewrite Heq. by apply list_elem_of_fmap_2. }
    exists w'. split; [|split; [|split]].
    + rewrite fmap_cons. simpl. rewrite Hadd. exact Hrun.
    + rewrite Hheap', Hheap1, fmap_cons, <-app_assoc. done.
    + intros tail. rewrite fmap_cons. simpl. rewrite Hadd. apply Htail.
    + intros dn Hw Hnot. rewrite !fmap_cons in Hnot.
      apply not_elem_of_cons in Hnot as [Hne Hnot].
      apply Hnone; [|done]. rewrite Hdn1. by rewrite lookup_insert_ne.
Qed.

(** X9. A decode error whose cause is not [io.EOF] ends the process, also
    after records that were decoded and added before it; what follows the
    error in the stream is not read. *)
Theorem load_aborts_on_a_decode_error (importall : bool) (records : list RawObject)
    (err : MsgpError) (rest : Reader) (w : World) :
  fresh_names ((λ r, ToObject r importall) <$> records) w →
  Cause err ≠ io_EOF →
  LoadObjects importall ((inl <$> records) ++ inr err :: rest) w
  = Fatal "Problem decoding object".
Proof.
  intros Hfresh Hcause.
  destruct (LoadObjects_through importall records w Hfresh) as (w1 & _ & _ & Htail & _).
  rewrite Htail. simpl. by rewrite decide_False.
Qed.

Lemma LoadObjects_ends (importall : bool) (tail : Reader) (w : World) :
  ends_in_EOF tail → LoadObjects importall tail w = Ok w.
Proof.
  intros [->|(err & more & -> & Hc)]; [done|]. simpl. by rewrite decide_True.
Qed.

(** X10. The cache files of several domains are loaded one after the
    other into the same store: when each file is a run of complete records
    up to its end and no distinguished name occurs twice, in one file or
    across files, or is in the store already, the load completes and the
    heap gains the objects of all records, in file order and then stream
    order. *)
Theorem domains_are_loaded_one_after_the_other (importall : bool)
    (parts : list (list RawObject * Reader)) (w : World) :
  Forall (λ part, ends_in_EOF part.2) parts →
  fresh_names ((λ r, ToObject r importall) <$> concat parts.*1) w →
  ∃ w', LoadDomains importall (cacheFiles parts) w = Ok w'
    ∧ heap w' = heap w ++ ((λ r, ToObject r importall) <$> concat parts.*1).
Proof.
  revert w. induction parts as [|[records tail] parts IH]; intros w Hends Hfresh.
  - exists w. split; [done|]. by rewrite app_nil_r.
  - apply Forall_cons in Hends as [Hend Hends]. simpl in Hend.
    rewrite fmap_cons, concat_cons, fmap_app in Hfresh. simpl in Hfresh.
    destruct Hfresh as [Hnd Hfree]. rewrite fmap_app in Hnd.
    apply NoDup_app in Hnd as (Hnd1 & Hdisj & Hnd2).
    apply Forall_app in Hfree as [Hfree1 Hfree2].
    destruct (LoadObjects_through importall records w) as (w1 & Hrun & Hheap1 & Htail & Hnone);
      [by split|].
    destruct (IH w1 Hends) as (w' & Hrun' & Hheap').
    { split; [done|]. apply Forall_forall. intros o Ho. apply Hnone.
      - by apply (proj1 (Forall_forall _ _) Hfree2).
      - intros Hin. apply (Hdisj _ Hin). by apply list_elem_of_fmap_2. }
    exists w'. split.
    + unfold LoadDomains, cacheFiles. rewrite fmap_cons. simpl.
      rewrite Htail, (LoadObjects_ends _ _ _ Hend). exact Hrun'.
    + rewrite Hheap', Hheap1, fmap_cons, concat_cons, fmap_app, <-app_assoc. done.
Qed.

(** ** The known SIDs, a second time *)

Lemma addKnown_noop (l : list (string * string)) (w : World) :
  (∀ sid name, (sid, name) ∈ l → ∃ binsid, SIDFromString sid = (binsid, false) ∧ binsid ≠ "") →
  (∀ e, e ∈ l → is_Some (FindSID w (SIDFromString e.1).1)) →
  forM_ l addKnownSID w = Ok w.
Proof.
  induction l as [|[sid name] l IH]; intros Hparse Hres; [done|].
  destruct (Hparse sid name) as (binsid & Hsid & _); [by left|].
  change (forM_ ((sid, name) :: l) addKnownSID w)
    with (addKnownSID (sid, name) w ≫= forM_ l addKnownSID).
  rewrite (addKnownSID_present sid name binsid w Hsid).
  - rewrite bind_Ok_l. apply IH.
    + intros s n Hin. apply (Hparse s n). by right.
    + intros e He. apply Hres. by right.
  - specialize (Hres (sid, name)). simpl in Hres. rewrite Hsid in Hres.
    apply Hres. by left.
Qed.

(** X11. The known-SID step is idempotent: run again on the store it
    produced, it adds nothing and leaves the world as it is. *)
Theorem known_SID_step_is_idempotent (w w' : World) :
  knownsids_parse → AddKnownSIDs w = Ok w' → AddKnownSIDs w' = Ok w'.
Proof.
  intros Hparse Hrun.
  destruct (addKnown_loop knownsids w w' Hparse Hrun) as (_ & _ & _ & Hres & _).
  by apply addKnown_noop.
Qed.

(** ** The whole run *)

Lemma extends_no_edges (w w' : World) :
  extends w w' → no_edges (heap w) → no_edges (heap w').
Proof. intros (new & -> & Hnew) Hno. by apply Forall_app. Qed.

Lemma Add_no_edges (o : Object) (w w' : World) (p : ptr) :
  CanPwn o = [] ∧ PwnableBy o = [] →
  Add o w = Ok (p, w') → no_edges (heap w) → no_edges (heap w').
Proof.
  intros Ho (_ & _ & ->)%Add_Ok Hno. simpl. apply Forall_app. split; [done|].
  by apply Forall_singleton.
Qed.

Lemma LoadObjects_no_edges (importall : bool) (d : Reader) :
  ToObject_no_edges → edge_free_step (LoadObjects importall d).
Proof.
  intros Hto. induction d as [|[r|err] d IH]; intros s s'; simpl.
  - by intros [= <-].
  - intros ([p s1] & Hadd & Hrest)%bind_Ok Hno.
    eapply IH; [exact Hrest|]. by eapply Add_no_edges.
  - destruct (decide (Cause err = io_EOF)); [by intros [= <-]|done].
Qed.

Lemma edge_free_forM {X} (l : list X) (body : X → World → result World) :
  (∀ x, x ∈ l → edge_free_step (body x)) → edge_free_step (forM_ l body).
Proof.
  intros Hbody s s' Hrun Hno. revert Hrun.
  apply (forM_invariant (λ t, no_edges (heap t))); [|done].
  intros x t t' Hx Ht Hstep. by eapply Hbody.
Qed.

Lemma edge_free_modify (p : ptr) (f : Object → Object) :
  (∀ o, CanPwn (f o) = CanPwn o ∧ PwnableBy (f o) = PwnableBy o) →
  edge_free_step (modify p f).
Proof.
  intros Hf s s' (o & Ho & ->)%modify_Ok Hno. simpl.
  apply Forall_insert; [done|]. destruct (Hf o) as [-> ->].
  exact (Forall_lookup_1 _ _ _ _ Hno Ho).
Qed.

Lemma edge_free_Ok : edge_free_step Ok.
Proof. by intros s s' [= <-]. Qed.

Lemma edge_free_when (b : bool) (f : World → result World) :
  edge_free_step f → edge_free_step (when_ b f).
Proof. intros Hf. destruct b; [done|apply edge_free_Ok]. Qed.

Lemma edge_free_reading (p : ptr) (f : Object → World → result World) :
  (∀ o, edge_free_step (f o)) → edge_free_step (reading p f).
Proof.
  intros Hf s s'. unfold reading. intros (o & _ & Hrun)%bind_Ok. by apply (Hf o).
Qed.

Lemma edge_free_bind (f g : World → result World) :
  edge_free_step f → edge_free_step g → edge_free_step (λ w, f w ≫= g).
Proof.
  intros Hf Hg s s' (s1 & H1 & H2)%bind_Ok Hno. eapply Hg; [exact H2|]. by eapply Hf.
Qed.

Lemma edge_free_SetAttr (p : ptr) (a : Attribute) (v : string) :
  edge_free_step (o_SetAttr p a v).
Proof. by apply edge_free_modify. Qed.

Lemma edge_free_preprocessObject (everyone authenticatedusers object : ptr) :
  MemberOf_no_edges →
  edge_free_step (preprocessObject everyone authenticatedusers object).
Proof.
  intros Hm. unfold preprocessObject. apply edge_free_forM.
  intros step Hstep. unfold metaAttributes in Hstep. cbn [app] in Hstep.
  repeat (apply elem_of_cons in Hstep as [->|Hstep]); [..|by apply elem_of_nil in Hstep].
  - intros s s' [= <-]. apply Hm.
  - apply edge_free_reading. intros o. apply edge_free_when.
    apply (edge_free_bind (o_imamemberofyou everyone object)); [by apply edge_free_modify|].
    apply (edge_free_bind (o_imamemberofyou authenticatedusers object));
      by apply edge_free_modify.
  - apply edge_free_reading. intros o. apply edge_free_SetAttr.
  - apply edge_free_reading. intros o.
    destruct (o_AttrTimestamp o LastLogonTimestamp);
      [apply edge_free_SetAttr|apply edge_free_Ok].
  - apply edge_free_reading. intros o.
    destruct (o_AttrTimestamp o PwdLastSet); [apply edge_free_SetAttr|apply edge_free_Ok].
  - apply edge_free_reading. intros o. apply edge_free_when, edge_free_SetAttr.
  - apply edge_free_reading. intros o. apply edge_free_when, edge_free_SetAttr.
  - apply edge_free_reading. intros o.
    destruct (o_AttrInt o UserAccountControl) as [uac|]; [|apply edge_free_Ok].
    apply edge_free_forM. intros [flag attr] _. apply edge_free_when, edge_free_SetAttr.
  - intros s s' Hrun Hno. pose proof Hrun as Hrun'. unfold specialObjects, reading in Hrun'.
    apply bind_Ok in Hrun' as (o & Ho%deref_Ok & _).
    destruct (specialObjects_same_heap object s o Ho) as (t & Ht & Hheap).
    assert (t = s') as -> by congruence. by rewrite Hheap.
Qed.

Lemma edge_free_Preprocess : MemberOf_no_edges → edge_free_step Preprocess.
Proof.
  intros Hm s s'. unfold Preprocess.
  pose proof (FindOrAddSID_extends (SIDFromString "S-1-1-0").1 s) as E1.
  destruct (FindOrAddSID (SIDFromString "S-1-1-0").1 s) as [everyone s1].
  pose proof (FindOrAddSID_extends (SIDFromString "S-1-5-11").1 s1) as E2.
  destruct (FindOrAddSID (SIDFromString "S-1-5-11").1 s1) as [authenticatedusers s2].
  simpl in E1, E2. intros Hrun Hno.
  eapply (edge_free_forM (AsArray s2)); [|exact Hrun|].
  - intros. by apply edge_free_preprocessObject.
  - by eapply extends_no_edges, extends_no_edges.
Qed.

Lemma edge_free_addKnownSID (e : string * string) : edge_free_step (addKnownSID e).
Proof.
  intros s s'. destruct e as [sid name]. unfold addKnownSID.
  destruct (SIDFromString sid) as [binsid []]; [done|].
  destruct (FindSID s binsid); [by intros [= <-]|].
  intros ([p s1] & Hadd & [= <-])%bind_Ok Hno.
  eapply Add_no_edges; [|exact Hadd|exact Hno]. done.
Qed.

(** X12. From the load to the end of the evaluation pass: started on a
    store without edges, with records that bring no edges and a [MemberOf]
    that records none, a run that completes leaves the edge lists mirrored,
    and no edge between equal SIDs or held by an exempted SID, whatever the
    cache files hold and whichever analyzers the pre-processing pass
    registered on the way. *)
Theorem whole_run_leaves_consistent_edges (importall : bool) (files : list Reader)
    (w w' : World) :
  analyzers_extend → ToObject_no_edges → MemberOf_no_edges →
  no_edges (heap w) →
  LoadAndAnalyze importall files w = Ok w' →
  (∀ s m t, canPwn_edge (heap w') s m t ↔ pwnableBy_edge (heap w') t m s)
  ∧ (∀ s m t, canPwn_edge (heap w') s m t →
       ∃ a b, sid_at (heap w') s = Some a ∧ sid_at (heap w') t = Some b
              ∧ a ≠ b ∧ exemptSID a = false).
Proof.
  intros Hext Hto Hm Hno. unfold LoadAndAnalyze.
  intros (w1 & Hload & (w2 & Hknown & (w3 & Hpre & Hrun)%bind_Ok)%bind_Ok)%bind_Ok.
  assert (Hno1 : no_edges (heap w1)).
  { eapply (edge_free_forM files); [|exact Hload|done].
    intros d _. by apply LoadObjects_no_edges. }
  assert (Hno2 : no_edges (heap w2)).
  { eapply (edge_free_forM knownsids); [|exact Hknown|done].
    intros e _. apply edge_free_addKnownSID. }
  assert (Hno3 : no_edges (heap w3)) by by eapply edge_free_Preprocess.
  by destruct (analyzed_edges_ok (AsArray w3) w3 w' Hext Hno3 Hrun).
Qed.

(** ** Before the load: the domain, the connection, the dump *)

Lemma strings_Index_range (s sub : string) :
  (-1 ≤ strings_Index s sub ≤ Z.of_nat (String.length s))%Z.
Proof.
  induction s as [|c s IH]; cbn [strings_Index String.length].
  - destruct (String.prefix sub ""); simpl; lia.
  - rewrite Nat2Z.inj_succ. destruct (String.prefix sub (String c s)); [lia|].
    destruct (strings_Index s sub <? 0)%Z eqn:E; [lia|]. apply Z.ltb_ge in E. lia.
Qed.

Lemma prefix_empty (s : string) : String.prefix "" s = true.
Proof. by destruct s. Qed.

Lemma prefix_char (c d : Ascii.ascii) (sub s : string) :
  String.prefix (String c sub) (String d s)
  = if Ascii.ascii_dec c d then String.prefix sub s else false.
Proof. reflexivity. Qed.

Lemma strings_Index_cons (d : Ascii.ascii) (s sub : string) :
  strings_Index (String d s) sub
  = if String.prefix sub (String d s) then 0%Z
    else if (strings_Index s sub <? 0)%Z then (-1)%Z else (strings_Index s sub + 1)%Z.
Proof. reflexivity. Qed.

(** The index of a string that is not empty is a position of [s]. *)
Lemma strings_Index_lt (s : string) (c : Ascii.ascii) (sub : string) :
  (strings_Index s (String c sub) < Z.of_nat (String.length s))%Z.
Proof.
  induction s as [|d s IH]; [simpl; lia|].
  rewrite strings_Index_cons. cbn [String.length]. rewrite Nat2Z.inj_succ.
  destruct (String.prefix (String c sub) (String d s)); [lia|].
  destruct (strings_Index s (String c sub) <? 0)%Z eqn:E; lia.
Qed.

Lemma sliceFrom_in_range (n : nat) (s : string) :
  (n ≤ String.length s)%nat → is_Some (sliceFrom n s).
Proof.
  revert s. induction n as [|n IH]; intros s Hn; simpl; [eauto|].
  destruct s as [|c s]; simpl in Hn; [lia|]. apply IH. lia.
Qed.

Lemma sliceFrom_after (a : string) (c : Ascii.ascii) (b : string) :
  sliceFrom (String.length a + 1) (a +:+ String c "" +:+ b) = Some b.
Proof. induction a as [|d a IH]; simpl; [done|exact IH]. Qed.

(** The first instance of a character. *)
Lemma strings_Index_first (c : Ascii.ascii) (a b : string) :
  strings_Index a (String c "") = (-1)%Z →
  strings_Index (a +:+ String c "" +:+ b) (String c "") = Z.of_nat (String.length a).
Proof.
  induction a as [|d a IH].
  { intros _. change ("" +:+ String c "" +:+ b) with (String c b).
    rewrite strings_Index_cons, prefix_char.
    destruct (Ascii.ascii_dec c c); [|congruence]. by rewrite prefix_empty. }
  change (String d a +:+ String c "" +:+ b) with (String d (a +:+ String c "" +:+ b)).
  rewrite !strings_Index_cons, !prefix_char. cbn [String.length]. rewrite Nat2Z.inj_succ.
  destruct (Ascii.ascii_dec c d) as [Hd|Hd].
  - rewrite prefix_empty. discriminate.
  - destruct (strings_Index a (String c "") <? 0)%Z eqn:E; [|intros; lia].
    intros _. rewrite IH.
    + destruct (Z.of_nat (String.length a) <? 0)%Z eqn:E'; [apply Z.ltb_lt in E'|]; lia.
    + pose proof (strings_Index_range a (String c "")). apply Z.ltb_lt in E. lia.
Qed.

(** X13. The domain the run works on.  A domain given on the command line is
    taken as it is.  Otherwise the lower-cased USERDNSDOMAIN is used, or,
    when that is empty, the lower-cased part of the host name after its first
    dot, the whole host name when it has no dot; the slice of the host name
    is always in range.  Whenever [main] goes on, the domain is not empty. *)
Theorem autodetected_domain (domain USERDNSDOMAIN : string) (hostname : string * bool) :
  (domain ≠ "" → autoDetectDomain domain USERDNSDOMAIN hostname = Ok domain)
  ∧ (∀ d, autoDetectDomain domain USERDNSDOMAIN hostname = Ok d → d ≠ "")
  ∧ autoDetectDomain domain USERDNSDOMAIN hostname ≠ Fatal "slice bounds out of range"
  ∧ (domain = "" → strings_ToLower USERDNSDOMAIN ≠ "" →
     autoDetectDomain domain USERDNSDOMAIN hostname = Ok (strings_ToLower USERDNSDOMAIN))
  ∧ (∀ a b, domain = "" → strings_ToLower USERDNSDOMAIN = "" →
       hostname = (a +:+ "." +:+ b, false) → strings_Index a "." = (-1)%Z →
       strings_ToLower b ≠ "" →
       autoDetectDomain domain USERDNSDOMAIN hostname = Ok (strings_ToLower b))
  ∧ (∀ f, domain = "" → strings_ToLower USERDNSDOMAIN = "" →
       hostname = (f, false) → strings_Index f "." = (-1)%Z →
       strings_ToLower f ≠ "" →
       autoDetectDomain domain USERDNSDOMAIN hostname = Ok (strings_ToLower f)).
Proof.
  unfold autoDetectDomain. split; [|split; [|split; [|split; [|split]]]].
  - intros Hd. by rewrite decide_False.
  - intros d. destruct (decide (domain = "")); [|congruence].
    intros (d' & _ & Hd)%bind_Ok. destruct (decide (d' = "")); congruence.
  - destruct (decide (domain = "")); [|done].
    destruct (decide (strings_ToLower USERDNSDOMAIN = "")) as [E|E]; simpl.
    + destruct hostname as [f []]; simpl.
      * rewrite E. by rewrite decide_True.
      * destruct (sliceFrom_in_range (Z.to_nat (strings_Index f "." + 1)) f) as [x ->].
        { assert (strings_Index f "." < Z.of_nat (String.length f))%Z
            by apply strings_Index_lt.
          pose proof (strings_Index_range f "."). lia. }
        simpl. by destruct (decide (strings_ToLower x = "")).
    + by rewrite decide_False.
  - intros -> Henv. rewrite decide_True by done. rewrite decide_False by done. simpl.
    by rewrite decide_False.
  - intros a b -> Henv -> Ha Hb. rewrite decide_True by done. rewrite decide_True by done.
    rewrite (strings_Index_first _ a b Ha).
    replace (Z.to_nat (Z.of_nat (String.length a) + 1)) with (String.length a + 1) by lia.
    rewrite sliceFrom_after. simpl. by rewrite decide_False.
  - intros f -> Henv -> Hf Hlow. rewrite decide_True by done. rewrite decide_True by done.
    rewrite Hf. simpl. by rewrite decide_False.
Qed.

Lemma length_zero_empty (s : string) : String.length s = 0 ↔ s = "".
Proof. by destruct s. Qed.

Lemma authmodeOf_range (mode : string) (a : Z) :
  authmodeOf mode = Some a → (0 ≤ a ≤ 5)%Z.
Proof.
  unfold authmodeOf. repeat case_decide; intros [= <-] || discriminate; lia.
Qed.

Lemma preflight_checks (server domain user pass : string) (k r : Flow Connection) :
  r = (if bool_decide (String.length server ≠ 0) && bool_decide (String.length domain ≠ 0)
          && bool_decide (String.length user ≠ 0) && bool_decide (String.length pass = 0)
       then LogFatal "Please provide password using -password=xxxx paramenter"
       else if bool_decide (String.length server = 0) || bool_decide (String.length domain = 0)
               || bool_decide (String.length user = 0) || bool_decide (String.length pass = 0)
       then ShowUsage
       else k) →
  (server ≠ "" → domain ≠ "" → user ≠ "" → pass ≠ "" → r = k)
  ∧ (∀ c, r = Proceed c → server ≠ "" ∧ domain ≠ "" ∧ user ≠ "" ∧ pass ≠ "" ∧ k = Proceed c)
  ∧ (∀ msg, r = LogFatal msg →
       (server ≠ "" ∧ domain ≠ "" ∧ user ≠ "" ∧ pass = "") ∨ k = LogFatal msg).
Proof.
  intros ->. destruct server, domain, user, pass; cbn; repeat split; try done; eauto 10.
Qed.

(** X14. The dump connects only with a server, a domain, a user and a
    password that are not empty and with one of the six authentication modes,
    under the user name user@domain.  A server given on the command line is
    never replaced by the one looked up, and the environment's user name is
    used only when none is given.  When exactly the password is missing the
    process ends with the password message; a run with all four and a known
    mode does connect. *)
Theorem dump_connects_only_with_credentials
    (server domain user pass authmodeString : string)
    (srv : string * list string * bool) (USERNAME : string) :
  (∀ c, dumpPreflight server domain user pass authmodeString srv USERNAME = Proceed c →
     conn_Server c ≠ "" ∧ domain ≠ "" ∧ pass ≠ ""
     ∧ conn_User c = (if decide (user = "") then USERNAME else user) +:+ "@" +:+ domain
     ∧ (if decide (user = "") then USERNAME else user) ≠ ""
     ∧ authmodeOf authmodeString = Some (conn_Authmode c)
     ∧ (0 ≤ conn_Authmode c ≤ 5)%Z
     ∧ (server ≠ "" → conn_Server c = server))
  ∧ (∀ msg, dumpPreflight server domain user pass authmodeString srv USERNAME = LogFatal msg →
       pass = "" ∧ domain ≠ "")
  ∧ (∀ a, server ≠ "" → domain ≠ "" → user ≠ "" → pass ≠ "" →
       authmodeOf authmodeString = Some a →
       dumpPreflight server domain user pass authmodeString srv USERNAME
       = Proceed (mkConnection server (user +:+ "@" +:+ domain) a)).
Proof.
  unfold dumpPreflight.
  set (server' := if bool_decide (domain ≠ "") && bool_decide (server = "") then _ else _).
  assert (Hkeep : server ≠ "" → server' = server).
  { intros Hs. unfold server'. rewrite (bool_decide_eq_false_2 (server = "")) by done.
    by rewrite andb_false_r. }
  clearbody server'.
  set (user' := if decide (user = "") then USERNAME else user).
  assert (Huser : user ≠ "" → user' = user).
  { intros Hu. unfold user'. by rewrite decide_False. }
  clearbody user'.
  set (k := match authmodeOf authmodeString with
            | Some authmode => Proceed (mkConnection server' (user' +:+ "@" +:+ domain) authmode)
            | None => ShowUsage
            end).
  destruct (preflight_checks server' domain user' pass k _ eq_refl) as (Hok & Hproc & Hfatal).
  split; [|split].
  - intros c Hc. destruct (Hproc c Hc) as (Hs & Hd & Hu & Hp & Hk).
    unfold k in Hk. destruct (authmodeOf authmodeString) as [a|] eqn:Ha; [|done].
    injection Hk as <-. simpl. apply authmodeOf_range in Ha as Hrange.
    repeat split; try done; try lia.
  - intros msg Hm. destruct (Hfatal msg Hm) as [(_ & Hd & _ & Hp)|Hk]; [done|].
    unfold k in Hk. by destruct (authmodeOf authmodeString).
  - intros a Hs Hd Hu Hp Ha. rewrite Hok.
    + unfold k. by rewrite Ha, (Hkeep Hs), (Huser Hu).
    + by rewrite (Hkeep Hs).
    + done.
    + by rewrite (Huser Hu).
    + done.
Qed.

Lemma saveObjects_all (encodes : RawObject → bool) (rawobjects out : list RawObject) :
  Forall (λ r, encodes r = true) rawobjects →
  saveObjects encodes rawobjects out = Ok (out ++ rawobjects).
Proof.
  unfold saveObjects. intros Hall. revert out.
  induction Hall as [|r l Hr _ IH]; intros out; simpl; [by rewrite app_nil_r|].
  rewrite Hr. simpl. by rewrite IH, <-app_assoc.
Qed.

Lemma saveObjects_fails (encodes : RawObject → bool) (before : list RawObject)
    (r : RawObject) (after out : list RawObject) :
  Forall (λ r, encodes r = true) before → encodes r = false →
  saveObjects encodes (before ++ r :: after) out = Fatal "Problem encoding LDAP object".
Proof.
  unfold saveObjects. intros Hall Hr. revert out.
  induction Hall as [|x l Hx _ IH]; intros out; simpl; [by rewrite Hr|].
  rewrite Hx. simpl. apply IH.
Qed.

(** X15. The dump writes the objects of the five searches in the order
    schema, configuration, forest DNS zones, domain DNS zones, directory.  A
    search of a DNS zone that fails is skipped and the dump goes on with what
    is written; a failure of one of the other three, or an object that does
    not encode, ends the process. *)
Theorem dump_tolerates_missing_DNS_zones (encodes : RawObject → bool)
    (schema configuration main : list RawObject)
    (forestDNS domainDNS : list RawObject + string) :
  Forall (λ r, encodes r = true)
         (schema ++ configuration ++ dumped_or_nothing forestDNS
          ++ dumped_or_nothing domainDNS ++ main) →
  DumpAll encodes (inl schema) (inl configuration) forestDNS domainDNS (inl main)
  = Ok (schema ++ configuration ++ dumped_or_nothing forestDNS
        ++ dumped_or_nothing domainDNS ++ main)
  ∧ (∀ err c m, DumpAll encodes (inr err) c forestDNS domainDNS m
                = Fatal "Problem dumping AD")
  ∧ (∀ err m, DumpAll encodes (inl schema) (inr err) forestDNS domainDNS m
              = Fatal "Problem dumping AD")
  ∧ (∀ err, DumpAll encodes (inl schema) (inl configuration) forestDNS domainDNS (inr err)
            = Fatal "Problem dumping AD")
  ∧ (∀ before r after out, Forall (λ r, encodes r = true) before → encodes r = false →
       saveObjects encodes (before ++ r :: after) out
       = Fatal "Problem encoding LDAP object").
Proof.
  intros Hall.
  apply Forall_app in Hall as [Hs Hall]. apply Forall_app in Hall as [Hc Hall].
  apply Forall_app in Hall as [Hf Hall]. apply Forall_app in Hall as [Hd Hm].
  assert (Hopt : ∀ dumped out, Forall (λ r, encodes r = true) (dumped_or_nothing dumped) →
            dumpOptional encodes dumped out = Ok (out ++ dumped_or_nothing dumped)).
  { intros [l|e] out Hl; simpl; [by apply saveObjects_all|by rewrite app_nil_r]. }
  assert (Hfirst : ∀ m, DumpAll encodes (inl schema) (inl configuration) forestDNS domainDNS m
            = dumpRequired encodes m
                (schema ++ configuration ++ dumped_or_nothing forestDNS
                 ++ dumped_or_nothing domainDNS)).
  { intros m. unfold DumpAll. simpl.
    rewrite (saveObjects_all _ _ _ Hs). simpl.
    rewrite (saveObjects_all _ _ _ Hc). simpl.
    rewrite (Hopt _ _ Hf). simpl. rewrite (Hopt _ _ Hd). simpl.
    by rewrite <-!app_assoc. }
  split; [|split; [|split; [|split]]].
  - rewrite Hfirst. simpl. rewrite (saveObjects_all _ _ _ Hm). by rewrite <-!app_assoc.
  - done.
  - intros err m. unfold DumpAll. simpl. by rewrite (saveObjects_all _ _ _ Hs).
  - intros err. by rewrite Hfirst.
  - intros. by apply saveObjects_fails.
Qed.

(** ** The cache files *)

Lemma comma_string : String comma "" = ",".
Proof. reflexivity. Qed.

Lemma strings_Index_char (c d : Ascii.ascii) (s : string) :
  strings_Index (String d s) (String c "")
  = if Ascii.eqb d c then 0%Z
    else if (strings_Index s (String c "") <? 0)%Z then (-1)%Z
         else (strings_Index s (String c "") + 1)%Z.
Proof.
  rewrite strings_Index_cons, prefix_char, prefix_empty.
  destruct (Ascii.ascii_dec c d) as [->|Hne].
  - by rewrite Ascii.eqb_refl.
  - destruct (Ascii.eqb_spec d c); [congruence|done].
Qed.

Lemma strings_Split_no_sep (s : string) (c : Ascii.ascii) :
  strings_Index s (String c "") = (-1)%Z → strings_Split s c = [s].
Proof.
  induction s as [|d s IH]; [done|].
  rewrite strings_Index_char. cbn [strings_Split].
  destruct (Ascii.eqb d c); [discriminate|].
  pose proof (strings_Index_range s (String c "")) as Hr.
  destruct (strings_Index s (String c "") <? 0)%Z eqn:E; [|intros; lia].
  apply Z.ltb_lt in E. intros _. rewrite IH; [done|lia].
Qed.

Lemma strings_Split_parts (s : string) (c : Ascii.ascii) :
  Forall (λ d, strings_Index d (String c "") = (-1)%Z) (strings_Split s c)
  ∧ strings_Split s c ≠ [].
Proof.
  induction s as [|d s [IH Hne]]; [split; [by apply Forall_singleton|done]|].
  cbn [strings_Split]. destruct (Ascii.eqb d c) eqn:E.
  - split; [|done]. apply Forall_cons. split; [reflexivity|done].
  - destruct (strings_Split s c) as [|first more]; [done|]. split; [|done].
    apply Forall_cons in IH as [Hfirst Hmore]. apply Forall_cons. split; [|done].
    rewrite strings_Index_char, E, Hfirst. reflexivity.
Qed.

Lemma strings_Split_sep (s : string) (c : Ascii.ascii) :
  strings_Index s (String c "") ≠ (-1)%Z → (2 ≤ length (strings_Split s c))%nat.
Proof.
  induction s as [|d s IH]; [done|].
  rewrite strings_Index_char. cbn [strings_Split].
  destruct (strings_Split_parts s c) as [_ Hne].
  destruct (Ascii.eqb d c).
  - intros _. destruct (strings_Split s c); [done|simpl; lia].
  - pose proof (strings_Index_range s (String c "")) as Hr.
    destruct (strings_Index s (String c "") <? 0)%Z eqn:E; [done|].
    apply Z.ltb_ge in E. intros _.
    destruct (strings_Split s c) as [|first more] eqn:Es; [done|].
    simpl. apply IH. lia.
Qed.

(** Splitting and joining again gives the string back. *)
Lemma strings_Join_Split (s : string) (c : Ascii.ascii) :
  strings_Join (strings_Split s c) (String c "") = s.
Proof.
  induction s as [|d s IH]; [done|].
  cbn [strings_Split]. destruct (strings_Split_parts s c) as [_ Hne].
  destruct (Ascii.eqb_spec d c) as [->|Hdc].
  - destruct (strings_Split s c) as [|first more] eqn:E; [done|].
    change (strings_Join ("" :: first :: more) (String c ""))
      with (String c (strings_Join (first :: more) (String c ""))).
    by rewrite IH.
  - destruct (strings_Split s c) as [|first more] eqn:E; [done|].
    destruct more as [|second more].
    + simpl in *. by rewrite IH.
    + change (strings_Join (String d first :: second :: more) (String c ""))
        with (String d (strings_Join (first :: second :: more) (String c ""))).
      by rewrite IH.
Qed.

(** X16. The load opens the file the dump created: for a domain without a
    comma the one file it opens is the file the dump wrote.  In general it
    opens, in order, the files that dumps of the comma-separated parts of
    the domain create: the parts hold no comma, joined by commas they give
    the domain back, and there are two or more of them when the domain holds
    a comma. *)
Theorem load_opens_the_file_the_dump_created
    (filepath_Join : string → string → string) (datapath domain : string) :
  (strings_Index domain "," = (-1)%Z →
   loadedFiles filepath_Join datapath domain = [dumpedFile filepath_Join datapath domain])
  ∧ ∃ parts,
      loadedFiles filepath_Join datapath domain = dumpedFile filepath_Join datapath <$> parts
      ∧ Forall (λ d, strings_Index d "," = (-1)%Z) parts
      ∧ strings_Join parts "," = domain
      ∧ (strings_Index domain "," ≠ (-1)%Z → (2 ≤ length parts)%nat).
Proof.
  rewrite <-comma_string. split.
  - intros Hno. unfold loadedFiles. by rewrite (strings_Split_no_sep _ _ Hno).
  - exists (strings_Split domain comma). split; [done|]. split; [|split].
    + apply strings_Split_parts.
    + apply strings_Join_Split.
    + apply strings_Split_sep.
Qed.

End MoreProofs.

(** * The further properties on the small directory *)

Lemma extra_analyzers_extend : analyzers_extend (H := Extra.externals).
Proof. intros id p w res w' [= _ <-]. apply extends_refl. Qed.

Lemma extra_analyzers_return : analyzers_return (H := Extra.externals).
Proof.
  intros id p w Hwf Hp. exists [p], w. split; [done|]. split; [done|].
  by apply Forall_singleton.
Qed.

Lemma Analyze_completes_witness :
  store_wf Demo.w1 ∧ ∃ w', Analyze (H := Extra.externals) Demo.w1 = Ok w'.
Proof.
  split; [apply demo_store_wf|].
  exact (Analyze_completes (H := Extra.externals) Demo.w1 extra_analyzers_extend
           extra_analyzers_return (demo_store_wf _ _)).
Defined.

Lemma analysis_only_appends_edges_witness :
  analyzeObjects (AsArray Demo.w0) Demo.w0 = Ok Demo.w0_analyzed
  ∧ edges_appended Demo.w0 Demo.w0_analyzed.
Proof.
  split; [exact demo_w0_analyzed|].
  exact (analysis_only_appends_edges (AsArray Demo.w0) Demo.w0 Demo.w0_analyzed
           demo_analyzers_extend demo_w0_analyzed).
Defined.

Lemma pwnlinks_counts_the_edges_witness :
  no_edges (heap Demo.w0)
  ∧ ∃ pwnlinks,
      analyzeObjectsCounting (AsArray Demo.w0) Demo.w0 = Ok (Demo.w0_analyzed, pwnlinks)
      ∧ pwnlinks = countCanPwn (heap Demo.w0_analyzed)
      ∧ pwnlinks = countPwnableBy (heap Demo.w0_analyzed).
Proof.
  assert (Hno : no_edges (heap Demo.w0)) by (by repeat constructor).
  split; [exact Hno|].
  destruct (pwnlinks_counts_the_edges (AsArray Demo.w0) Demo.w0 demo_analyzers_extend Hno)
    as [Hsound Hcomplete].
  destruct (Hcomplete Demo.w0_analyzed demo_w0_analyzed) as [pwnlinks Hrun].
  exists pwnlinks. split; [exact Hrun|]. exact (proj2 (Hsound Demo.w0_analyzed pwnlinks Hrun)).
Defined.

(** One edge is recorded on System and alice, and one is counted. *)
Example demo_w0_pwnlinks :
  analyzeObjectsCounting (AsArray Demo.w0) Demo.w0 = Ok (Demo.w0_analyzed, 1)
  ∧ countCanPwn (heap Demo.w0_analyzed) = 1.
Proof. split; vm_compute; reflexivity. Qed.

Lemma demo_w0_twice : analyzeObjects (AsArray Demo.w0_analyzed) Demo.w0_analyzed = Ok Extra.w0_twice.
Proof. vm_compute. reflexivity. Qed.

Lemma analysis_keeps_edges_consistent_witness :
  edges_ok (heap Demo.w0_analyzed)
  ∧ analyzeObjects (AsArray Demo.w0_analyzed) Demo.w0_analyzed = Ok Extra.w0_twice
  ∧ ∀ s m t, canPwn_edge (heap Extra.w0_twice) s m t
             ↔ pwnableBy_edge (heap Extra.w0_twice) t m s.
Proof.
  assert (Hok : edges_ok (heap Demo.w0_analyzed)).
  { eapply (analyzed_edges_ok (AsArray Demo.w0) Demo.w0);
      [exact demo_analyzers_extend|by repeat constructor|exact demo_w0_analyzed]. }
  split; [exact Hok|]. split; [exact demo_w0_twice|].
  exact (proj1 (analysis_keeps_edges_consistent (AsArray Demo.w0_analyzed) Demo.w0_analyzed
                 Extra.w0_twice demo_analyzers_extend Hok demo_w0_twice)).
Defined.

(** The pass does not look for an edge it recorded before: the second pass
    records it again. *)
Example demo_w0_twice_edges :
  (λ o, (CanPwn o, PwnableBy o)) <$> heap Extra.w0_twice
  = [([], [mkPwnInfo Demo.method0 1; mkPwnInfo Demo.method0 1]);
     ([mkPwnInfo Demo.method0 0; mkPwnInfo Demo.method0 0], [])].
Proof. by vm_compute. Qed.

Lemma LAPS_one_counterpart_per_granting_entry_witness :
  heap Demo.w1 !! 1 = Some Demo.ws1
  ∧ ∃ res w', LAPS_ObjectAnalyzer Demo.guidLAPS 1 Demo.w1 = Ok (res, w')
      ∧ Forall2 (λ acl p, FindSID w' (ace_SID acl) = Some p) [Demo.aceAlice] res.
Proof.
  assert (Hobj : heap Demo.w1 !! 1 = Some Demo.ws1) by reflexivity.
  split; [exact Hobj|].
  destruct (LAPS_one_counterpart_per_granting_entry Demo.guidLAPS 1 Demo.w1 Demo.ws1
              (mkSD (mkACL [Demo.aceAlice])) Hobj)
    as (res & w' & Hrun & Hall & _); [reflexivity|discriminate|reflexivity|].
  exists res, w'. split; [exact Hrun|]. exact Hall.
Defined.

Lemma LAPS_registered_exactly_for_its_schema_entry_witness :
  heap Demo.w4 !! 0 = Some Demo.lapsSchema
  ∧ is_LAPS_schema Demo.lapsSchema
  ∧ ∃ w', specialObjects 0 Demo.w4 = Ok w'
      ∧ PwnAnalyzers w' = [mkPwnAnalyzer PwnReadLAPSPassword (LAPSAnalyzer Demo.guidLAPS)].
Proof.
  assert (Hobj : heap Demo.w4 !! 0 = Some Demo.lapsSchema) by reflexivity.
  assert (Hlaps : is_LAPS_schema Demo.lapsSchema) by (by vm_compute).
  split; [exact Hobj|]. split; [exact Hlaps|].
  destruct (LAPS_registered_exactly_for_its_schema_entry 0 Demo.w4 Demo.lapsSchema Hobj)
    as (w' & Hrun & _ & _ & Hyes & _).
  exists w'. split; [exact Hrun|]. exact (Hyes Hlaps).
Defined.

Lemma preprocessing_writes_only_derived_attributes_witness :
  2 < length (heap Extra.w5) ∧ 3 < length (heap Extra.w5) ∧ 0 < length (heap Extra.w5)
  ∧ ∃ s', preprocessObject 2 3 0 Extra.w5 = Ok s'
      ∧ attrs_kept (λ a, isMeta a = false) Extra.w5 s'
      ∧ ∃ o', heap s' !! 0 = Some o' ∧ o_Attr o' MetaType = ["User"].
Proof.
  assert (H2 : 2 < length (heap Extra.w5)) by (simpl; lia).
  assert (H3 : 3 < length (heap Extra.w5)) by (simpl; lia).
  assert (H0 : 0 < length (heap Extra.w5)) by (simpl; lia).
  split; [exact H2|]. split; [exact H3|]. split; [exact H0|].
  destruct (preprocessing_writes_only_derived_attributes (H := Demo.externals)
              2 3 0 Extra.w5 H2 H3 H0)
    as (s' & Hrun & Hkept & o1 & o' & Ho1 & Ho' & _ & Hmeta).
  exists s'. split; [exact Hrun|]. split; [exact Hkept|].
  exists o'. split; [exact Ho'|]. rewrite Hmeta. injection Ho1 as <-. reflexivity.
Defined.

Lemma UAC_bits_set_their_attributes_witness :
  heap Demo.w1 !! 1 = Some Demo.ws1
  ∧ ∃ s' o',
      forM_ uacTable (λ '(flag, attr), uacFlag 1 Extra.uacDisabledWorkstation flag attr) Demo.w1
      = Ok s'
      ∧ heap s' !! 1 = Some o'
      ∧ Attributes o' !! MetaAccountDisabled = Some ["1"]
      ∧ Attributes o' !! MetaWorkstation = Some ["1"]
      ∧ Attributes o' !! MetaServer = None.
Proof.
  assert (Hobj : heap Demo.w1 !! 1 = Some Demo.ws1) by reflexivity.
  split; [exact Hobj|].
  destruct (UAC_bits_set_their_attributes 1 Extra.uacDisabledWorkstation Demo.w1 Demo.ws1 Hobj)
    as (_ & s' & o' & Hrun & Ho' & Hin & _).
  exists s', o'. split; [exact Hrun|]. split; [exact Ho'|].
  split; [|split].
  - rewrite (Hin UAC_ACCOUNTDISABLE MetaAccountDisabled); [reflexivity|].
    unfold uacTable. set_solver.
  - rewrite (Hin UAC_WORKSTATION_TRUST_ACCOUNT MetaWorkstation); [reflexivity|].
    unfold uacTable. set_solver.
  - rewrite (Hin UAC_SERVER_TRUST_ACCOUNT MetaServer); [reflexivity|].
    unfold uacTable. set_solver.
Defined.

Lemma demo_fresh_alice :
  fresh_names ((λ r, ToObject r false) <$> [Demo.rawAlice]) Demo.emptyWorld.
Proof. split; [apply (bool_decide_unpack (NoDup _)); by vm_compute|]. by apply Forall_singleton. Qed.

Lemma load_aborts_on_a_decode_error_witness :
  Cause Extra.cutInValue ≠ io_EOF
  ∧ LoadObjects false [inl Demo.rawAlice; inr Extra.cutInValue; inl Demo.rawBob] Demo.emptyWorld
    = Fatal "Problem decoding object".
Proof.
  assert (Hcause : Cause Extra.cutInValue ≠ io_EOF) by discriminate.
  split; [exact Hcause|].
  exact (load_aborts_on_a_decode_error false [Demo.rawAlice] Extra.cutInValue
           [inl Demo.rawBob] Demo.emptyWorld demo_fresh_alice Hcause).
Defined.

Lemma domains_are_loaded_one_after_the_other_witness :
  ∃ w', LoadDomains false [[inl Demo.rawAlice]; [inl Demo.rawBob; inr Demo.cutShort]]
                    Demo.emptyWorld = Ok w'
    ∧ heap w' = [ToObject Demo.rawAlice false; ToObject Demo.rawBob false].
Proof.
  destruct (domains_are_loaded_one_after_the_other false
              [([Demo.rawAlice], []); ([Demo.rawBob], [inr Demo.cutShort])] Demo.emptyWorld)
    as (w' & Hrun & Hheap).
  - apply Forall_cons. split; [by left|]. apply Forall_singleton.
    right. by exists Demo.cutShort, [].
  - split.
    + apply (bool_decide_unpack (NoDup _)). by vm_compute.
    + apply Forall_cons. split; [done|]. by apply Forall_singleton.
  - exists w'. split; [exact Hrun|exact Hheap].
Defined.

Lemma demo_w0_known : AddKnownSIDs Demo.w0 = Ok Extra.w0_known.
Proof. vm_compute. reflexivity. Qed.

Lemma known_SID_step_is_idempotent_witness :
  knownsids_parse
  ∧ AddKnownSIDs Demo.w0 = Ok Extra.w0_known
  ∧ AddKnownSIDs Extra.w0_known = Ok Extra.w0_known.
Proof.
  split; [exact demo_knownsids_parse|]. split; [exact demo_w0_known|].
  exact (known_SID_step_is_idempotent Demo.w0 Extra.w0_known demo_knownsids_parse
           demo_w0_known).
Defined.

Lemma demo_loaded :
  LoadAndAnalyze false [[inl Demo.rawAlice]; [inl Demo.rawBob; inr Demo.cutShort]]
                 Extra.start = Ok Extra.loaded.
Proof. vm_compute. reflexivity. Qed.

Lemma whole_run_leaves_consistent_edges_witness :
  ToObject_no_edges ∧ MemberOf_no_edges ∧ no_edges (heap Extra.start)
  ∧ LoadAndAnalyze false [[inl Demo.rawAlice]; [inl Demo.rawBob; inr Demo.cutShort]]
                   Extra.start = Ok Extra.loaded
  ∧ ∀ s m t, canPwn_edge (heap Extra.loaded) s m t ↔ pwnableBy_edge (heap Extra.loaded) t m s.
Proof.
  assert (Hto : ToObject_no_edges (H := Demo.externals)) by done.
  assert (Hm : MemberOf_no_edges (H := Demo.externals)) by (by intros p w).
  assert (Hno : no_edges (heap Extra.start)) by constructor.
  split; [exact Hto|]. split; [exact Hm|]. split; [exact Hno|]. split; [exact demo_loaded|].
  exact (proj1 (whole_run_leaves_consistent_edges false
                  [[inl Demo.rawAlice]; [inl Demo.rawBob; inr Demo.cutShort]]
                  Extra.start Extra.loaded demo_analyzers_extend Hto Hm Hno demo_loaded)).
Defined.

(** The run on the two files: alice and bob are loaded, the known SIDs
    added, and analyzer 0 makes bob hold an edge to alice. *)
Example demo_loaded_edges :
  (λ o, (DistinguishedName o, CanPwn o)) <$> take 2 (heap Extra.loaded)
  = [("CN=alice,DC=contoso,DC=local", []);
     ("CN=bob,DC=contoso,DC=local", [mkPwnInfo Demo.method0 0])].
Proof. by vm_compute. Qed.

Lemma autodetected_domain_witness :
  autoDetectDomain "" "" ("dc1.contoso.local", false) = Ok "contoso.local"
  ∧ autoDetectDomain "" "" ("localhost", false) = Ok "localhost".
Proof.
  split.
  - destruct (autodetected_domain "" "" ("dc1.contoso.local", false))
      as (_ & _ & _ & _ & Hdot & _).
    by apply (Hdot "dc1" "contoso.local").
  - destruct (autodetected_domain "" "" ("localhost", false))
      as (_ & _ & _ & _ & _ & Hplain).
    by apply (Hplain "localhost").
Defined.

Lemma dump_connects_only_with_credentials_witness :
  dumpPreflight "dc1.contoso.local" "contoso.local" "alice" "secret" "ntlm"
                ("", [], true) ""
  = Proceed (mkConnection "dc1.contoso.local" "alice@contoso.local" 3).
Proof.
  destruct (dump_connects_only_with_credentials "dc1.contoso.local" "contoso.local"
              "alice" "secret" "ntlm" ("", [], true) "") as (_ & _ & Hgo).
  by apply Hgo.
Defined.

Lemma dump_tolerates_missing_DNS_zones_witness :
  DumpAll (λ _, true) (inl [Extra.rawLAPS]) (inl []) (inr "no such object")
          (inr "no such object") (inl [Demo.rawAlice; Demo.rawBob])
  = Ok [Extra.rawLAPS; Demo.rawAlice; Demo.rawBob].
Proof.
  destruct (dump_tolerates_missing_DNS_zones (λ _, true) [Extra.rawLAPS] []
              [Demo.rawAlice; Demo.rawBob] (inr "no such object") (inr "no such object"))
    as [Hrun _]; [|exact Hrun].
  apply Forall_forall. by intros.
Defined.

Lemma load_opens_the_file_the_dump_created_witness :
  loadedFiles (λ a b, a +:+ "/" +:+ b) "data" "contoso.local"
  = ["data/contoso.local.objects.lz4.msgp"].
Proof.
  apply (proj1 (load_opens_the_file_the_dump_created (λ a b, a +:+ "/" +:+ b)
                  "data" "contoso.local")). reflexivity.
Defined.

(** A list of two domains: the load looks for two files, the dump wrote
    one under the whole string. *)
Example two_domains_two_files :
  loadedFiles (λ a b, a +:+ "/" +:+ b) "data" "a.test,b.test"
  = ["data/a.test.objects.lz4.msgp"; "data/b.test.objects.lz4.msgp"]
  ∧ dumpedFile (λ a b, a +:+ "/" +:+ b) "data" "a.test,b.test"
    = "data/a.test,b.test.objects.lz4.msgp".
Proof. by vm_compute. Qed.

Example split_two_domains :
  strings_Split "a.test,b.test" comma = ["a.test"; "b.test"]
  ∧ strings_Split "" comma = [""] ∧ strings_Split "a,,b," comma = ["a"; ""; "b"; ""].
Proof. by vm_compute. Qed.
